(** * scrubImageSequence.js: scroll-synchronised canvas image sequences

    A shallow embedding of [src/js/scrubImageSequence.js] and the
    properties of it that the specification states.

    Conventions of the embedding.

    - Frame counts, frame indices and the two global counters are JavaScript
      Numbers that hold integers; they are embedded as [Z] (exact below
      2^53), extended with [NaN] where the script can meet it (the result of
      [Number(undefined)] for an absent attribute).
    - The scale arithmetic of [render], tween durations, delays and the
      scroll offset are IEEE 754 binary64 values, embedded as [spec_float]
      with the operations of [SpecFloat] at precision 53.
    - DOM integers ([canvas.width], [img.width], [clientWidth]) are
      [unsigned long]/[long] values, embedded as [N].
    - Exceptions are explicit: a computation returns a [completion] next to
      the state it leaves behind, so what happened before a [throw] stays
      visible.
    - The browser and the animation engine are the environment: the page
      is a state, and loads, errors, breakpoint changes, animation ticks,
      resizes, scrolling and layout are events that run the callbacks the
      script registered. *)

From Stdlib Require Import ZArith NArith QArith Qround List String Ascii Bool Lia.
From Stdlib Require Import SpecFloat DecimalString DecimalZ.
Import ListNotations.

Set Implicit Arguments.

Local Open Scope Z_scope.

(** ** JavaScript values *)

Module Js.

(** IEEE 754 binary64, the Number type. *)
Definition num : Type := spec_float.
Definition prec : Z := 53.
Definition emax : Z := 1024.

Definition of_Z (z : Z) : num := binary_normalize prec emax z 0 false.
Definition of_N (n : N) : num := of_Z (Z.of_N n).

Definition add : num -> num -> num := SFadd prec emax.
Definition sub : num -> num -> num := SFsub prec emax.
Definition mul : num -> num -> num := SFmul prec emax.
Definition div : num -> num -> num := SFdiv prec emax.
Definition leb : num -> num -> bool := SFleb.
Definition ltb : num -> num -> bool := SFltb.

Definition zero : num := S754_zero false.
Definition two : num := of_Z 2.

Definition is_nan (x : num) : bool :=
  match x with S754_nan => true | _ => false end.

Definition is_finite (x : num) : bool :=
  match x with S754_zero _ | S754_finite _ _ _ => true | _ => false end.

Definition num_eq_dec (x y : num) : {x = y} + {x <> y}.
Proof.
  decide equality;
    try apply Bool.bool_dec; try apply Z.eq_dec; apply Pos.eq_dec.
Defined.

Definition num_eqb (x y : num) : bool :=
  if num_eq_dec x y then true else false.

(** [Math.max] (ECMA-262, 21.3.2.24): NaN if any argument is NaN;
    otherwise the running maximum from -Infinity, where +0 beats -0. *)
Definition max_step (highest number : num) : num :=
  match number, highest with
  | S754_zero false, S754_zero true => number
  | _, _ => if ltb highest number then number else highest
  end.

Definition Math_max (xs : list num) : num :=
  if existsb is_nan xs then S754_nan
  else fold_left max_step xs (S754_infinity true).

(** Integer-valued Numbers, and NaN. *)
Inductive int : Type :=
| NaN
| Int (z : Z).

Definition int_eq_dec (a b : int) : {a = b} + {a <> b}.
Proof. decide equality; apply Z.eq_dec. Defined.

(** [a - b] and [a + b] on integer-valued Numbers. *)
Definition isub (a b : int) : int :=
  match a, b with
  | Int x, Int y => Int (x - y)
  | _, _ => NaN
  end.

Definition iadd (a b : int) : int :=
  match a, b with
  | Int x, Int y => Int (x + y)
  | _, _ => NaN
  end.

(** [!x] for a Number: NaN and 0 are falsy. *)
Definition falsy_int (a : int) : bool :=
  match a with
  | NaN => true
  | Int z => z =? 0
  end.

(** [!x] for any Number: NaN, +0 and -0 are falsy. *)
Definition falsy_num (x : num) : bool :=
  match x with
  | S754_nan | S754_zero _ => true
  | _ => false
  end.

(** [!s] for a string-or-undefined: undefined and the empty string are falsy. *)
Definition falsy_str (s : option string) : bool :=
  match s with
  | None => true
  | Some s => (String.length s =? 0)%nat
  end.

Definition to_num (a : int) : num :=
  match a with
  | NaN => S754_nan
  | Int z => of_Z z
  end.

(** [Number(v)] for a [dataset] entry that is absent ([undefined]) or
    holds a string whose numeric value is the integer-valued [a]. *)
Definition Number (v : option int) : int :=
  match v with
  | None => NaN
  | Some a => a
  end.

(** [n.toString()] for an integer-valued Number. *)
Definition toString (a : int) : string :=
  match a with
  | NaN => "NaN"
  | Int z => NilZero.string_of_int (Z.to_int z)
  end.

(** The filler of [padStart]: the pad string repeated and truncated to
    [n] characters; [cur] is what is left of the current repetition. *)
Fixpoint filler (pad cur : string) (n : nat) : string :=
  match n with
  | O => EmptyString
  | S n' =>
      match cur with
      | String c rest => String c (filler pad rest n')
      | EmptyString =>
          match pad with
          | String c rest => String c (filler pad rest n')
          | EmptyString => EmptyString
          end
      end
  end.

(** [s.padStart(targetLength, padString)] (ECMA-262, 22.1.3.16). *)
Definition padStart (s : string) (targetLength : nat) (padString : string) : string :=
  let len := String.length s in
  if (targetLength <=? len)%nat then s
  else
    match padString with
    | EmptyString => s
    | _ => (filler padString padString (targetLength - len) ++ s)%string
    end.

(** Exceptions the script can raise by itself. *)
Inductive exn : Type :=
| TypeError.

(** The completion of a statement list. *)
Inductive completion (A : Type) : Type :=
| Normal (a : A)
| Throw (e : exn).

Arguments Normal {A} a.
Arguments Throw {A} e.

(** [xs[i]] for an array and a Number key. *)
Definition array_get (A : Type) (xs : list A) (i : int) : option A :=
  match i with
  | NaN => None
  | Int z => if z <? 0 then None else nth_error xs (Z.to_nat z)
  end.

End Js.

Import Js.

(** ** The document *)

(** An [Image] object.  [Pending] until the browser settles the request;
    [width] and [height] read 0 unless the image is available. *)
Inductive img_state : Type :=
| Pending
| Available (naturalWidth naturalHeight : N)
| Broken.

Record image : Type := Image {
  src : string;
  status : img_state
}.

Definition width (img : image) : N :=
  match status img with
  | Available w _ => w
  | _ => 0%N
  end.

Definition height (img : image) : N :=
  match status img with
  | Available _ h => h
  | _ => 0%N
  end.

(** Calls received by a 2D context. *)
Inductive call : Type :=
| ClearRect (x y w h : num)
| DrawImage (img : image) (x y w h : num).

(** A canvas element with its 2D context: the bitmap size, the size of its
    parent box, every call the context received (oldest first), and what the
    bitmap shows: the images painted since it was last blank. *)
Record canvas : Type := Canvas {
  c_width : N;
  c_height : N;
  parent_clientWidth : N;
  parent_clientHeight : N;
  c_calls : list call;
  c_shown : list call
}.

(** Assigning [canvas.width] or [canvas.height] resets the bitmap. *)
Definition set_size (w h : N) (cv : canvas) : canvas :=
  Canvas w h (parent_clientWidth cv) (parent_clientHeight cv) (c_calls cv) [].

Definition drawable (img : image) : bool :=
  match status img with
  | Available w h => (0 <? w)%N && (0 <? h)%N
  | _ => false
  end.

Definition whole_bitmap (cv : canvas) (x y w h : num) : bool :=
  num_eqb x zero && num_eqb y zero &&
  num_eqb w (of_N (c_width cv)) && num_eqb h (of_N (c_height cv)).

(** Modelled from the spec: the 2D context's [clearRect] is the browser's
    and not part of the repository.  "clears the canvas": a call over the
    rectangle (0, 0, width, height) leaves the bitmap blank; the script makes
    no other call, and a partial clear is recorded without changing what is
    shown. *)
Definition clearRect (x y w h : num) (cv : canvas) : canvas :=
  Canvas (c_width cv) (c_height cv) (parent_clientWidth cv) (parent_clientHeight cv)
         (c_calls cv ++ [ClearRect x y w h])
         (if whole_bitmap cv x y w h then [] else c_shown cv).

(** Whether a [drawImage] call puts pixels on the bitmap. *)
Definition paints (img : image) (x y w h : num) : bool :=
  drawable img && is_finite x && is_finite y && is_finite w && is_finite h.

(** Modelled from the spec: the 2D context's [drawImage] is the browser's
    and not part of the repository.  "skip drawing if the image is not in a
    drawable state": the call never raises; it paints when the image is
    available with a non-empty size and every coordinate is finite, and does
    nothing otherwise.  (In the HTML standard the call returns at its first
    step when a coordinate is not finite, before it looks at the image;
    [not_drawable_not_finite] shows that [render] reaches the call with such
    coordinates whenever the image cannot be drawn.) *)
Definition drawImage (img : image) (x y w h : num) (cv : canvas) : canvas :=
  Canvas (c_width cv) (c_height cv) (parent_clientWidth cv) (parent_clientHeight cv)
         (c_calls cv ++ [DrawImage img x y w h])
         (if paints img x y w h then c_shown cv ++ [DrawImage img x y w h]
          else c_shown cv).

(** The object a tween animates: [{ frame: ... }]. *)
Record sequence : Type := Sequence {
  frame : int
}.

(** ** [render] *)

Definition scaleFactor (cv : canvas) (img : image) : num :=
  Math_max [div (of_N (c_width cv)) (of_N (width img));
            div (of_N (c_height cv)) (of_N (height img))].

Definition newWidth (cv : canvas) (img : image) : num :=
  mul (of_N (width img)) (scaleFactor cv img).

Definition newHeight (cv : canvas) (img : image) : num :=
  mul (of_N (height img)) (scaleFactor cv img).

Definition draw_x (cv : canvas) (img : image) : num :=
  sub (div (of_N (c_width cv)) two) (div (newWidth cv img) two).

Definition draw_y (cv : canvas) (img : image) : num :=
  sub (div (of_N (c_height cv)) two) (div (newHeight cv img) two).

(** [render(images, sequence, context, canvas)].  The image is looked up
    first, the canvas is cleared next, and the first property read of the
    image raises a TypeError when the lookup gave [undefined]. *)
Definition render (images : list image) (sq : sequence) (cv : canvas)
  : completion unit * canvas :=
  let img := array_get images (frame sq) in
  let cv1 := clearRect zero zero (of_N (c_width cv)) (of_N (c_height cv)) cv in
  match img with
  | None => (Throw TypeError, cv1)
  | Some img =>
      (Normal tt,
       drawImage img (draw_x cv img) (draw_y cv img)
                 (newWidth cv img) (newHeight cv img) cv1)
  end.

(** ** Sections and playback blocks *)

(** A [frames-play] element and its [dataset].  Numeric attributes carry
    the value [Number] gives for their string; [None] is an absent
    attribute. *)
Record block : Type := Block {
  b_start : option int;
  b_end : option int;
  b_autoplaySequence : bool;
  b_autoplayDelay : option num;
  b_startPos : option string;
  b_endPos : option string
}.

(** A [scrub-wrapper] element.  [s_canvas] is the address of its first
    descendant canvas in the page's canvas store, if it has one. *)
Record section : Type := Wrapper {
  s_prefix : option string;
  s_suffix : option string;
  s_framecount : option int;
  s_canvas : option nat;
  s_blocks : list block
}.

(** ** The animation engine *)

(** The [scrollTrigger] object of a timeline. *)
Record scrollTrigger : Type := ScrollTrigger {
  st_pin : bool;
  st_scrub : Z;
  st_start : string;
  st_end : string;
  st_markers : bool
}.

(** A tween as the script hands it to the engine.  [t_target] is the
    address of the animated [{ frame }] object; [t_from] is the value the
    tween starts from (for [gsap.to], the target's value when it was
    created); [t_loader] names the closure whose images and canvas the
    [onUpdate] callback renders. *)
Record tween : Type := Tween {
  t_loader : nat;
  t_target : nat;
  t_from : int;
  t_to : int;
  t_duration : num;
  t_ease : string;
  t_snap : string;
  t_delay : num;
  t_scrollTrigger : option scrollTrigger
}.

(** Snapping to increments of 1: [Math.round]. *)
Definition snap (q : Q) : Z := Qfloor (q + (1 # 2)).

(** Modelled from the spec: the tweening engine is a collaborator and not
    part of the repository.  "animates linearly from [start-1] to [end-1],
    snapped to integer frames": at progress [p] in [0, 1] the animated field
    holds the start value plus [p] times the distance to the end value,
    rounded to an integer; NaN end points give NaN. *)
Definition tween_value (tw : tween) (p : Q) : int :=
  match t_from tw, t_to tw with
  | Int a, Int b => Int (snap (inject_Z a + (inject_Z b - inject_Z a) * p))
  | _, _ => NaN
  end.

(** ** The page *)

Inductive timer_callback : Type :=
| LenisResize.

(** What the script asks of its environment, oldest first: image
    requests, timers, animations handed to the engine and listeners
    registered on the window.  Two entries are bookkeeping: the entry of
    [initCanvasAnimations] from a closure, which is the ready signal of its
    section, and the report of an exception that left a callback. *)
Inductive effect : Type :=
| Request (url : string)
| SetTimeout (cb : timer_callback) (ms : Z)
| Animate (tw : tween)
| AddResizeListener (loader_id : nat) (defaultSequence : nat)
| Call_initCanvasAnimations (loader_id : nat)
| Uncaught (e : exn).

(** The closure environment of one [initCanvas] call. *)
Record loader : Type := Loader {
  l_section : section;
  l_canvas : nat;
  l_prefix : string;
  l_suffix : string;
  l_device : string;
  l_frameCount : Z;
  l_images : list image;
  l_imagesLoaded : Z
}.

Record world : Type := World {
  viewportWidth : Z;
  globalImagesRemaining : Z;
  totalImagesCount : Z;
  clientWidth : Z;
  scrollY : num;
  document : list section;
  canvases : list canvas;
  loaders : list loader;
  heap : list sequence;
  log : list effect
}.

(** Replace the [n]-th element of a list; out of range leaves it as it is. *)
Fixpoint set_nth (A : Type) (n : nat) (x : A) (xs : list A) : list A :=
  match xs, n with
  | [], _ => []
  | _ :: tl, O => x :: tl
  | y :: tl, S n' => y :: set_nth n' x tl
  end.

(** Statements: state passing with completions. *)
Definition M (A : Type) : Type := world -> completion A * world.

Definition ret (A : Type) (a : A) : M A := fun w => (Normal a, w).

Definition bind (A B : Type) (m : M A) (k : A -> M B) : M B :=
  fun w =>
    match m w with
    | (Normal a, w') => k a w'
    | (Throw e, w') => (Throw e, w')
    end.

Notation "x <- m ;; k" := (bind m (fun x => k))
  (at level 61, m at next level, right associativity).
Notation "m ;;; k" := (bind m (fun _ => k))
  (at level 61, right associativity).

Definition modify (f : world -> world) : M unit := fun w => (Normal tt, f w).

Definition get (A : Type) (f : world -> A) : M A := fun w => (Normal (f w), w).

Definition throw (A : Type) (e : exn) : M A := fun w => (Throw e, w).

Definition with_log (lg : list effect) (w : world) : world :=
  World (viewportWidth w) (globalImagesRemaining w) (totalImagesCount w)
        (clientWidth w) (scrollY w) (document w) (canvases w) (loaders w)
        (heap w) lg.

Definition with_counters (remaining total : Z) (w : world) : world :=
  World (viewportWidth w) remaining total
        (clientWidth w) (scrollY w) (document w) (canvases w) (loaders w)
        (heap w) (log w).

Definition with_canvases (cs : list canvas) (w : world) : world :=
  World (viewportWidth w) (globalImagesRemaining w) (totalImagesCount w)
        (clientWidth w) (scrollY w) (document w) cs (loaders w)
        (heap w) (log w).

Definition with_loaders (ls : list loader) (w : world) : world :=
  World (viewportWidth w) (globalImagesRemaining w) (totalImagesCount w)
        (clientWidth w) (scrollY w) (document w) (canvases w) ls
        (heap w) (log w).

Definition with_heap (h : list sequence) (w : world) : world :=
  World (viewportWidth w) (globalImagesRemaining w) (totalImagesCount w)
        (clientWidth w) (scrollY w) (document w) (canvases w) (loaders w)
        h (log w).

Definition with_clientWidth (cw : Z) (w : world) : world :=
  World (viewportWidth w) (globalImagesRemaining w) (totalImagesCount w)
        cw (scrollY w) (document w) (canvases w) (loaders w)
        (heap w) (log w).

Definition with_scrollY (y : num) (w : world) : world :=
  World (viewportWidth w) (globalImagesRemaining w) (totalImagesCount w)
        (clientWidth w) y (document w) (canvases w) (loaders w)
        (heap w) (log w).

Definition emit (e : effect) : M unit :=
  modify (fun w => with_log (log w ++ [e]) w).

(** [{ frame: f }]: a fresh object, returned by address. *)
Definition new_sequence (f : int) : M nat :=
  fun w => (Normal (List.length (heap w)), with_heap (heap w ++ [Sequence f]) w).

(** [render(images, sequence, context, canvas)] from inside the closure
    [lid]: the images are the closure's array as it is at the time of the
    call, the canvas is the closure's canvas element. *)
Definition render_with (lid : nat) (sq : sequence) : M unit :=
  fun w =>
    match nth_error (loaders w) lid with
    | Some l =>
        match nth_error (canvases w) (l_canvas l) with
        | Some c =>
            let (r, c') := render (l_images l) sq c in
            (r, with_canvases (set_nth (l_canvas l) c' (canvases w)) w)
        | None => (Normal tt, w)
        end
    | None => (Normal tt, w)
    end.

(** The same for a sequence object that lives on the heap. *)
Definition render_at (lid : nat) (addr : nat) : M unit :=
  fun w =>
    match nth_error (heap w) addr with
    | Some sq => render_with lid sq w
    | None => (Normal tt, w)
    end.

(** ** The script *)

(** [updateGlobalImageCount()].  The percentage it computes is a local
    that is never read. *)
Definition updateGlobalImageCount : M unit :=
  modify (fun w => with_counters (globalImagesRemaining w - 1) (totalImagesCount w) w) ;;;
  remaining <- get globalImagesRemaining ;;
  if remaining =? 0 then emit (SetTimeout LenisResize 500) else ret tt.

(** The closure [currentFrame] of [initCanvas]. *)
Definition currentFrame (prefix device suffix : string) (index : Z) : string :=
  (prefix ++ device ++ "/" ++ padStart (toString (Int (index + 1))) 3 "0" ++ suffix)%string.

(** The body of the loop of [initCanvas], from index [i] on, for the [count]
    iterations that [i < frameCount] lets through: every image is created
    pending, with its [src] assigned. *)
Fixpoint load_frames (prefix device suffix : string) (count : nat) (i : Z) : list image :=
  match count with
  | O => []
  | S count' =>
      Image (currentFrame prefix device suffix i) Pending
        :: load_frames prefix device suffix count' (i + 1)
  end.

(** [initCanvas(section, canvas, prefix, suffix, frames, device)]. *)
Definition initCanvas (sec : section) (cv : nat) (prefix suffix : string)
           (frames : Z) (device : string) : M unit :=
  modify (fun w =>
    match nth_error (canvases w) cv with
    | Some c =>
        with_canvases
          (set_nth cv (set_size (parent_clientWidth c) (parent_clientHeight c) c)
                   (canvases w)) w
    | None => w
    end) ;;;
  let images := load_frames prefix device suffix (Z.to_nat frames) 0 in
  modify (fun w => with_log (log w ++ map (fun img => Request (src img)) images) w) ;;;
  modify (fun w =>
    with_loaders (loaders w ++ [Loader sec cv prefix suffix device frames images 0]) w).

Definition device_of (vw : Z) : string :=
  if 768 <=? vw then "desktop" else "mobile".

(** The guard of [initSections]:
    [!canvas || !prefix || !suffix || !frames]. *)
Definition skipped (sec : section) : bool :=
  match s_canvas sec with None => true | Some _ => false end
  || falsy_str (s_prefix sec) || falsy_str (s_suffix sec)
  || falsy_int (Number (s_framecount sec)).

(** The callback of [sections.forEach] in [initSections]. *)
Definition initSection (sec : section) : M unit :=
  if skipped sec then ret tt
  else
    match s_canvas sec, s_prefix sec, s_suffix sec, Number (s_framecount sec) with
    | Some cv, Some prefix, Some suffix, Int frames =>
        vw <- get viewportWidth ;;
        let device := device_of vw in
        modify (fun w => with_counters (globalImagesRemaining w + frames)
                                       (totalImagesCount w + frames) w) ;;;
        initCanvas sec cv prefix suffix frames device
    | _, _, _, _ => ret tt
    end.

Fixpoint forEach (A : Type) (f : A -> M unit) (xs : list A) : M unit :=
  match xs with
  | [] => ret tt
  | x :: tl => f x ;;; forEach f tl
  end.

(** [initSections()]. *)
Definition initSections : M unit :=
  sections <- get document ;;
  forEach initSection sections.

Definition set_frame (addr : nat) (f : int) : M unit :=
  modify (fun w => with_heap (set_nth addr (Sequence f) (heap w)) w).

Definition or_default (s : option string) (d : string) : string :=
  if falsy_str s then d else match s with Some v => v | None => d end.

(** The tweening engine is a collaborator and not part of the repository;
    modelled from its behaviour.  A tween that has no duration and no delay
    (the engine takes a duration or a delay that is not a number for none)
    is at its end as soon as it is created. *)
Definition renders_at_once (tw : tween) : bool :=
  falsy_num (t_duration tw) && falsy_num (t_delay tw).

(** [gsap.to(target, vars)]: the tween is handed to the engine.  One that
    is at its end at once is rendered inside the call: its target gets the
    end value and its [onUpdate] runs, which is [render] from the closure of
    the tween; what [render] throws leaves the call.  Any other tween is
    updated by the later ticks of the engine only. *)
Definition gsap_to (tw : tween) : M unit :=
  emit (Animate tw) ;;;
  if renders_at_once tw then
    set_frame (t_target tw) (t_to tw) ;;;
    render_at (t_loader tw) (t_target tw)
  else ret tt.

(** The callback of [blocks.forEach] in [initCanvasAnimations]. *)
Definition bind_block (lid : nat) (b : block) : M unit :=
  let start := Number (b_start b) in
  let end_ := Number (b_end b) in
  let blockFrameCount := isub end_ start in
  let duration := div (to_num blockFrameCount) (of_Z 30) in
  blockSequence <- new_sequence (Int 0) ;;
  if b_autoplaySequence b then
    let delay := match b_autoplayDelay b with Some d => d | None => zero end in
    y <- get scrollY ;;
    if leb y (of_Z 1) then
      current <- get (fun w => nth blockSequence (heap w) (Sequence NaN)) ;;
      gsap_to (Tween lid blockSequence (frame current) (isub end_ (Int 1))
                     duration "none" "frame" delay None)
    else
      set_frame blockSequence (isub end_ (Int 1)) ;;;
      render_at lid blockSequence
  else
    emit (Animate (Tween lid blockSequence (isub start (Int 1)) (isub end_ (Int 1))
                         (of_Z 1) "none" "frame" zero
                         (Some (ScrollTrigger false 1
                                  (or_default (b_startPos b) "top top")
                                  (or_default (b_endPos b) "bottom bottom")
                                  false)))).

(** [initCanvasAnimations(section, images, context, canvas)], called from
    the closure [lid]. *)
Definition initCanvasAnimations (lid : nat) (sec : section) : M unit :=
  emit (Call_initCanvasAnimations lid) ;;;
  defaultSequence <- new_sequence (Int 0) ;;
  forEach (bind_block lid) (s_blocks sec) ;;;
  render_at lid defaultSequence ;;;
  emit (AddResizeListener lid defaultSequence).

(** The [resize] listener that [initCanvasAnimations] registers. *)
Definition resize_listener (lid defaultSequence : nat) : M unit :=
  modify (fun w =>
    match nth_error (loaders w) lid with
    | Some l =>
        match nth_error (canvases w) (l_canvas l) with
        | Some c =>
            with_canvases
              (set_nth (l_canvas l)
                       (set_size (parent_clientWidth c) (parent_clientHeight c) c)
                       (canvases w)) w
        | None => w
        end
    | None => w
    end) ;;;
  render_at lid defaultSequence.

Definition with_imagesLoaded (n : Z) (l : loader) : loader :=
  Loader (l_section l) (l_canvas l) (l_prefix l) (l_suffix l) (l_device l)
         (l_frameCount l) (l_images l) n.

Definition with_images (imgs : list image) (l : loader) : loader :=
  Loader (l_section l) (l_canvas l) (l_prefix l) (l_suffix l) (l_device l)
         (l_frameCount l) imgs (l_imagesLoaded l).

(** [imagesLoaded++] in the closure [lid]. *)
Definition incr_imagesLoaded (lid : nat) : M unit :=
  modify (fun w =>
    match nth_error (loaders w) lid with
    | Some l => with_loaders (set_nth lid (with_imagesLoaded (l_imagesLoaded l + 1) l)
                                      (loaders w)) w
    | None => w
    end).

(** The tail both handlers share:
    [if (imagesLoaded === frameCount) initCanvasAnimations(...)]. *)
Definition when_all_loaded (lid : nat) : M unit :=
  l <- get (fun w => nth_error (loaders w) lid) ;;
  match l with
  | Some l =>
      if l_imagesLoaded l =? l_frameCount l
      then initCanvasAnimations lid (l_section l)
      else ret tt
  | None => ret tt
  end.

(** [img.onload] of the image of index [i] in the closure [lid]. *)
Definition onload (lid : nat) (i : nat) : M unit :=
  incr_imagesLoaded lid ;;;
  updateGlobalImageCount ;;;
  (if Nat.eqb i 0 then render_with lid (Sequence (Int 0)) else ret tt) ;;;
  when_all_loaded lid.

(** [img.onerror] of the image of index [i] in the closure [lid]. *)
Definition onerror (lid : nat) (i : nat) : M unit :=
  incr_imagesLoaded lid ;;;
  updateGlobalImageCount ;;;
  when_all_loaded lid.

(** ** The event loop *)

(** What the browser and the engine deliver to the script. *)
Inductive event : Type :=
| MediaChange
| Load (lid i : nat) (naturalWidth naturalHeight : N)
| Error (lid i : nat)
| Tick (k : nat) (p : Q)
| Resize (cw : Z)
| Scroll (y : num)
| Layout (cv : nat) (pw ph : N).

(** An exception that leaves a callback is reported and the page goes on. *)
Definition run_callback (m : M unit) (w : world) : world :=
  match m w with
  | (Normal _, w') => w'
  | (Throw e, w') => with_log (log w' ++ [Uncaught e]) w'
  end.

Definition is_pending (w : world) (lid i : nat) : bool :=
  match nth_error (loaders w) lid with
  | Some l =>
      match nth_error (l_images l) i with
      | Some img => match status img with Pending => true | _ => false end
      | None => false
      end
  | None => false
  end.

(** The browser settles the request of image [i] of the closure [lid]. *)
Definition settle (lid i : nat) (st : img_state) (w : world) : world :=
  match nth_error (loaders w) lid with
  | Some l =>
      match nth_error (l_images l) i with
      | Some img =>
          with_loaders
            (set_nth lid (with_images (set_nth i (Image (src img) st) (l_images l)) l)
                     (loaders w)) w
      | None => w
      end
  | None => w
  end.

Definition resize_listeners (lg : list effect) : list (M unit) :=
  flat_map (fun e => match e with
                     | AddResizeListener lid d => [resize_listener lid d]
                     | _ => []
                     end) lg.

Definition in_unit_interval (p : Q) : bool := Qle_bool 0 p && Qle_bool p 1.

(** One turn of the event loop.  A request settles once: a [Load] or
    [Error] for an image that is not pending is never delivered, and a tick
    carries a progress in [0, 1] for an animation the script created. *)
Definition step (w : world) (ev : event) : world :=
  match ev with
  | MediaChange => run_callback initSections w
  | Load lid i nw nh =>
      if is_pending w lid i
      then run_callback (onload lid i) (settle lid i (Available nw nh) w)
      else w
  | Error lid i =>
      if is_pending w lid i
      then run_callback (onerror lid i) (settle lid i Broken w)
      else w
  | Tick k p =>
      match nth_error (log w) k with
      | Some (Animate tw) =>
          if in_unit_interval p
          then run_callback (set_frame (t_target tw) (tween_value tw p) ;;;
                             render_at (t_loader tw) (t_target tw)) w
          else w
      | _ => w
      end
  | Resize cw =>
      fold_left (fun w' m => run_callback m w') (resize_listeners (log w))
                (with_clientWidth cw w)
  | Scroll y => with_scrollY y w
  | Layout cv pw ph =>
      match nth_error (canvases w) cv with
      | Some c =>
          with_canvases
            (set_nth cv (Canvas (c_width c) (c_height c) pw ph (c_calls c) (c_shown c))
                     (canvases w)) w
      | None => w
      end
  end.

Definition run (evs : list event) (w : world) : world := fold_left step evs w.

(** The page once the script has been evaluated: the width is captured,
    the counters are 0, and the one breakpoint registration that matches
    has run [initSections]. *)
Definition script_load (doc : list section) (cvs : list canvas) (cw : Z) (y : num) : world :=
  run_callback initSections (World cw 0 0 cw y doc cvs [] [] []).

(** * Vocabulary of the properties *)

(** ** Observations of the page

    [unchanged f m]: the statement [m] leaves the observation [f] of the
    page as it found it, whether it completes or throws. *)

Section Observing.

Variable B : Type.
Variable f : world -> B.

Definition unchanged (A : Type) (m : M A) : Prop :=
  forall w, f (snd (m w)) = f w.

Definition modify_free (g : world -> world) : Prop := forall w, f (g w) = f w.

(** Observations that do not look at the canvases, at the heap of
    sequence objects, or at some of the effects. *)
Definition canvas_free : Prop := forall cs, modify_free (with_canvases cs).
Definition heap_free : Prop := forall h, modify_free (with_heap h).
Definition ignores (e : effect) : Prop :=
  modify_free (fun w => with_log (log w ++ [e]) w).

End Observing.

(** ** Numbers and strings *)

(** A Number that is NaN or carries the sign [s]. *)
Definition sign_is (s : bool) (x : num) : Prop :=
  match x with
  | S754_nan => True
  | S754_zero s' | S754_infinity s' | S754_finite s' _ _ => s' = s
  end.

(** The zero padding the specification names: the decimal digits of [n]
    with as many zeros in front as it takes to reach [width] characters. *)
Definition zero_pad (n : Z) (width : nat) : string :=
  let digits := NilZero.string_of_int (Z.to_int n) in
  (string_of_list_ascii (repeat "0"%char (width - String.length digits)) ++ digits)%string.

(** The three decimal digits of a number below 1000. *)
Definition digit (d : Z) : ascii := ascii_of_nat (48 + Z.to_nat d).

Definition three_digits (n : Z) : string :=
  String (digit (n / 100)) (String (digit (n / 10 mod 10)) (String (digit (n mod 10)) EmptyString)).

(** ** Playback blocks and handlers *)

(** The tween an autoplay block hands to the engine. *)
Definition autoplay_tween (lid addr : nat) (b : block) : tween :=
  Tween lid addr (Int 0) (isub (Number (b_end b)) (Int 1))
        (div (to_num (isub (Number (b_end b)) (Number (b_start b)))) (of_Z 30))
        "none" "frame"
        (match b_autoplayDelay b with Some d => d | None => zero end)
        None.

(** The timeline a scroll-linked block hands to the engine. *)
Definition scroll_tween (lid addr : nat) (b : block) : tween :=
  Tween lid addr (isub (Number (b_start b)) (Int 1)) (isub (Number (b_end b)) (Int 1))
        (of_Z 1) "none" "frame" zero
        (Some (ScrollTrigger false 1 (or_default (b_startPos b) "top top")
                             (or_default (b_endPos b) "bottom bottom") false)).

(** The page after [imagesLoaded++] in the closure [lid]. *)
Definition after_incr (lid : nat) (w : world) : world :=
  match nth_error (loaders w) lid with
  | Some l => with_loaders (set_nth lid (with_imagesLoaded (l_imagesLoaded l + 1) l)
                                    (loaders w)) w
  | None => w
  end.

(** The page after [updateGlobalImageCount()]. *)
Definition after_count (w : world) : world :=
  let w1 := with_counters (globalImagesRemaining w - 1) (totalImagesCount w) w in
  if globalImagesRemaining w - 1 =? 0
  then with_log (log w1 ++ [SetTimeout LenisResize 500]) w1
  else w1.

(** What [img.onload] does after the two counters have been updated. *)
Definition onload_tail (lid i : nat) : M unit :=
  (if Nat.eqb i 0 then render_with lid (Sequence (Int 0)) else ret tt) ;;;
  when_all_loaded lid.

(** The events that run none of the image handlers and no section
    initialisation. *)
Definition is_passive (ev : event) : bool :=
  match ev with
  | Tick _ _ | Resize _ | Scroll _ | Layout _ _ _ => true
  | _ => false
  end.

(** ** Section initialisation and the device variant *)

(** The closure that [initSection] creates for a section, if it does. *)
Definition section_loader (device : string) (sec : section) : list loader :=
  if skipped sec then []
  else
    match s_canvas sec, s_prefix sec, s_suffix sec, Number (s_framecount sec) with
    | Some cv, Some prefix, Some suffix, Int frames =>
        [Loader sec cv prefix suffix device frames
                (load_frames prefix device suffix (Z.to_nat frames) 0) 0]
    | _, _, _, _ => []
    end.

Definition requests_of (ls : list loader) : list effect :=
  flat_map (fun l => map (fun img => Request (src img)) (l_images l)) ls.

Definition frames_of (ls : list loader) : Z :=
  fold_right (fun l acc => l_frameCount l + acc) 0 ls.

Definition is_request (e : effect) : bool :=
  match e with Request _ => true | _ => false end.

(** What a closure was created with: device, prefix, suffix, frame count,
    and the URLs of its images. *)
Definition loader_static (l : loader) : string * string * string * Z * list string :=
  (l_device l, l_prefix l, l_suffix l, l_frameCount l, map src (l_images l)).

(** The captured width, the closures as they were created, and the
    requests issued so far. *)
Definition obs_static (w : world)
  : Z * list (string * string * string * Z * list string) * list effect :=
  (viewportWidth w, map loader_static (loaders w), filter is_request (log w)).

(** The closures were all created for the device of the width [cw], with
    the URLs of that device, and nothing else has been requested. *)
Definition static_ok (cw : Z) (s : string * string * string * Z * list string) : Prop :=
  match s with
  | (device, prefix, suffix, frames, urls) =>
      device = device_of cw /\
      urls = map (fun k => currentFrame prefix (device_of cw) suffix (Z.of_nat k))
                 (seq 0 (Z.to_nat frames))
  end.

Definition device_fixed (cw : Z) (w : world) : Prop :=
  viewportWidth w = cw /\
  Forall (static_ok cw) (map loader_static (loaders w)) /\
  filter is_request (log w) =
    flat_map (fun s => map Request (snd s)) (map loader_static (loaders w)).

(** ** The global counters *)

Definition is_timer (e : effect) : bool :=
  match e with SetTimeout _ _ => true | _ => false end.

Definition pending_img (img : image) : nat :=
  match status img with Pending => 1 | _ => 0 end.

(** The number of requests that have not settled, and the number of
    images, over arrays of images. *)
Definition pending_in (imgss : list (list image)) : nat :=
  list_sum (map (fun imgs => list_sum (map pending_img imgs)) imgss).

Definition count_in (imgss : list (list image)) : nat :=
  list_sum (map (@List.length image) imgss).

Definition pending (w : world) : nat := pending_in (map l_images (loaders w)).
Definition image_count (w : world) : nat := count_in (map l_images (loaders w)).

(** The counters, the timers set so far, and the image arrays. *)
Definition obs_count (w : world) : Z * Z * list effect * list (list image) :=
  (globalImagesRemaining w, totalImagesCount w, filter is_timer (log w),
   map l_images (loaders w)).

Definition is_media_change (ev : event) : bool :=
  match ev with MediaChange => true | _ => false end.

(** Frame counts that are not negative. *)
Definition nonneg_counts (doc : list section) : bool :=
  forallb (fun sec => match s_framecount sec with
                      | Some (Int n) => 0 <=? n
                      | _ => true
                      end) doc.

(** The remaining counter is the number of requests that have not
    settled, the total counter is the number of images, and the resize
    timer has been set once if every request of a page with images has
    settled, and not at all otherwise. *)
Definition counted (w : world) : Prop :=
  globalImagesRemaining w = Z.of_nat (pending w) /\
  totalImagesCount w = Z.of_nat (image_count w) /\
  filter is_timer (log w) =
    if (pending w =? 0)%nat && (0 <? image_count w)%nat
    then [SetTimeout LenisResize 500] else [].

(** ** The ready signal *)

Definition is_call_of (lid : nat) (e : effect) : bool :=
  match e with
  | Call_initCanvasAnimations l => Nat.eqb l lid
  | _ => false
  end.

(** The entries of [initCanvasAnimations] from the closure [lid]. *)
Definition ready (lid : nat) (w : world) : list effect :=
  filter (is_call_of lid) (log w).

Definition settled_img (img : image) : nat :=
  match status img with Pending => 0 | _ => 1 end.

(** The number of requests of an image array that have settled, by a load
    or by an error alike. *)
Definition settled (imgs : list image) : nat := list_sum (map settled_img imgs).

Definition obs_ready (lid : nat) (w : world) : list loader * list effect :=
  (loaders w, ready lid w).

(** What the closure [lid] must satisfy, next to the entries [rd] of
    [initCanvasAnimations] logged for it: its count is the number of its
    settled requests, it has as many images as its frame count says, and it
    has signalled once if the count equals the frame count, and not at all
    otherwise. *)
Definition loader_ok (lid : nat) (l : loader) (rd : list effect) : Prop :=
  l_imagesLoaded l = Z.of_nat (settled (l_images l)) /\
  List.length (l_images l) = Z.to_nat (l_frameCount l) /\
  l_frameCount l <> 0 /\
  rd = if l_imagesLoaded l =? l_frameCount l
       then [Call_initCanvasAnimations lid] else [].

Definition ready_inv_at (lid : nat) (o : list loader * list effect) : Prop :=
  match nth_error (fst o) lid with
  | Some l => loader_ok lid l (snd o)
  | None => snd o = []
  end.

Definition ready_inv (w : world) : Prop :=
  forall lid, ready_inv_at lid (obs_ready lid w).

(** ** The balance of the counters *)

(** The number of settled requests over all closures. *)
Definition settled_total (ls : list loader) : nat :=
  list_sum (map (fun l => settled (l_images l)) ls).

(** The two counters and the closures. *)
Definition obs_balance (w : world) : Z * Z * list loader :=
  (globalImagesRemaining w, totalImagesCount w, loaders w).

(** The total counter is the sum of the frame counts of the closures, and
    the remaining counter is the total less the settled requests. *)
Definition balanced (w : world) : Prop :=
  totalImagesCount w = frames_of (loaders w) /\
  globalImagesRemaining w = frames_of (loaders w) - Z.of_nat (settled_total (loaders w)).

(** ** Repeated initialisation *)

(** The document and the captured width: what [initSections] reads. *)
Definition obs_page (w : world) : list section * Z := (document w, viewportWidth w).

(** The number of breakpoint changes among events. *)
Definition media_changes (evs : list event) : nat :=
  List.length (filter is_media_change evs).

(** The sum of the frame counts in the static parts of closures. *)
Definition static_frames (ss : list (string * string * string * Z * list string)) : Z :=
  fold_right (fun s acc => snd (fst s) + acc) 0 ss.

(** ** Relations between the page before and after a statement *)

Section Stepping.

Variable R : world -> world -> Prop.

(** [steps_in R m]: the statement [m] takes every page to a page related to
    it by [R], whether it completes or throws. *)
Definition steps_in (A : Type) (m : M A) : Prop :=
  forall w, R w (snd (m w)).

(** Relations that only look at the canvases, and that hold across a
    [render] into one of them. *)
Definition canvas_only : Prop :=
  forall w w', canvases w' = canvases w -> R w w'.

Definition across_render : Prop :=
  forall w cv c images sq,
    nth_error (canvases w) cv = Some c ->
    R w (with_canvases (set_nth cv (snd (render images sq c)) (canvases w)) w).

End Stepping.

(** ** What a canvas shows *)

(** A canvas shows nothing, or one image that the draw primitive painted. *)
Definition tidy (c : canvas) : Prop :=
  match c_shown c with
  | [] => True
  | [DrawImage img x y w h] => paints img x y w h = true
  | _ => False
  end.

Definition canvases_tidy (w : world) : Prop := Forall tidy (canvases w).

(** The size of a canvas and of its parent box. *)
Definition geometry (c : canvas) : N * N * N * N :=
  (c_width c, c_height c, parent_clientWidth c, parent_clientHeight c).

Definition same_geometry (w w' : world) : Prop :=
  map geometry (canvases w') = map geometry (canvases w).

(** A page whose canvases are tidy keeps them tidy. *)
Definition keeps_tidy (w w' : world) : Prop := canvases_tidy w -> canvases_tidy w'.

(** ** The heap of sequence objects *)

(** The addresses of the sequence objects that the entries of a log refer
    to: the target of an animation, the default sequence of a resize
    listener. *)
Definition address_of (e : effect) : list nat :=
  match e with
  | Animate tw => [t_target tw]
  | AddResizeListener _ d => [d]
  | _ => []
  end.

Definition addresses (lg : list effect) : list nat := flat_map address_of lg.

Definition default_of (e : effect) : list nat :=
  match e with
  | AddResizeListener _ d => [d]
  | _ => []
  end.

Definition defaults (lg : list effect) : list nat := flat_map default_of lg.

(** Every animation and every resize listener has a sequence object of
    its own, all of them are allocated, and the default sequences hold
    frame 0. *)
Definition heap_inv (w : world) : Prop :=
  NoDup (addresses (log w)) /\
  Forall (fun a => (a < List.length (heap w))%nat) (addresses (log w)) /\
  Forall (fun d => nth_error (heap w) d = Some (Sequence (Int 0))) (defaults (log w)).

Definition keeps_heap (w w' : world) : Prop := heap_inv w -> heap_inv w'.

(** The heap and the log. *)
Definition obs_heap_log (w : world) : list sequence * list effect := (heap w, log w).

(** What binding blocks does to the heap and to the log: new objects at the
    end of the heap, and animations of some of them, each of its own. *)
Definition bound (w w' : world) : Prop :=
  exists extra tws,
    heap w' = heap w ++ extra /\
    log w' = log w ++ map Animate tws /\
    NoDup (map t_target tws) /\
    Forall (fun tw => (List.length (heap w) <= t_target tw
                       < List.length (heap w) + List.length extra)%nat) tws.

(** ** Window resizes *)

(** What [render] leaves on a canvas of a given size: it does not depend on
    what the canvas showed before. *)
Definition frame_shown (images : list image) (sq : sequence) (w h : N) : list call :=
  c_shown (snd (render images sq (Canvas w h 0 0 [] []))).

(** The closures of the resize listeners of a log, in the order of their
    registration. *)
Definition listener_of (e : effect) : list (nat * nat) :=
  match e with
  | AddResizeListener lid d => [(lid, d)]
  | _ => []
  end.

Definition listener_ids (lg : list effect) : list (nat * nat) := flat_map listener_of lg.

Definition parent_box (c : canvas) : N * N := (parent_clientWidth c, parent_clientHeight c).

(** What the resize listener of the closure [lid] does to the canvases when
    its default sequence holds frame 0. *)
Definition resize_canvas (ls : list loader) (cs : list canvas) (lid : nat) : list canvas :=
  match nth_error ls lid with
  | Some l =>
      match nth_error cs (l_canvas l) with
      | Some c =>
          set_nth (l_canvas l)
                  (snd (render (l_images l) (Sequence (Int 0))
                               (set_size (parent_clientWidth c) (parent_clientHeight c) c)))
                  cs
      | None => cs
      end
  | None => cs
  end.

(** The canvas [cv] has the size of its parent box and shows frame 0 of a
    closure among [lids] that draws into it. *)
Definition fitted (ls : list loader) (lids : list nat) (cv : nat) (cs : list canvas) : Prop :=
  exists c,
    nth_error cs cv = Some c /\
    c_width c = parent_clientWidth c /\ c_height c = parent_clientHeight c /\
    exists lid l,
      In lid lids /\ nth_error ls lid = Some l /\ l_canvas l = cv /\
      c_shown c = frame_shown (l_images l) (Sequence (Int 0))
                              (parent_clientWidth c) (parent_clientHeight c).

(** ** The outcome of initCanvasAnimations *)

(** The frame that an autoplay block ends on. *)
Definition last_frame (b : block) : int := isub (Number (b_end b)) (Int 1).

(** The block draws its last frame inside the binding: an autoplay block
    bound while the page is scrolled, or one whose tween is at its end at
    once. *)
Definition block_draws (y : num) (b : block) : bool :=
  b_autoplaySequence b &&
  (negb (leb y (of_Z 1)) || renders_at_once (autoplay_tween 0 0 b)).

(** The block draws, inside the binding, a frame that the image array does
    not have. *)
Definition block_fails (images : list image) (y : num) (b : block) : bool :=
  block_draws y b &&
  match array_get images (last_frame b) with Some _ => false | None => true end.

(** The block hands an animation to the engine: every block but the
    autoplay blocks of a scrolled page. *)
Definition block_animates (y : num) (b : block) : bool :=
  negb (b_autoplaySequence b && negb (leb y (of_Z 1))).

(** The blocks that the loop reaches: those up to the first one that
    fails, that one included. *)
Fixpoint reached (images : list image) (y : num) (bs : list block) : list block :=
  match bs with
  | [] => []
  | b :: tl => if block_fails images y b then [b] else b :: reached images y tl
  end.

(** How many of them get an animation. *)
Definition animated (images : list image) (y : num) (bs : list block) : nat :=
  List.length (filter (block_animates y) (reached images y bs)).

Definition is_animate (e : effect) : bool :=
  match e with Animate _ => true | _ => false end.

Definition is_listener (e : effect) : bool :=
  match e with AddResizeListener _ _ => true | _ => false end.

Definition animations (lg : list effect) : nat := List.length (filter is_animate lg).

(** What binding the blocks [bs] of a closure with the images of [l] and
    the canvas [cv] makes of the page [w]. *)
Definition blocks_outcome (l : loader) (cv : canvas) (bs : list block) (w : world)
           (r : completion unit * world) : Prop :=
  let fails := existsb (block_fails (l_images l) (scrollY w)) bs in
  fst r = (if fails then Throw TypeError else Normal tt) /\
  loaders (snd r) = loaders w /\ scrollY (snd r) = scrollY w /\
  (exists extra, heap (snd r) = heap w ++ extra) /\
  filter is_listener (log (snd r)) = filter is_listener (log w) /\
  animations (log (snd r)) = (animations (log w) + animated (l_images l) (scrollY w) bs)%nat /\
  exists c',
    nth_error (canvases (snd r)) (l_canvas l) = Some c' /\
    geometry c' = geometry cv /\
    (fails = true -> c_shown c' = []).

(** ** Frame numbers in URLs *)

(** The number that a decimal numeral, zero-padded or not, stands for. *)
Definition frame_number (s : string) : Z :=
  match NilEmpty.uint_of_string s with
  | Some u => Z.of_uint u
  | None => 0
  end.

(** ** The size of the bitmaps *)

Definition bitmap_size (c : canvas) : N * N := (c_width c, c_height c).

(** The canvases have the bitmap sizes they had. *)
Definition same_size (w w' : world) : Prop :=
  map bitmap_size (canvases w') = map bitmap_size (canvases w).

(** The events that run neither [initCanvas] nor a resize listener. *)
Definition keeps_size (ev : event) : bool :=
  match ev with
  | MediaChange | Resize _ => false
  | _ => true
  end.

(** * Properties *)

(** ** Numbers *)

Lemma binary_round_aux_sign (s : bool) (m e : Z) (l : location) :
  sign_is s (binary_round_aux prec emax s m e l).
Proof.
  unfold binary_round_aux.
  destruct (shr_fexp prec emax m e l) as [mrs e'].
  destruct (shr_fexp prec emax _ e' loc_Exact) as [mrs' e''].
  destruct (shr_m mrs'); simpl; trivial.
  destruct (e'' <=? _); reflexivity.
Qed.

Lemma of_N_sign (n : N) : sign_is false (of_N n).
Proof.
  unfold of_N, of_Z, binary_normalize.
  destruct n as [|p]; simpl; [reflexivity|].
  unfold binary_round.
  destruct (shl_align _ _ _) as [mz ez].
  apply binary_round_aux_sign.
Qed.

Lemma div_sign (x y : num) :
  sign_is false x -> sign_is false y -> sign_is false (div x y).
Proof.
  unfold div, SFdiv.
  destruct x as [sx|sx| |sx mx ex], y as [sy|sy| |sy my ey];
    simpl; intros; subst; trivial.
  destruct (SFdiv_core_binary _ _ _ _ _ _) as [[mz ez] lz].
  apply binary_round_aux_sign.
Qed.

Lemma div_by_zero (x : num) :
  sign_is false x ->
  div x zero = S754_nan \/ div x zero = S754_infinity false.
Proof.
  destruct x as [sx|sx| |sx mx ex]; simpl; intros; subst; auto.
Qed.

(** With an operand at +Infinity, [Math.max] of two Numbers that are not
    negative is NaN or +Infinity. *)
Lemma Math_max_infinite (a b : num) :
  sign_is false a -> sign_is false b ->
  (a = S754_nan \/ a = S754_infinity false) \/
  (b = S754_nan \/ b = S754_infinity false) ->
  Math_max [a; b] = S754_nan \/ Math_max [a; b] = S754_infinity false.
Proof.
  intros Ha Hb H.
  destruct a as [sa|sa| |sa ma ea], b as [sb|sb| |sb mb eb];
    simpl in Ha, Hb; subst;
    try (left; reflexivity); try (right; reflexivity);
    destruct H as [[H|H]|[H|H]]; discriminate.
Qed.

Lemma mul_not_finite (x r : num) :
  r = S754_nan \/ r = S754_infinity false -> is_finite (mul x r) = false.
Proof. intros [->| ->]; destruct x; reflexivity. Qed.

Lemma num_eqb_refl (x : num) : num_eqb x x = true.
Proof. unfold num_eqb. destruct (num_eq_dec x x); congruence. Qed.

(** ** [render] *)

Section Render.

Variable cv : canvas.

Lemma whole_bitmap_own_size :
  whole_bitmap cv zero zero (of_N (c_width cv)) (of_N (c_height cv)) = true.
Proof. unfold whole_bitmap. now rewrite !num_eqb_refl. Qed.

(** An image that cannot be drawn gives a scale factor that is NaN or
    +Infinity. *)
Lemma scaleFactor_degenerate (img : image) :
  drawable img = false ->
  scaleFactor cv img = S754_nan \/ scaleFactor cv img = S754_infinity false.
Proof.
  intros Hd. unfold scaleFactor.
  apply Math_max_infinite; try (apply div_sign; apply of_N_sign).
  assert (Hz : width img = 0%N \/ height img = 0%N).
  { unfold drawable, width, height in *. destruct (status img) as [|w h|]; auto.
    apply andb_false_iff in Hd.
    destruct Hd as [Hd|Hd]; apply N.ltb_ge in Hd; [left|right]; lia. }
  destruct Hz as [Hz|Hz]; rewrite Hz; change (of_N 0) with zero; [left|right];
    apply div_by_zero, of_N_sign.
Qed.

Lemma not_drawable_not_finite (img : image) :
  drawable img = false ->
  is_finite (newWidth cv img) = false /\ is_finite (newHeight cv img) = false.
Proof.
  intros Hd. pose proof (scaleFactor_degenerate img Hd) as Hs.
  split; apply mul_not_finite; exact Hs.
Qed.

Lemma not_loaded_nan (img : image) :
  width img = 0%N -> height img = 0%N ->
  newWidth cv img = S754_nan /\ newHeight cv img = S754_nan.
Proof.
  intros Hw Hh.
  assert (Hd : drawable img = false).
  { unfold drawable, width, height in *.
    destruct (status img); try reflexivity. subst. reflexivity. }
  unfold newWidth, newHeight. rewrite Hw, Hh.
  destruct (scaleFactor_degenerate img Hd) as [-> | ->]; split; reflexivity.
Qed.

End Render.

Lemma render_missing (images : list image) (sq : sequence) (cv : canvas) :
  array_get images (frame sq) = None ->
  render images sq cv =
  (Throw TypeError,
   Canvas (c_width cv) (c_height cv) (parent_clientWidth cv) (parent_clientHeight cv)
          (c_calls cv ++ [ClearRect zero zero (of_N (c_width cv)) (of_N (c_height cv))])
          []).
Proof.
  intros H. unfold render. rewrite H. unfold clearRect.
  now rewrite whole_bitmap_own_size.
Qed.

Lemma render_found (images : list image) (sq : sequence) (cv : canvas) (img : image) :
  array_get images (frame sq) = Some img ->
  render images sq cv =
  (Normal tt,
   Canvas (c_width cv) (c_height cv) (parent_clientWidth cv) (parent_clientHeight cv)
          (c_calls cv ++
           [ClearRect zero zero (of_N (c_width cv)) (of_N (c_height cv));
            DrawImage img (draw_x cv img) (draw_y cv img) (newWidth cv img) (newHeight cv img)])
          (if paints img (draw_x cv img) (draw_y cv img) (newWidth cv img) (newHeight cv img)
           then [DrawImage img (draw_x cv img) (draw_y cv img)
                           (newWidth cv img) (newHeight cv img)]
           else [])).
Proof.
  intros H. unfold render. rewrite H. unfold drawImage, clearRect. simpl.
  rewrite whole_bitmap_own_size, <- app_assoc. reflexivity.
Qed.

Lemma not_drawable_not_painted (cv : canvas) (img : image) (x y w h : num) :
  drawable img = false -> paints img x y w h = false.
Proof. intros H. unfold paints. now rewrite H. Qed.

(** C7: an image of positive width [w] and height [h], drawn into a canvas
    of width [W] and height [H]: [render] clears the canvas and then draws
    the image at the scale factor [s = max(W/w, H/h)], with the size
    [(w*s, h*s)] and the top-left corner [(W/2 - w*s/2, H/2 - h*s/2)]; the
    image is what the canvas then shows whenever these four Numbers are
    finite. *)
Theorem render_cover_fit
  (images : list image) (sq : sequence) (cv : canvas) (img : image) (w h : N) :
  array_get images (frame sq) = Some img ->
  status img = Available w h ->
  (0 < w)%N -> (0 < h)%N ->
  let W := of_N (c_width cv) in
  let H := of_N (c_height cv) in
  let s := Math_max [div W (of_N w); div H (of_N h)] in
  let nw := mul (of_N w) s in
  let nh := mul (of_N h) s in
  let x := sub (div W two) (div nw two) in
  let y := sub (div H two) (div nh two) in
  fst (render images sq cv) = Normal tt /\
  c_calls (snd (render images sq cv)) =
    c_calls cv ++ [ClearRect zero zero W H; DrawImage img x y nw nh] /\
  c_shown (snd (render images sq cv)) =
    (if is_finite x && is_finite y && is_finite nw && is_finite nh
     then [DrawImage img x y nw nh] else []).
Proof.
  intros Hget Hst Hw Hh W H s nw nh x y.
  rewrite (render_found _ _ _ Hget). simpl.
  assert (Hwd : width img = w) by (unfold width; now rewrite Hst).
  assert (Hht : height img = h) by (unfold height; now rewrite Hst).
  assert (Hd : drawable img = true).
  { unfold drawable. rewrite Hst.
    apply andb_true_iff; split; apply N.ltb_lt; assumption. }
  unfold paints, draw_x, draw_y, newWidth, newHeight, scaleFactor.
  rewrite Hd, Hwd, Hht. simpl. repeat split; reflexivity.
Qed.

(** The example of the specification: a canvas of 800 by 600 and an image of
    400 by 300 give the scale factor 2, the drawn size 800 by 600 and the
    offset (0, 0). *)
Lemma render_cover_fit_800_600 :
  let img := Image "/img/desktop/001.jpg" (Available 400 300) in
  let cv := Canvas 800 600 800 600 [] [] in
  ((0 < 400)%N /\ (0 < 300)%N) /\
  scaleFactor cv img = of_Z 2 /\
  fst (render [img] (Sequence (Int 0)) cv) = Normal tt /\
  c_calls (snd (render [img] (Sequence (Int 0)) cv)) =
    [ClearRect zero zero (of_Z 800) (of_Z 600);
     DrawImage img zero zero (of_Z 800) (of_Z 600)] /\
  c_shown (snd (render [img] (Sequence (Int 0)) cv)) =
    [DrawImage img zero zero (of_Z 800) (of_Z 600)].
Proof.
  intros img cv.
  split; [split; reflexivity|].
  split; [reflexivity|].
  exact (render_cover_fit [img] (Sequence (Int 0)) cv (w:=400) (h:=300)
           eq_refl eq_refl eq_refl eq_refl).
Defined.

(** C2, as stated, fails: with one image in the array, a frame index of 1
    lies outside it and [render] throws a TypeError. *)
Lemma render_throws_outside_array :
  fst (render [Image "/img/desktop/001.jpg" (Available 400 300)]
              (Sequence (Int 1)) (Canvas 800 600 800 600 [] []))
  = Throw TypeError.
Proof. reflexivity. Qed.

(** C2, amended: [render] does not throw when the frame index lies inside
    the image array, whatever the state of the image.  For an image that
    cannot be drawn (failed, still loading, or of an empty size) the width
    and height handed to the draw primitive are not finite, the draw is
    skipped and the canvas is left cleared.  When the index lies outside
    the array, [render] throws a TypeError. *)
Theorem render_throws_only_outside_array
  (images : list image) (sq : sequence) (cv : canvas) :
  match array_get images (frame sq) with
  | Some img =>
      fst (render images sq cv) = Normal tt /\
      (drawable img = false ->
       is_finite (newWidth cv img) = false /\
       is_finite (newHeight cv img) = false /\
       c_shown (snd (render images sq cv)) = [])
  | None => fst (render images sq cv) = Throw TypeError
  end.
Proof.
  destruct (array_get images (frame sq)) as [img|] eqn:Hget.
  - rewrite (render_found _ _ _ Hget). simpl. split; [reflexivity|].
    intros Hd. destruct (not_drawable_not_finite cv img Hd) as [Hw Hh].
    repeat split; try assumption.
    now rewrite (not_drawable_not_painted cv).
  - now rewrite (render_missing _ _ _ Hget).
Qed.

Lemma render_throws_only_outside_array_witness :
  let img := Image "/img/desktop/002.jpg" Broken in
  let cv := Canvas 800 600 800 600 [] [DrawImage img zero zero zero zero] in
  drawable img = false /\
  is_finite (newWidth cv img) = false /\
  is_finite (newHeight cv img) = false /\
  c_shown (snd (render [img] (Sequence (Int 0)) cv)) = [].
Proof.
  intros img cv. split; [reflexivity|].
  exact (proj2 (render_throws_only_outside_array [img] (Sequence (Int 0)) cv) eq_refl).
Defined.

(** C10: every call to [render] clears the whole canvas rectangle before
    it attempts anything else: the first call the context receives is
    [clearRect(0, 0, width, height)], and only a [drawImage] can follow.  A
    frame that cannot be drawn, because the index has no image or because
    the image failed or has not loaded, leaves the canvas blank: what it
    showed before is gone. *)
Theorem render_clears_first (images : list image) (sq : sequence) (cv : canvas) :
  (exists rest,
     c_calls (snd (render images sq cv)) =
       c_calls cv ++
       ClearRect zero zero (of_N (c_width cv)) (of_N (c_height cv)) :: rest /\
     forall c, In c rest -> exists img x y w h, c = DrawImage img x y w h) /\
  ((forall img, array_get images (frame sq) = Some img -> drawable img = false) ->
   c_shown (snd (render images sq cv)) = []).
Proof.
  destruct (array_get images (frame sq)) as [img|] eqn:Hget.
  - rewrite (render_found _ _ _ Hget). simpl. split.
    + eexists. split; [reflexivity|].
      intros c [<-|[]]. repeat eexists.
    + intros Hd. now rewrite (not_drawable_not_painted cv _ _ _ _ _ (Hd img eq_refl)).
  - rewrite (render_missing _ _ _ Hget). simpl. split.
    + exists []. split; [reflexivity|]. intros c [].
    + reflexivity.
Qed.

Lemma render_clears_first_witness :
  let old := Image "/img/desktop/001.jpg" (Available 400 300) in
  let cv := Canvas 800 600 800 600 [] [DrawImage old zero zero (of_Z 800) (of_Z 600)] in
  let images := [old; Image "/img/desktop/002.jpg" Broken] in
  (forall img, array_get images (Int 1) = Some img -> drawable img = false) /\
  c_shown (snd (render images (Sequence (Int 1)) cv)) = [].
Proof.
  intros old cv images.
  assert (H : forall img, array_get images (Int 1) = Some img -> drawable img = false).
  { intros img Hi. injection Hi as <-. reflexivity. }
  split; [exact H|].
  exact (proj2 (render_clears_first images (Sequence (Int 1)) cv) H).
Defined.

(** ** Frame URLs *)

Lemma filler_zeros (cur : string) (n : nat) :
  (forall k, (k < String.length cur)%nat -> String.get k cur = Some "0"%char) ->
  filler "0" cur n = string_of_list_ascii (repeat "0"%char n).
Proof.
  revert cur. induction n as [|n IH]; intros cur Hcur; simpl; [reflexivity|].
  destruct cur as [|c rest].
  - f_equal. apply IH. simpl. intros k Hk. lia.
  - assert (Hc : c = "0"%char).
    { specialize (Hcur 0%nat). simpl in Hcur.
      assert (Some c = Some "0"%char) by (apply Hcur; lia). congruence. }
    subst c. f_equal. apply IH. intros k Hk.
    apply (Hcur (S k)). simpl. lia.
Qed.

Lemma padStart_zero_pad (n : Z) (width : nat) :
  padStart (toString (Int n)) width "0" = zero_pad n width.
Proof.
  unfold padStart, zero_pad, toString.
  set (digits := NilZero.string_of_int (Z.to_int n)).
  destruct (width <=? String.length digits)%nat eqn:Hle.
  - apply Nat.leb_le in Hle.
    replace (width - String.length digits)%nat with 0%nat by lia. reflexivity.
  - rewrite filler_zeros; [reflexivity|].
    intros [|k] Hk; simpl in *; [reflexivity | lia].
Qed.

Lemma zero_pad_three_digits_below (bound : nat) :
  forallb (fun k => String.eqb (zero_pad (Z.of_nat k) 3) (three_digits (Z.of_nat k)))
          (seq 0 bound) = true ->
  forall n, 0 <= n < Z.of_nat bound -> zero_pad n 3 = three_digits n.
Proof.
  intros Hall n Hn.
  rewrite forallb_forall in Hall.
  specialize (Hall (Z.to_nat n)).
  rewrite Z2Nat.id in Hall by lia.
  apply String.eqb_eq, Hall, in_seq. lia.
Qed.

(** Below 1000 the padded number is its three decimal digits. *)
Lemma zero_pad_three_digits (n : Z) :
  0 <= n < 1000 -> zero_pad n 3 = three_digits n.
Proof.
  intros Hn. apply (@zero_pad_three_digits_below 1000); [vm_compute; reflexivity | lia].
Qed.

Lemma load_frames_map (prefix device suffix : string) (count : nat) (i : Z) :
  load_frames prefix device suffix count i =
  map (fun k => Image (currentFrame prefix device suffix (i + Z.of_nat k)) Pending)
      (seq 0 count).
Proof.
  revert i. induction count as [|count IH]; intros i; [reflexivity|].
  cbn [load_frames seq map]. rewrite IH, <- seq_shift, map_map.
  f_equal; [now rewrite Z.add_0_r|].
  apply map_ext. intros k. do 2 f_equal. lia.
Qed.

Lemma currentFrame_zero_pad (prefix device suffix : string) (i : Z) :
  currentFrame prefix device suffix i =
  (prefix ++ device ++ "/" ++ zero_pad (i + 1) 3 ++ suffix)%string.
Proof. unfold currentFrame. now rewrite padStart_zero_pad. Qed.

(** ** [initSections] *)

(** What [initCanvas] leaves behind. *)
Lemma initCanvas_effect (sec : section) (cv : nat) (prefix suffix : string)
      (frames : Z) (device : string) (w : world) :
  let images := load_frames prefix device suffix (Z.to_nat frames) 0 in
  let w' := snd (initCanvas sec cv prefix suffix frames device w) in
  fst (initCanvas sec cv prefix suffix frames device w) = Normal tt /\
  viewportWidth w' = viewportWidth w /\
  globalImagesRemaining w' = globalImagesRemaining w /\
  totalImagesCount w' = totalImagesCount w /\
  heap w' = heap w /\
  document w' = document w /\
  log w' = log w ++ map (fun img => Request (src img)) images /\
  loaders w' = loaders w ++ [Loader sec cv prefix suffix device frames images 0].
Proof.
  unfold initCanvas, bind, modify. cbn.
  destruct (nth_error (canvases w) cv); cbn; repeat split; reflexivity.
Qed.

(** A section that passes the guard has all four of its parts. *)
Lemma not_skipped_parts (sec : section) :
  skipped sec = false ->
  exists cv prefix suffix frames,
    s_canvas sec = Some cv /\ s_prefix sec = Some prefix /\
    s_suffix sec = Some suffix /\ s_framecount sec = Some (Int frames) /\
    frames <> 0.
Proof.
  unfold skipped. intros H.
  repeat (apply orb_false_iff in H; destruct H as [H ?]).
  destruct (s_canvas sec) as [cv|]; [|discriminate].
  destruct (s_prefix sec) as [p|]; [|discriminate].
  destruct (s_suffix sec) as [s|]; [|discriminate].
  destruct (s_framecount sec) as [[|n]|]; try discriminate.
  exists cv, p, s, n. repeat split. simpl in *. apply Z.eqb_neq. assumption.
Qed.

Lemma initSection_skipped (sec : section) (w : world) :
  skipped sec = true -> initSection sec w = (Normal tt, w).
Proof. intros H. unfold initSection. now rewrite H. Qed.

Lemma initSection_not_skipped (sec : section) (w : world)
      (cv : nat) (prefix suffix : string) (frames : Z) :
  skipped sec = false ->
  s_canvas sec = Some cv -> s_prefix sec = Some prefix ->
  s_suffix sec = Some suffix -> s_framecount sec = Some (Int frames) ->
  initSection sec w =
  initCanvas sec cv prefix suffix frames (device_of (viewportWidth w))
             (with_counters (globalImagesRemaining w + frames)
                            (totalImagesCount w + frames) w).
Proof.
  intros Hs Hc Hp Hx Hf. unfold initSection.
  rewrite Hs, Hc, Hp, Hx, Hf. reflexivity.
Qed.

(** C1: a section with prefix [P], suffix [S] and frame count [N], on a page
    whose device variant is [D]: the requests the loader issues are exactly
    the URLs [P + D + "/" + zero-pad(k+1, 3) + S] for [k = 0 .. N-1], in this
    order, so that the request of every frame index [i] with [0 <= i < N] is
    [P + D + "/" + zero-pad(i+1, 3) + S]. *)
Theorem frame_request_urls
  (sec : section) (w : world) (P S : string) (N i : Z) :
  skipped sec = false ->
  s_prefix sec = Some P -> s_suffix sec = Some S ->
  s_framecount sec = Some (Int N) ->
  0 <= i < N ->
  let D := device_of (viewportWidth w) in
  let url := fun k : Z => (P ++ D ++ "/" ++ zero_pad (k + 1) 3 ++ S)%string in
  let w' := snd (initSection sec w) in
  log w' = log w ++ map (fun k => Request (url (Z.of_nat k))) (seq 0 (Z.to_nat N)) /\
  nth_error (log w') (List.length (log w) + Z.to_nat i) = Some (Request (url i)).
Proof.
  intros Hs Hp Hx Hf Hi D url w'.
  destruct (not_skipped_parts sec Hs) as (cv & p & s & n & Hc & Hp' & Hx' & Hf' & _).
  assert (Hlog : log w' =
                 log w ++ map (fun k => Request (url (Z.of_nat k))) (seq 0 (Z.to_nat N))).
  { subst w'. rewrite (initSection_not_skipped sec w Hs Hc Hp Hx Hf).
    destruct (initCanvas_effect sec cv P S N D
                (with_counters (globalImagesRemaining w + N) (totalImagesCount w + N) w))
      as (_ & _ & _ & _ & _ & _ & Hl & _).
    fold D. rewrite Hl. cbn [log with_counters]. f_equal.
    rewrite load_frames_map, map_map. apply map_ext. intros k.
    cbn [src]. now rewrite currentFrame_zero_pad. }
  split; [exact Hlog|].
  rewrite Hlog, nth_error_app2 by lia.
  replace (List.length (log w) + Z.to_nat i - List.length (log w))%nat
    with (Z.to_nat i) by lia.
  rewrite nth_error_map, nth_error_nth' with (d := 0%nat) by (rewrite length_seq; lia).
  rewrite seq_nth by lia. cbn. now rewrite Z2Nat.id by lia.
Qed.

(** The examples of the specification: prefix "/img/", device "desktop",
    suffix ".jpg"; index 0 gives "/img/desktop/001.jpg" and index 99 gives
    "/img/desktop/100.jpg". *)
Lemma frame_request_urls_examples :
  let sec := Wrapper (Some "/img/"%string) (Some ".jpg"%string) (Some (Int 100)) (Some 0%nat) [] in
  let w := World 1024 0 0 1024 zero [sec] [Canvas 0 0 800 600 [] []] [] [] [] in
  (0 <= 0 < 100 /\ 0 <= 99 < 100) /\
  nth_error (log (snd (initSection sec w))) 0 = Some (Request "/img/desktop/001.jpg") /\
  nth_error (log (snd (initSection sec w))) 99 = Some (Request "/img/desktop/100.jpg").
Proof.
  intros sec w. split; [lia|]. split.
  - apply (proj2 (frame_request_urls sec w (i:=0) eq_refl eq_refl eq_refl eq_refl
                    ltac:(lia))).
  - apply (proj2 (frame_request_urls sec w (i:=99) eq_refl eq_refl eq_refl eq_refl
                    ltac:(lia))).
Defined.

Lemma forEach_app (A : Type) (f : A -> M unit) (xs ys : list A) (w : world) :
  forEach f (xs ++ ys) w = (forEach f xs ;;; forEach f ys) w.
Proof.
  revert w. induction xs as [|x xs IH]; intros w; simpl.
  - reflexivity.
  - unfold bind in *. destruct (f x w) as [[[]|e] w1]; [|reflexivity].
    apply IH.
Qed.

(** C8: a section element whose prefix, suffix or frame count attribute is
    missing, or that has no descendant canvas, is skipped silently: its
    callback returns with the page exactly as it was (nothing is requested,
    the two counters keep their values, nothing is reported), and the page
    is initialised as if the element were not in the document. *)
Theorem incomplete_section_is_skipped (sec : section) :
  s_prefix sec = None \/ s_suffix sec = None \/
  s_framecount sec = None \/ s_canvas sec = None ->
  (forall w, initSection sec w = (Normal tt, w)) /\
  (forall before after w,
     forEach initSection (before ++ sec :: after) w =
     forEach initSection (before ++ after) w).
Proof.
  intros H.
  assert (Hs : skipped sec = true).
  { unfold skipped.
    destruct H as [H|[H|[H|H]]]; rewrite H; simpl;
      rewrite ?orb_true_r; reflexivity. }
  split.
  - intros w. now apply initSection_skipped.
  - intros before after w. rewrite !forEach_app. unfold bind.
    destruct (forEach initSection before w) as [[[]|e] w1]; [|reflexivity].
    simpl. unfold bind. now rewrite initSection_skipped.
Qed.

Lemma incomplete_section_is_skipped_witness :
  let sec := Wrapper (Some "/img/"%string) None (Some (Int 6)) (Some 0%nat) [] in
  let ok := Wrapper (Some "/img/"%string) (Some ".jpg"%string) (Some (Int 4)) (Some 0%nat) [] in
  let w := World 1024 0 0 1024 zero [sec; ok] [Canvas 0 0 800 600 [] []] [] [] [] in
  initSection sec w = (Normal tt, w) /\
  forEach initSection ([] ++ sec :: [ok]) w = forEach initSection ([] ++ [ok]) w.
Proof.
  intros sec ok w.
  destruct (incomplete_section_is_skipped sec (or_intror (or_introl eq_refl)))
    as [H1 H2].
  split; [apply H1 | apply H2].
Defined.

(** ** Frame rules *)

Section Unchanged.

Variable B : Type.
Variable f : world -> B.

Lemma unchanged_ret (A : Type) (a : A) : unchanged f (ret a).
Proof. intros w. reflexivity. Qed.

Lemma unchanged_get (A : Type) (g : world -> A) : unchanged f (get g).
Proof. intros w. reflexivity. Qed.

Lemma unchanged_modify (g : world -> world) :
  modify_free f g -> unchanged f (modify g).
Proof. intros H w. apply H. Qed.

Lemma unchanged_bind (A C : Type) (m : M A) (k : A -> M C) :
  unchanged f m -> (forall a, unchanged f (k a)) -> unchanged f (bind m k).
Proof.
  intros Hm Hk w. unfold bind. specialize (Hm w).
  destruct (m w) as [[a|e] w1]; simpl in *.
  - now rewrite Hk.
  - assumption.
Qed.

Lemma unchanged_forEach (A : Type) (g : A -> M unit) (xs : list A) :
  (forall x, unchanged f (g x)) -> unchanged f (forEach g xs).
Proof.
  intros H. induction xs as [|x xs IH]; simpl.
  - apply unchanged_ret.
  - apply unchanged_bind; auto.
Qed.

Lemma unchanged_if (A : Type) (b : bool) (m1 m2 : M A) :
  unchanged f m1 -> unchanged f m2 -> unchanged f (if b then m1 else m2).
Proof. destruct b; auto. Qed.

Hypothesis Hcanvas : canvas_free f.
Hypothesis Hheap : heap_free f.

Lemma unchanged_emit (e : effect) : ignores f e -> unchanged f (emit e).
Proof. intros H. apply unchanged_modify, H. Qed.

Lemma unchanged_render_with (lid : nat) (sq : sequence) :
  unchanged f (render_with lid sq).
Proof.
  intros w. unfold render_with.
  destruct (nth_error (loaders w) lid) as [l|]; [|reflexivity].
  destruct (nth_error (canvases w) (l_canvas l)) as [c|]; [|reflexivity].
  destruct (render (l_images l) sq c). apply Hcanvas.
Qed.

Lemma unchanged_render_at (lid addr : nat) : unchanged f (render_at lid addr).
Proof.
  intros w. unfold render_at.
  destruct (nth_error (heap w) addr); [apply unchanged_render_with | reflexivity].
Qed.

Lemma unchanged_new_sequence (v : int) : unchanged f (new_sequence v).
Proof. intros w. apply Hheap. Qed.

Lemma unchanged_set_frame (addr : nat) (v : int) : unchanged f (set_frame addr v).
Proof. apply unchanged_modify. intros w. apply Hheap. Qed.

Lemma unchanged_resize_listener (lid d : nat) : unchanged f (resize_listener lid d).
Proof.
  apply unchanged_bind; [|intros; apply unchanged_render_at].
  apply unchanged_modify. intros w.
  destruct (nth_error (loaders w) lid) as [l|]; [|reflexivity].
  destruct (nth_error (canvases w) (l_canvas l)); [apply Hcanvas | reflexivity].
Qed.

Hypothesis Hanimate : forall tw, ignores f (Animate tw).

Lemma unchanged_gsap_to (tw : tween) : unchanged f (gsap_to tw).
Proof.
  unfold gsap_to.
  apply unchanged_bind; [apply unchanged_emit, Hanimate|]. intros _.
  apply unchanged_if; [|apply unchanged_ret].
  apply unchanged_bind; [apply unchanged_set_frame|]. intros _.
  apply unchanged_render_at.
Qed.

Lemma unchanged_bind_block (lid : nat) (b : block) : unchanged f (bind_block lid b).
Proof.
  unfold bind_block.
  apply unchanged_bind; [apply unchanged_new_sequence|]. intros addr.
  apply unchanged_if.
  - apply unchanged_bind; [apply unchanged_get|]. intros y.
    apply unchanged_if.
    + apply unchanged_bind; [apply unchanged_get|]. intros cur.
      apply unchanged_gsap_to.
    + apply unchanged_bind; [apply unchanged_set_frame|]. intros _.
      apply unchanged_render_at.
  - apply unchanged_emit, Hanimate.
Qed.

Hypothesis Hlistener : forall lid d, ignores f (AddResizeListener lid d).

(** What [initCanvasAnimations] does after it has been entered. *)
Lemma unchanged_bindings (lid : nat) (sec : section) :
  unchanged f (defaultSequence <- new_sequence (Int 0) ;;
             forEach (bind_block lid) (s_blocks sec) ;;;
             render_at lid defaultSequence ;;;
             emit (AddResizeListener lid defaultSequence)).
Proof.
  apply unchanged_bind; [apply unchanged_new_sequence|]. intros d.
  apply unchanged_bind;
    [apply unchanged_forEach; intros; apply unchanged_bind_block|]. intros _.
  apply unchanged_bind; [apply unchanged_render_at|]. intros _.
  apply unchanged_emit, Hlistener.
Qed.

End Unchanged.

(** ** Playback blocks *)

Lemma set_nth_last (A : Type) (xs : list A) (x y : A) :
  set_nth (List.length xs) y (xs ++ [x]) = xs ++ [y].
Proof. induction xs as [|a xs IH]; simpl; [reflexivity | now rewrite IH]. Qed.

Lemma nth_error_last (A : Type) (xs : list A) (x : A) :
  nth_error (xs ++ [x]) (List.length xs) = Some x.
Proof. rewrite nth_error_app2, Nat.sub_diag by lia. reflexivity. Qed.

Lemma bind_block_autoplay_gsap (lid : nat) (b : block) (w : world) :
  b_autoplaySequence b = true -> leb (scrollY w) (of_Z 1) = true ->
  bind_block lid b w =
  gsap_to (autoplay_tween lid (List.length (heap w)) b)
          (with_heap (heap w ++ [Sequence (Int 0)]) w).
Proof.
  intros Ha Hy. unfold bind_block, bind, new_sequence, get.
  rewrite Ha. cbn [scrollY with_heap]. rewrite Hy. cbn [heap with_heap].
  rewrite app_nth2, Nat.sub_diag by lia. reflexivity.
Qed.

(** A tween that waits for the engine: nothing but the hand-over. *)
Lemma bind_block_autoplay_top (lid : nat) (b : block) (w : world) :
  b_autoplaySequence b = true -> leb (scrollY w) (of_Z 1) = true ->
  renders_at_once (autoplay_tween lid (List.length (heap w)) b) = false ->
  bind_block lid b w =
  (Normal tt,
   with_log (log w ++ [Animate (autoplay_tween lid (List.length (heap w)) b)])
            (with_heap (heap w ++ [Sequence (Int 0)]) w)).
Proof.
  intros Ha Hy Hnow. rewrite (bind_block_autoplay_gsap lid b w Ha Hy).
  unfold gsap_to, bind, emit, modify, ret. rewrite Hnow. reflexivity.
Qed.

(** A tween that is at its end at once: the hand-over, then the last frame
    is rendered inside the call. *)
Lemma bind_block_autoplay_now (lid : nat) (b : block) (w : world) :
  b_autoplaySequence b = true -> leb (scrollY w) (of_Z 1) = true ->
  renders_at_once (autoplay_tween lid (List.length (heap w)) b) = true ->
  bind_block lid b w =
  render_with lid (Sequence (isub (Number (b_end b)) (Int 1)))
    (with_log (log w ++ [Animate (autoplay_tween lid (List.length (heap w)) b)])
              (with_heap (heap w ++ [Sequence (isub (Number (b_end b)) (Int 1))]) w)).
Proof.
  intros Ha Hy Hnow. rewrite (bind_block_autoplay_gsap lid b w Ha Hy).
  unfold gsap_to, bind, emit, set_frame, modify. rewrite Hnow.
  cbn [t_target t_to t_loader autoplay_tween heap with_heap with_log].
  unfold render_at. cbn [heap with_heap with_log].
  rewrite set_nth_last, nth_error_last. reflexivity.
Qed.

Lemma bind_block_autoplay_scrolled (lid : nat) (b : block) (w : world) :
  b_autoplaySequence b = true -> leb (scrollY w) (of_Z 1) = false ->
  bind_block lid b w =
  render_with lid (Sequence (isub (Number (b_end b)) (Int 1)))
    (with_heap (heap w ++ [Sequence (isub (Number (b_end b)) (Int 1))]) w).
Proof.
  intros Ha Hy. unfold bind_block, bind, new_sequence, get, set_frame, modify.
  rewrite Ha. cbn [scrollY with_heap]. rewrite Hy. cbn [heap with_heap].
  unfold render_at. cbn [heap with_heap]. rewrite set_nth_last, nth_error_last.
  reflexivity.
Qed.

Lemma bind_block_scroll (lid : nat) (b : block) (w : world) :
  b_autoplaySequence b = false ->
  bind_block lid b w =
  (Normal tt,
   with_log (log w ++ [Animate (scroll_tween lid (List.length (heap w)) b)])
            (with_heap (heap w ++ [Sequence (Int 0)]) w)).
Proof.
  intros Ha. unfold bind_block, bind, new_sequence, emit, modify.
  rewrite Ha. reflexivity.
Qed.






(** Snapping keeps a value between two integers between them. *)
Lemma snap_between (lo hi : Z) (x : Q) :
  (inject_Z lo <= x)%Q -> (x <= inject_Z hi)%Q -> lo <= snap x <= hi.
Proof.
  intros Hlo Hhi. unfold snap. split.
  - rewrite <- (Qfloor_Z lo). apply Qfloor_resp_le.
    eapply Qle_trans; [exact Hlo|].
    rewrite <- (Qplus_0_r x) at 1. apply Qplus_le_r. discriminate.
  - apply Z.lt_succ_r. rewrite <- Z.add_1_r. rewrite Zlt_Qlt.
    eapply Qle_lt_trans; [apply Qfloor_le|].
    rewrite inject_Z_plus.
    eapply Qle_lt_trans; [apply Qplus_le_l; exact Hhi|].
    apply Qplus_lt_r. reflexivity.
Qed.

(** A point on the segment from [a] to [b] lies between its ends. *)
Lemma segment_between (a b lo hi : Z) (p : Q) :
  lo <= a <= hi -> lo <= b <= hi -> (0 <= p)%Q -> (p <= 1)%Q ->
  (inject_Z lo <= inject_Z a + (inject_Z b - inject_Z a) * p)%Q /\
  (inject_Z a + (inject_Z b - inject_Z a) * p <= inject_Z hi)%Q.
Proof.
  intros [Ha1 Ha2] [Hb1 Hb2] Hp0 Hp1.
  rewrite Zle_Qle in Ha1, Ha2, Hb1, Hb2.
  set (qa := inject_Z a) in *. set (qb := inject_Z b) in *.
  set (ql := inject_Z lo) in *. set (qh := inject_Z hi) in *.
  assert (E : (qa + (qb - qa) * p == qa * (1 - p) + qb * p)%Q) by ring.
  rewrite E.
  assert (H1p : (0 <= 1 - p)%Q).
  { rewrite <- (Qplus_opp_r p). apply Qplus_le_l. exact Hp1. }
  split.
  - setoid_replace ql with (ql * (1 - p) + ql * p)%Q by ring.
    apply Qplus_le_compat; apply Qmult_le_compat_r; assumption.
  - setoid_replace qh with (qh * (1 - p) + qh * p)%Q by ring.
    apply Qplus_le_compat; apply Qmult_le_compat_r; assumption.
Qed.

Lemma tween_value_between (tw : tween) (a b lo hi : Z) (p : Q) :
  t_from tw = Int a -> t_to tw = Int b ->
  lo <= a <= hi -> lo <= b <= hi -> in_unit_interval p = true ->
  exists z, tween_value tw p = Int z /\ lo <= z <= hi.
Proof.
  intros Hf Ht Ha Hb Hp. unfold tween_value. rewrite Hf, Ht.
  unfold in_unit_interval in Hp. apply andb_true_iff in Hp.
  destruct Hp as [Hp0 Hp1]. apply Qle_bool_iff in Hp0, Hp1.
  eexists. split; [reflexivity|].
  destruct (segment_between Ha Hb Hp0 Hp1).
  now apply snap_between.
Qed.

Lemma log_canvas_free : canvas_free log.
Proof. intros cs w. reflexivity. Qed.

Lemma log_heap_free : heap_free log.
Proof. intros h w. reflexivity. Qed.

(** C3, as stated, fails: a scroll-linked block with start 0 in a section of
    two frames.  Once both images have loaded, the tween's initial value
    puts -1 in the frame field, which is no index of the image array: the
    render of that update throws. *)
Lemma scroll_block_frame_out_of_range :
  let b := Block (Some (Int 0)) (Some (Int 2)) false None None None in
  let sec := Wrapper (Some "/img/"%string) (Some ".jpg"%string) (Some (Int 2)) (Some 0%nat) [b] in
  let w := run [Load 0 0 400 300; Load 0 1 400 300; Tick 4 0]
               (script_load [sec] [Canvas 0 0 800 600 [] []] 1024 zero) in
  nth_error (heap w) 1 = Some (Sequence (Int (-1))) /\
  ~ (exists z, nth_error (heap w) 1 = Some (Sequence (Int z)) /\ 0 <= z <= 2 - 1) /\
  In (Uncaught TypeError) (log w).
Proof.
  intros b sec w.
  assert (H : nth_error (heap w) 1 = Some (Sequence (Int (-1)))) by (vm_compute; reflexivity).
  split; [exact H|]. split.
  - intros (z & Hz & Hr). rewrite H in Hz. injection Hz as <-. lia.
  - vm_compute. tauto.
Qed.

(** C3, amended: a playback block whose end attribute is an integer with
    [1 <= end <= N] and, when it is scroll-linked, whose start attribute is
    an integer with [1 <= start <= N]: at every progress of its animation,
    the initial value included, the frame field is an integer in
    [0, N - 1].  The script never compares a frame with the frame count. *)
Theorem block_frame_in_range
  (lid : nat) (b : block) (w : world) (N e : Z) (tw : tween) (p : Q) :
  Number (b_end b) = Int e -> 1 <= e <= N ->
  (b_autoplaySequence b = false ->
   exists s, Number (b_start b) = Int s /\ 1 <= s <= N) ->
  log (snd (bind_block lid b w)) = log w ++ [Animate tw] ->
  in_unit_interval p = true ->
  exists z, tween_value tw p = Int z /\ 0 <= z <= N - 1.
Proof.
  intros He Hrange Hstart Hlog Hp.
  destruct (b_autoplaySequence b) eqn:Ha.
  - destruct (leb (scrollY w) (of_Z 1)) eqn:Hy.
    + assert (Hlog' : log w ++ [Animate (autoplay_tween lid (List.length (heap w)) b)] =
                      log w ++ [Animate tw]).
      { rewrite <- Hlog.
        destruct (renders_at_once (autoplay_tween lid (List.length (heap w)) b)) eqn:Hnow.
        - rewrite (bind_block_autoplay_now lid b w Ha Hy Hnow).
          now rewrite (unchanged_render_with log_canvas_free).
        - now rewrite (bind_block_autoplay_top lid b w Ha Hy Hnow). }
      apply app_inv_head in Hlog'. injection Hlog' as <-.
      apply tween_value_between with (a := 0) (b := e - 1); try assumption; try lia.
      * reflexivity.
      * cbn [t_to autoplay_tween]. now rewrite He.
    + rewrite (bind_block_autoplay_scrolled lid b w Ha Hy) in Hlog.
      rewrite (unchanged_render_with log_canvas_free) in Hlog.
      cbn [log with_heap] in Hlog.
      apply (f_equal (@List.length effect)) in Hlog.
      rewrite length_app in Hlog. simpl in Hlog. lia.
  - destruct (Hstart eq_refl) as (s & Hs & Hsr).
    rewrite (bind_block_scroll lid b w Ha) in Hlog.
    cbn [snd log with_log with_heap] in Hlog.
    apply app_inv_head in Hlog. injection Hlog as <-.
    apply tween_value_between with (a := s - 1) (b := e - 1); try assumption; try lia.
    + cbn [t_from scroll_tween]. now rewrite Hs.
    + cbn [t_to scroll_tween]. now rewrite He.
Qed.

Lemma block_frame_in_range_witness :
  let b := Block (Some (Int 1)) (Some (Int 10)) false None None None in
  let w := World 1024 0 10 1024 zero [] [] [] [] [] in
  exists z, tween_value (scroll_tween 0 0 b) (1 # 2) = Int z /\ 0 <= z <= 10 - 1.
Proof.
  intros b w.
  apply (@block_frame_in_range 0 b w 10 10 (scroll_tween 0 0 b) (1 # 2)).
  - reflexivity.
  - lia.
  - intros _. exists 1. split; [reflexivity | lia].
  - reflexivity.
  - reflexivity.
Defined.

(** ** The handlers, statement by statement *)

Lemma bind_normal (A C : Type) (m : M A) (k : A -> M C) (w : world) (a : A) :
  fst (m w) = Normal a -> bind m k w = k a (snd (m w)).
Proof. unfold bind. destruct (m w) as [[a'|e] w1]; simpl; intros H; congruence. Qed.

Lemma updateGlobalImageCount_run (w : world) :
  updateGlobalImageCount w = (Normal tt, after_count w).
Proof.
  unfold updateGlobalImageCount, after_count, bind, modify, get, emit, ret.
  cbn [globalImagesRemaining with_counters].
  destruct (globalImagesRemaining w - 1 =? 0); reflexivity.
Qed.

Lemma onload_run (lid i : nat) (w : world) :
  onload lid i w = onload_tail lid i (after_count (after_incr lid w)).
Proof.
  unfold onload. unfold bind at 1. unfold incr_imagesLoaded, modify.
  fold (after_incr lid w). unfold bind at 1.
  rewrite updateGlobalImageCount_run. reflexivity.
Qed.

Lemma onerror_run (lid i : nat) (w : world) :
  onerror lid i w = when_all_loaded lid (after_count (after_incr lid w)).
Proof.
  unfold onerror. unfold bind at 1. unfold incr_imagesLoaded, modify.
  fold (after_incr lid w). unfold bind at 1.
  rewrite updateGlobalImageCount_run. reflexivity.
Qed.

Lemma initCanvasAnimations_run (lid : nat) (sec : section) (w : world) :
  initCanvasAnimations lid sec w =
  (defaultSequence <- new_sequence (Int 0) ;;
   forEach (bind_block lid) (s_blocks sec) ;;;
   render_at lid defaultSequence ;;;
   emit (AddResizeListener lid defaultSequence))
    (with_log (log w ++ [Call_initCanvasAnimations lid]) w).
Proof. reflexivity. Qed.

Lemma when_all_loaded_run (lid : nat) (w : world) (l : loader) :
  nth_error (loaders w) lid = Some l ->
  when_all_loaded lid w =
  if l_imagesLoaded l =? l_frameCount l
  then initCanvasAnimations lid (l_section l) w
  else (Normal tt, w).
Proof.
  intros H. unfold when_all_loaded, bind, get. rewrite H.
  destruct (l_imagesLoaded l =? l_frameCount l); reflexivity.
Qed.

Lemma render_with_first (lid : nat) (w : world) (l : loader) :
  nth_error (loaders w) lid = Some l -> l_images l <> [] ->
  fst (render_with lid (Sequence (Int 0)) w) = Normal tt.
Proof.
  intros Hl Hi. unfold render_with. rewrite Hl.
  destruct (nth_error (canvases w) (l_canvas l)) as [c|]; [|reflexivity].
  destruct (l_images l) as [|img imgs] eqn:E; [congruence|].
  rewrite (render_found (img :: imgs) (Sequence (Int 0)) c (img:=img) eq_refl).
  reflexivity.
Qed.

(** Observations that only the loader, the counters or the requests can
    change: they ignore the canvases, the heap, what the environment
    reports, and what [initCanvasAnimations] emits. *)
Section Observation.

Variable B : Type.
Variable f : world -> B.

Hypothesis Hcanvas : canvas_free f.
Hypothesis Hheap : heap_free f.
Hypothesis Hanimate : forall tw, ignores f (Animate tw).
Hypothesis Hlistener : forall lid d, ignores f (AddResizeListener lid d).
Hypothesis Huncaught : forall e, ignores f (Uncaught e).

Lemma run_callback_obs (m : M unit) (w : world) :
  f (run_callback m w) = f (snd (m w)).
Proof.
  unfold run_callback. destruct (m w) as [[[]|e] w1]; simpl;
    [reflexivity | apply Huncaught].
Qed.

Lemma fold_callbacks_obs (ms : list (M unit)) (w : world) :
  Forall (unchanged f (A:=unit)) ms ->
  f (fold_left (fun w' m => run_callback m w') ms w) = f w.
Proof.
  intros H. revert w. induction H as [|m ms Hm _ IH]; intros w; simpl.
  - reflexivity.
  - rewrite IH, run_callback_obs. apply Hm.
Qed.

Lemma resize_listeners_unchanged (lg : list effect) :
  Forall (unchanged f (A:=unit)) (resize_listeners lg).
Proof.
  unfold resize_listeners. induction lg as [|e lg IH]; simpl; [constructor|].
  destruct e; simpl; try exact IH.
  constructor; [|exact IH]. now apply unchanged_resize_listener.
Qed.

Hypothesis Hclient : forall cw, modify_free f (with_clientWidth cw).
Hypothesis Hscroll : forall y, modify_free f (with_scrollY y).

(** Ticks of the engine, window resizes, scrolling and layout leave the
    observation alone. *)
Lemma step_passive (w : world) (ev : event) :
  is_passive ev = true -> f (step w ev) = f w.
Proof.
  destruct ev as [|lid i nw nh|lid i|k p|cw|y|cv pw ph];
    try discriminate; intros _; cbn [step].
  - destruct (nth_error (log w) k) as [[]|]; try reflexivity.
    destruct (in_unit_interval p); [|reflexivity].
    rewrite run_callback_obs.
    apply unchanged_bind; [now apply unchanged_set_frame|].
    intros _. now apply unchanged_render_at.
  - rewrite fold_callbacks_obs; [apply Hclient|].
    apply resize_listeners_unchanged.
  - apply Hscroll.
  - destruct (nth_error (canvases w) cv); [apply Hcanvas | reflexivity].
Qed.

(** The handlers of the closure [lid], for an observation that also
    ignores the entry of [initCanvasAnimations] for [lid]. *)
Section Closure.

Variable lid : nat.
Hypothesis Hcall : ignores f (Call_initCanvasAnimations lid).

Lemma unchanged_initCanvasAnimations (sec : section) :
  unchanged f (initCanvasAnimations lid sec).
Proof.
  intros w. rewrite initCanvasAnimations_run.
  rewrite unchanged_bindings by assumption. apply Hcall.
Qed.

Lemma unchanged_when_all_loaded : unchanged f (when_all_loaded lid).
Proof.
  unfold when_all_loaded.
  apply unchanged_bind; [apply unchanged_get|]. intros [l|].
  - apply unchanged_if; [apply unchanged_initCanvasAnimations | apply unchanged_ret].
  - apply unchanged_ret.
Qed.

Lemma unchanged_onload_tail (i : nat) : unchanged f (onload_tail lid i).
Proof.
  unfold onload_tail. apply unchanged_bind.
  - apply unchanged_if; [now apply unchanged_render_with | apply unchanged_ret].
  - intros _. apply unchanged_when_all_loaded.
Qed.

(** A settled request changes the observation as the two counter
    updates of its handler do. *)
Lemma step_loaded (w : world) (i : nat) :
  f (run_callback (onload lid i) w) = f (after_count (after_incr lid w)).
Proof. rewrite run_callback_obs, onload_run. apply unchanged_onload_tail. Qed.

Lemma step_errored (w : world) (i : nat) :
  f (run_callback (onerror lid i) w) = f (after_count (after_incr lid w)).
Proof. rewrite run_callback_obs, onerror_run. apply unchanged_when_all_loaded. Qed.

End Closure.

End Observation.

(** ** What [initSections] adds to the page *)

Lemma requests_of_app (xs ys : list loader) :
  requests_of (xs ++ ys) = requests_of xs ++ requests_of ys.
Proof. apply flat_map_app. Qed.

Lemma frames_of_app (xs ys : list loader) :
  frames_of (xs ++ ys) = frames_of xs + frames_of ys.
Proof. induction xs as [|x xs IH]; simpl; lia. Qed.

Lemma initSection_adds (sec : section) (w : world) :
  let new := section_loader (device_of (viewportWidth w)) sec in
  let w' := snd (initSection sec w) in
  fst (initSection sec w) = Normal tt /\
  viewportWidth w' = viewportWidth w /\
  heap w' = heap w /\
  loaders w' = loaders w ++ new /\
  log w' = log w ++ requests_of new /\
  globalImagesRemaining w' = globalImagesRemaining w + frames_of new /\
  totalImagesCount w' = totalImagesCount w + frames_of new.
Proof.
  unfold section_loader. destruct (skipped sec) eqn:Hs.
  - rewrite (initSection_skipped sec w Hs). simpl.
    rewrite !app_nil_r, !Z.add_0_r. repeat split; reflexivity.
  - destruct (not_skipped_parts sec Hs) as (cv & p & s & n & Hc & Hp & Hx & Hf & _).
    rewrite (initSection_not_skipped sec w Hs Hc Hp Hx Hf), Hc, Hp, Hx, Hf.
    destruct (initCanvas_effect sec cv p s n (device_of (viewportWidth w))
                (with_counters (globalImagesRemaining w + n) (totalImagesCount w + n) w))
      as (H1 & H2 & H3 & H4 & H5 & _ & H6 & H7).
    cbn [Number requests_of frames_of flat_map fold_right l_images l_frameCount].
    rewrite app_nil_r, Z.add_0_r.
    repeat split; assumption.
Qed.

Lemma initSections_adds (w : world) :
  let new := flat_map (section_loader (device_of (viewportWidth w))) (document w) in
  let w' := run_callback initSections w in
  viewportWidth w' = viewportWidth w /\
  heap w' = heap w /\
  loaders w' = loaders w ++ new /\
  log w' = log w ++ requests_of new /\
  globalImagesRemaining w' = globalImagesRemaining w + frames_of new /\
  totalImagesCount w' = totalImagesCount w + frames_of new.
Proof.
  unfold initSections, run_callback, bind, get.
  generalize (document w) as doc. intros doc. revert w.
  induction doc as [|sec doc IH]; intros w.
  - simpl. rewrite !app_nil_r, !Z.add_0_r. repeat split; reflexivity.
  - cbn [forEach flat_map]. unfold bind.
    destruct (initSection_adds sec w) as (H0 & H1 & H2 & H3 & H4 & H5 & H6).
    destruct (initSection sec w) as [[[]|e] w1]; [|discriminate].
    cbn [fst snd] in *.
    specialize (IH w1). rewrite H1 in IH.
    destruct (forEach initSection doc w1) as [[[]|e] w2];
      cbn [fst snd] in *;
      destruct IH as (I1 & I2 & I3 & I4 & I5 & I6);
      rewrite requests_of_app, frames_of_app, ?I1, ?I2, ?I3, ?I4, ?I5, ?I6,
              ?H1, ?H2, ?H3, ?H4, ?H5, ?H6, ?app_assoc, ?Z.add_assoc;
      repeat split; reflexivity.
Qed.

(** ** The device variant *)

Lemma event_eq_MediaChange (ev : event) : ev = MediaChange \/ ev <> MediaChange.
Proof. destruct ev; [left; reflexivity | right; discriminate ..]. Qed.

Lemma map_set_nth_same (A C : Type) (g : A -> C) (xs : list A) (n : nat) (x y : A) :
  nth_error xs n = Some y -> g x = g y -> map g (set_nth n x xs) = map g xs.
Proof.
  revert n. induction xs as [|a xs IH]; intros [|n] H Hg; simpl in *;
    try discriminate.
  - injection H as ->. now rewrite Hg.
  - now rewrite (IH n).
Qed.

Lemma obs_static_ignores (e : effect) :
  is_request e = false -> ignores obs_static e.
Proof.
  intros He w. unfold obs_static. cbn [log with_log loaders viewportWidth].
  rewrite filter_app. simpl. rewrite He, app_nil_r. reflexivity.
Qed.

Lemma obs_static_after_incr (lid : nat) (w : world) :
  obs_static (after_incr lid w) = obs_static w.
Proof.
  unfold after_incr. destruct (nth_error (loaders w) lid) as [l|] eqn:Hl;
    [|reflexivity].
  unfold obs_static. cbn [loaders with_loaders viewportWidth log].
  now rewrite (@map_set_nth_same _ _ loader_static _ _ _ _ Hl).
Qed.

Lemma obs_static_after_count (w : world) :
  obs_static (after_count w) = obs_static w.
Proof.
  unfold after_count. destruct (globalImagesRemaining w - 1 =? 0); [|reflexivity].
  now rewrite (obs_static_ignores (SetTimeout LenisResize 500) eq_refl
                 (with_counters (globalImagesRemaining w - 1) (totalImagesCount w) w)).
Qed.

Lemma obs_static_settle (lid i : nat) (st : img_state) (w : world) :
  obs_static (settle lid i st w) = obs_static w.
Proof.
  unfold settle. destruct (nth_error (loaders w) lid) as [l|] eqn:Hl;
    [|reflexivity].
  destruct (nth_error (l_images l) i) as [img|] eqn:Hi; [|reflexivity].
  unfold obs_static. cbn [loaders with_loaders viewportWidth log].
  rewrite (@map_set_nth_same _ _ loader_static _ _ _ _ Hl); [reflexivity|].
  unfold loader_static. cbn [with_images l_device l_prefix l_suffix l_frameCount l_images].
  now rewrite (@map_set_nth_same _ _ src _ _ _ _ Hi).
Qed.

Lemma obs_static_canvas_free : canvas_free obs_static.
Proof. intros cs w. reflexivity. Qed.

Lemma obs_static_heap_free : heap_free obs_static.
Proof. intros h w. reflexivity. Qed.

Lemma obs_static_client_free (cw : Z) : modify_free obs_static (with_clientWidth cw).
Proof. intros w. reflexivity. Qed.

Lemma obs_static_scroll_free (y : num) : modify_free obs_static (with_scrollY y).
Proof. intros w. reflexivity. Qed.

Lemma obs_static_animate (tw : tween) : ignores obs_static (Animate tw).
Proof. now apply obs_static_ignores. Qed.

Lemma obs_static_listener (lid d : nat) : ignores obs_static (AddResizeListener lid d).
Proof. now apply obs_static_ignores. Qed.

Lemma obs_static_uncaught (e : exn) : ignores obs_static (Uncaught e).
Proof. now apply obs_static_ignores. Qed.

Lemma obs_static_call (lid : nat) : ignores obs_static (Call_initCanvasAnimations lid).
Proof. now apply obs_static_ignores. Qed.

Create HintDb obs discriminated.

#[local] Hint Resolve obs_static_canvas_free obs_static_heap_free
  obs_static_client_free obs_static_scroll_free obs_static_animate
  obs_static_listener obs_static_uncaught obs_static_call : obs.

(** Every event but a breakpoint change leaves the static observation as
    it is. *)
Lemma obs_static_step (w : world) (ev : event) :
  ev <> MediaChange -> obs_static (step w ev) = obs_static w.
Proof.
  intros Hev.
  destruct ev as [|lid i nw nh|lid i|k p|cw|y|cv pw ph];
    try congruence;
    try (apply step_passive; auto with obs; fail); cbn [step];
    destruct (is_pending w lid i); try reflexivity.
  - rewrite step_loaded by auto with obs.
    now rewrite obs_static_after_count, obs_static_after_incr, obs_static_settle.
  - rewrite step_errored by auto with obs.
    now rewrite obs_static_after_count, obs_static_after_incr, obs_static_settle.
Qed.

Lemma device_fixed_obs (cw : Z) (w w' : world) :
  obs_static w' = obs_static w -> device_fixed cw w -> device_fixed cw w'.
Proof.
  unfold obs_static, device_fixed. intros H. injection H as -> -> ->. trivial.
Qed.

Lemma requests_of_static (ls : list loader) :
  requests_of ls = flat_map (fun s => map Request (snd s)) (map loader_static ls).
Proof.
  unfold requests_of. induction ls as [|l ls IH]; simpl; [reflexivity|].
  now rewrite IH, map_map.
Qed.

Lemma filter_requests_of (ls : list loader) :
  filter is_request (requests_of ls) = requests_of ls.
Proof.
  apply forallb_filter_id, forallb_forall. intros e He.
  unfold requests_of in He. apply in_flat_map in He.
  destruct He as (l & _ & He). apply in_map_iff in He.
  destruct He as (img & <- & _). reflexivity.
Qed.

Lemma section_loader_static_ok (cw : Z) (sec : section) :
  Forall (static_ok cw) (map loader_static (section_loader (device_of cw) sec)).
Proof.
  unfold section_loader. destruct (skipped sec); [constructor|].
  destruct (s_canvas sec), (s_prefix sec), (s_suffix sec),
    (Number (s_framecount sec)); try constructor; [|constructor].
  split; [reflexivity|]. cbn [l_images l_prefix l_suffix l_frameCount].
  rewrite load_frames_map, map_map. reflexivity.
Qed.

Lemma device_fixed_initSections (cw : Z) (w : world) :
  device_fixed cw w -> device_fixed cw (run_callback initSections w).
Proof.
  intros (Hvw & Hok & Hreq).
  destruct (initSections_adds w) as (H1 & _ & H3 & H4 & _).
  unfold device_fixed. rewrite H1, H3, H4, Hvw.
  rewrite map_app, flat_map_app, filter_app, Hreq, filter_requests_of.
  split; [reflexivity|]. split.
  - apply Forall_app. split; [exact Hok|].
    rewrite flat_map_concat_map, concat_map. apply Forall_concat.
    rewrite map_map. apply Forall_map, Forall_forall. intros sec _.
    apply section_loader_static_ok.
  - f_equal. apply requests_of_static.
Qed.

Lemma device_fixed_step (cw : Z) (w : world) (ev : event) :
  device_fixed cw w -> device_fixed cw (step w ev).
Proof.
  intros H. destruct (event_eq_MediaChange ev) as [->|Hev].
  - now apply device_fixed_initSections.
  - exact (@device_fixed_obs cw w (step w ev) (obs_static_step w Hev) H).
Qed.

Lemma device_fixed_run (cw : Z) (evs : list event) (w : world) :
  device_fixed cw w -> device_fixed cw (run evs w).
Proof.
  revert w. induction evs as [|ev evs IH]; intros w H; [exact H|].
  apply IH, device_fixed_step, H.
Qed.

(** C9: the device variant is computed from the document client width the
    script captured when it was loaded.  Whatever the page receives
    afterwards (breakpoint changes that run the section initialisation
    again, resizes to any width, loads, errors, ticks), the captured width
    is the one of the load, every closure created by the initialisation
    holds the variant of that width, the URLs of its images are those of
    that variant, and no other URL has been requested. *)
Theorem device_variant_is_fixed
  (doc : list section) (cvs : list canvas) (cw : Z) (y : num) (evs : list event) :
  let w := run evs (script_load doc cvs cw y) in
  viewportWidth w = cw /\
  (forall l, In l (loaders w) ->
     l_device l = device_of cw /\
     map src (l_images l) =
       map (fun k => currentFrame (l_prefix l) (device_of cw) (l_suffix l) (Z.of_nat k))
           (seq 0 (Z.to_nat (l_frameCount l)))) /\
  filter is_request (log w) = requests_of (loaders w).
Proof.
  intros w.
  assert (H : device_fixed cw w).
  { apply device_fixed_run, device_fixed_initSections.
    repeat split; constructor. }
  destruct H as (Hvw & Hok & Hreq). split; [exact Hvw|]. split.
  - intros l Hl. rewrite Forall_forall in Hok.
    exact (Hok (loader_static l) (in_map loader_static _ _ Hl)).
  - now rewrite requests_of_static.
Qed.

(** ** The global counters *)

Lemma map_set_nth (A C : Type) (g : A -> C) (xs : list A) (n : nat) (x : A) :
  map g (set_nth n x xs) = set_nth n (g x) (map g xs).
Proof.
  revert n. induction xs as [|a xs IH]; intros [|n]; simpl; try reflexivity.
  now rewrite IH.
Qed.

Lemma list_sum_set_nth (xs : list nat) (n x y : nat) :
  nth_error xs n = Some y ->
  (list_sum (set_nth n x xs) + y = list_sum xs + x)%nat.
Proof.
  revert n. induction xs as [|a xs IH]; intros [|n] H; simpl in *;
    try discriminate.
  - injection H as ->. lia.
  - specialize (IH n H). lia.
Qed.

Lemma length_set_nth (A : Type) (xs : list A) (n : nat) (x : A) :
  List.length (set_nth n x xs) = List.length xs.
Proof.
  revert n. induction xs as [|a xs IH]; intros [|n]; simpl; try reflexivity.
  now rewrite IH.
Qed.

Lemma obs_count_ignores (e : effect) :
  is_timer e = false -> ignores obs_count e.
Proof.
  intros He w. unfold obs_count.
  cbn [log with_log loaders globalImagesRemaining totalImagesCount].
  rewrite filter_app. simpl. rewrite He, app_nil_r. reflexivity.
Qed.

Lemma obs_count_canvas_free : canvas_free obs_count.
Proof. intros cs w. reflexivity. Qed.

Lemma obs_count_heap_free : heap_free obs_count.
Proof. intros h w. reflexivity. Qed.

Lemma obs_count_client_free (cw : Z) : modify_free obs_count (with_clientWidth cw).
Proof. intros w. reflexivity. Qed.

Lemma obs_count_scroll_free (y : num) : modify_free obs_count (with_scrollY y).
Proof. intros w. reflexivity. Qed.

Lemma obs_count_animate (tw : tween) : ignores obs_count (Animate tw).
Proof. now apply obs_count_ignores. Qed.

Lemma obs_count_listener (lid d : nat) : ignores obs_count (AddResizeListener lid d).
Proof. now apply obs_count_ignores. Qed.

Lemma obs_count_uncaught (e : exn) : ignores obs_count (Uncaught e).
Proof. now apply obs_count_ignores. Qed.

Lemma obs_count_call (lid : nat) : ignores obs_count (Call_initCanvasAnimations lid).
Proof. now apply obs_count_ignores. Qed.

#[local] Hint Resolve obs_count_canvas_free obs_count_heap_free
  obs_count_client_free obs_count_scroll_free obs_count_animate
  obs_count_listener obs_count_uncaught obs_count_call : obs.

Lemma is_pending_inv (w : world) (lid i : nat) :
  is_pending w lid i = true ->
  exists l img, nth_error (loaders w) lid = Some l /\
                nth_error (l_images l) i = Some img /\ status img = Pending.
Proof.
  unfold is_pending. intros H.
  destruct (nth_error (loaders w) lid) as [l|]; [|discriminate].
  destruct (nth_error (l_images l) i) as [img|] eqn:Hi; [|discriminate].
  destruct (status img) eqn:Hs; try discriminate. eauto.
Qed.

Lemma images_after_incr (lid : nat) (w : world) :
  map l_images (loaders (after_incr lid w)) = map l_images (loaders w).
Proof.
  unfold after_incr. destruct (nth_error (loaders w) lid) as [l|] eqn:Hl;
    [|reflexivity].
  cbn [loaders with_loaders].
  now rewrite (@map_set_nth_same _ _ l_images _ _ _ _ Hl).
Qed.

(** Settling a pending request leaves one pending request less, and as
    many images. *)
Lemma settle_pending (w : world) (lid i : nat) (st : img_state) :
  is_pending w lid i = true -> st <> Pending ->
  (pending (settle lid i st w) + 1 = pending w)%nat /\
  image_count (settle lid i st w) = image_count w.
Proof.
  intros Hp Hst. destruct (is_pending_inv w lid i Hp) as (l & img & Hl & Hi & Hs).
  unfold settle, pending, image_count, pending_in, count_in. rewrite Hl, Hi.
  cbn [loaders with_loaders].
  rewrite !map_set_nth. cbn [l_images with_images].
  assert (Hl' : forall C (g : loader -> C), nth_error (map g (loaders w)) lid = Some (g l))
    by (intros; now rewrite nth_error_map, Hl).
  split.
  - rewrite map_map.
    pose proof (@list_sum_set_nth
                  (map (fun x => list_sum (map pending_img (l_images x))) (loaders w))
                  lid
                  (list_sum (map pending_img (set_nth i (Image (src img) st) (l_images l))))
                  _ (Hl' _ (fun x => list_sum (map pending_img (l_images x))))) as H1.
    assert (H2 : (list_sum (map pending_img (set_nth i (Image (src img) st) (l_images l))) + 1
                  = list_sum (map pending_img (l_images l)))%nat).
    { rewrite map_set_nth.
      assert (Hi' : nth_error (map pending_img (l_images l)) i = Some (pending_img img))
        by now rewrite nth_error_map, Hi.
      pose proof (@list_sum_set_nth (map pending_img (l_images l)) i
                    (pending_img (Image (src img) st)) _ Hi') as H3.
      assert (Hold : pending_img img = 1%nat) by (unfold pending_img; now rewrite Hs).
      assert (Hnew : pending_img (Image (src img) st) = 0%nat)
        by (unfold pending_img; destruct st; simpl; congruence).
      rewrite Hold, Hnew in H3. rewrite Hnew. lia. }
    lia.
  - rewrite !map_map.
    pose proof (@list_sum_set_nth
                  (map (fun x => List.length (l_images x)) (loaders w))
                  lid
                  (List.length (set_nth i (Image (src img) st) (l_images l)))
                  _ (Hl' _ (fun x => List.length (l_images x)))) as H1.
    rewrite length_set_nth in H1 |- *. lia.
Qed.

Lemma counted_obs (w w' : world) :
  obs_count w' = obs_count w -> counted w -> counted w'.
Proof.
  unfold obs_count, counted, pending, image_count.
  intros H. injection H as -> -> -> ->. trivial.
Qed.

Lemma pending_obs (w w' : world) :
  obs_count w' = obs_count w -> pending w' = pending w.
Proof. unfold obs_count, pending. intros H. injection H as _ _ _ ->. reflexivity. Qed.

Lemma pending_le_count (imgss : list (list image)) :
  (pending_in imgss <= count_in imgss)%nat.
Proof.
  unfold pending_in, count_in.
  induction imgss as [|imgs imgss IH]; simpl; [lia|].
  assert (list_sum (map pending_img imgs) <= List.length imgs)%nat; [|lia].
  clear. induction imgs as [|img imgs IH]; simpl; [lia|].
  unfold pending_img at 1. destruct (status img); lia.
Qed.

Lemma after_incr_frame (lid : nat) (w : world) :
  globalImagesRemaining (after_incr lid w) = globalImagesRemaining w /\
  totalImagesCount (after_incr lid w) = totalImagesCount w /\
  log (after_incr lid w) = log w.
Proof.
  unfold after_incr. destruct (nth_error (loaders w) lid);
    repeat split; reflexivity.
Qed.

Lemma settle_frame (lid i : nat) (st : img_state) (w : world) :
  globalImagesRemaining (settle lid i st w) = globalImagesRemaining w /\
  totalImagesCount (settle lid i st w) = totalImagesCount w /\
  log (settle lid i st w) = log w.
Proof.
  unfold settle. destruct (nth_error (loaders w) lid) as [l|];
    [destruct (nth_error (l_images l) i)|]; repeat split; reflexivity.
Qed.

Lemma after_settle_counted (w : world) (lid i : nat) (st : img_state) :
  is_pending w lid i = true -> st <> Pending -> counted w ->
  counted (after_count (after_incr lid (settle lid i st w))) /\
  (pending (after_count (after_incr lid (settle lid i st w))) + 1 = pending w)%nat.
Proof.
  intros Hp Hst (Hrem & Htot & Htim).
  destruct (settle_pending w lid i Hp Hst) as [Hpend Hcount].
  set (w1 := settle lid i st w) in *.
  assert (Hc1 : globalImagesRemaining (after_incr lid w1) = globalImagesRemaining w /\
                totalImagesCount (after_incr lid w1) = totalImagesCount w /\
                log (after_incr lid w1) = log w).
  { destruct (after_incr_frame lid w1) as (-> & -> & ->). apply settle_frame. }
  destruct Hc1 as (Hr1 & Ht1 & Hl1).
  assert (Hp2 : pending (after_count (after_incr lid w1)) = pending w1).
  { unfold pending. rewrite <- (images_after_incr lid w1).
    unfold after_count. destruct (_ =? 0); reflexivity. }
  assert (Hi2 : image_count (after_count (after_incr lid w1)) = image_count w).
  { rewrite <- Hcount. unfold image_count. rewrite <- (images_after_incr lid w1).
    unfold after_count. destruct (_ =? 0); reflexivity. }
  split; [|lia].
  pose proof (pending_le_count (map l_images (loaders w))) as Hle.
  fold (pending w) (image_count w) in Hle.
  unfold counted. rewrite Hp2, Hi2.
  assert (Hnz : (pending w =? 0)%nat = false) by (apply Nat.eqb_neq; lia).
  rewrite Hnz in Htim. simpl in Htim.
  assert (Hpos : (0 <? image_count w)%nat = true) by (apply Nat.ltb_lt; lia).
  rewrite Hpos, andb_true_r.
  unfold after_count. rewrite Hr1, Ht1, Hrem.
  replace (Z.of_nat (pending w) - 1) with (Z.of_nat (pending w1)) by lia.
  destruct (pending w1) as [|n] eqn:Hn.
  - cbn [Z.of_nat Z.eqb Nat.eqb globalImagesRemaining totalImagesCount
         with_log with_counters log].
    rewrite Hl1, filter_app, Htim. repeat split; try lia; reflexivity.
  - replace (Z.of_nat (S n) =? 0) with false by (symmetry; apply Z.eqb_neq; lia).
    cbn [Nat.eqb globalImagesRemaining totalImagesCount with_counters log].
    rewrite Hl1. repeat split; try lia; exact Htim.
Qed.

Lemma counted_step (w : world) (ev : event) :
  is_media_change ev = false -> counted w ->
  counted (step w ev) /\ (pending (step w ev) <= pending w)%nat.
Proof.
  intros Hev Hc.
  assert (Hsame : obs_count (step w ev) = obs_count w ->
                  counted (step w ev) /\ (pending (step w ev) <= pending w)%nat).
  { intros H. split; [exact (counted_obs H Hc)|]. rewrite (pending_obs H). lia. }
  destruct ev as [|lid i nw nh|lid i|k p|cw|y|cv pw ph];
    try discriminate;
    try (apply Hsame, step_passive; auto with obs; fail); cbn [step];
    destruct (is_pending w lid i) eqn:Hp; try (split; [exact Hc | lia]).
  - destruct (@after_settle_counted w lid i (Available nw nh) Hp) as [H1 H2];
      [discriminate | exact Hc |].
    assert (Ho : obs_count (run_callback (onload lid i) (settle lid i (Available nw nh) w)) =
                 obs_count (after_count (after_incr lid (settle lid i (Available nw nh) w))))
      by (apply step_loaded; auto with obs).
    split; [exact (counted_obs Ho H1)|]. rewrite (pending_obs Ho). lia.
  - destruct (@after_settle_counted w lid i Broken Hp) as [H1 H2];
      [discriminate | exact Hc |].
    assert (Ho : obs_count (run_callback (onerror lid i) (settle lid i Broken w)) =
                 obs_count (after_count (after_incr lid (settle lid i Broken w))))
      by (apply step_errored; auto with obs).
    split; [exact (counted_obs Ho H1)|]. rewrite (pending_obs Ho). lia.
Qed.

Lemma counted_run (evs : list event) (w : world) :
  forallb (fun ev => negb (is_media_change ev)) evs = true ->
  counted w -> counted (run evs w).
Proof.
  revert w. induction evs as [|ev evs IH]; intros w Hevs Hc; [exact Hc|].
  simpl in Hevs. apply andb_true_iff in Hevs. destruct Hevs as [Hev Hevs].
  apply negb_true_iff in Hev.
  apply IH; [exact Hevs|]. apply counted_step; assumption.
Qed.

Lemma load_frames_pending (prefix device suffix : string) (count : nat) (i : Z) :
  list_sum (map pending_img (load_frames prefix device suffix count i)) = count /\
  List.length (load_frames prefix device suffix count i) = count.
Proof.
  revert i. induction count as [|count IH]; intros i; simpl; [split; reflexivity|].
  destruct (IH (i + 1)) as [-> ->]. split; reflexivity.
Qed.

Lemma pending_in_app (xs ys : list (list image)) :
  pending_in (xs ++ ys) = (pending_in xs + pending_in ys)%nat.
Proof. unfold pending_in. now rewrite map_app, list_sum_app. Qed.

Lemma count_in_app (xs ys : list (list image)) :
  count_in (xs ++ ys) = (count_in xs + count_in ys)%nat.
Proof. unfold count_in. now rewrite map_app, list_sum_app. Qed.

Lemma section_loader_counted (device : string) (sec : section) :
  match s_framecount sec with Some (Int n) => 0 <=? n | _ => true end = true ->
  let new := section_loader device sec in
  frames_of new = Z.of_nat (pending_in (map l_images new)) /\
  pending_in (map l_images new) = count_in (map l_images new).
Proof.
  intros Hsec. unfold section_loader.
  destruct (skipped sec); [split; reflexivity|].
  destruct (s_canvas sec) as [cv|], (s_prefix sec) as [pre|],
    (s_suffix sec) as [suf|]; try (split; reflexivity).
  destruct (s_framecount sec) as [[|frames]|]; try (split; reflexivity).
  unfold pending_in, count_in.
  cbn [Number map frames_of fold_right list_sum l_images l_frameCount].
  destruct (load_frames_pending pre device suf (Z.to_nat frames) 0) as [Hp Hl].
  unfold list_sum in Hp. rewrite Hp, Hl.
  apply Z.leb_le in Hsec. split; lia.
Qed.

(** On a document whose frame counts are not negative, the closures that
    one initialisation creates hold as many pending images as their frame
    counts add up to. *)
Lemma new_loaders_counted (device : string) (doc : list section) :
  nonneg_counts doc = true ->
  let new := flat_map (section_loader device) doc in
  frames_of new = Z.of_nat (pending_in (map l_images new)) /\
  pending_in (map l_images new) = count_in (map l_images new).
Proof.
  unfold nonneg_counts.
  induction doc as [|sec doc IH]; intros Hdoc; [split; reflexivity|].
  simpl in Hdoc. apply andb_true_iff in Hdoc. destruct Hdoc as [Hsec Hdoc].
  destruct (IH Hdoc) as [IH1 IH2].
  destruct (section_loader_counted device sec Hsec) as [H1 H2].
  cbn [flat_map].
  rewrite frames_of_app, !map_app, !pending_in_app, !count_in_app.
  cbv zeta in *. split; lia.
Qed.

Lemma filter_timer_requests_of (ls : list loader) :
  filter is_timer (requests_of ls) = [].
Proof.
  unfold requests_of. induction ls as [|l ls IH]; [reflexivity|].
  cbn [flat_map]. rewrite filter_app, IH, app_nil_r.
  induction (l_images l) as [|img imgs IHi]; [reflexivity | exact IHi].
Qed.

Lemma counted_script_load (doc : list section) (cvs : list canvas) (cw : Z) (y : num) :
  nonneg_counts doc = true -> counted (script_load doc cvs cw y).
Proof.
  intros Hdoc. unfold script_load.
  destruct (initSections_adds (World cw 0 0 cw y doc cvs [] [] []))
    as (_ & _ & Hl & Hlog & Hrem & Htot).
  cbn [viewportWidth document loaders log globalImagesRemaining totalImagesCount] in *.
  destruct (new_loaders_counted (device_of cw) doc Hdoc) as [Hf Hpc].
  unfold counted, pending, image_count. rewrite Hl, Hlog, Hrem, Htot.
  cbn [app]. rewrite Hf, <- Hpc. repeat split; try reflexivity.
  rewrite filter_timer_requests_of.
  destruct (pending_in _); reflexivity.
Qed.

(** C6, as stated, fails: one section of one frame.  The image loads, the
    counter reaches zero and the resize timer is set; a breakpoint change
    runs the initialisation again, the counter is 1 again; the new image
    settles, the counter reaches zero a second time and a second resize
    timer is set. *)
Lemma resize_notified_twice :
  let sec := Wrapper (Some "/img/"%string) (Some ".jpg"%string) (Some (Int 1)) (Some 0%nat) [] in
  let w0 := script_load [sec] [Canvas 0 0 800 600 [] []] 1024 zero in
  let w1 := run [Load 0 0 400 300] w0 in
  let w2 := run [MediaChange] w1 in
  let w3 := run [Error 1 0] w2 in
  globalImagesRemaining w1 = 0 /\
  globalImagesRemaining w2 = 1 /\
  globalImagesRemaining w3 = 0 /\
  filter is_timer (log w3) = [SetTimeout LenisResize 500; SetTimeout LenisResize 500].
Proof. vm_compute. repeat split; reflexivity. Qed.

(** C6, amended: on a page whose frame counts are not negative, as long as
    the section initialisation has run once (no breakpoint change since the
    load), the remaining counter is the number of requests that have not
    settled: it never goes up, it is zero exactly when every request has
    settled, and the resize of the scroll smoother has been scheduled, once
    and 500 ms ahead, exactly when that has happened on a page with
    images. *)
Theorem resize_notified_once
  (doc : list section) (cvs : list canvas) (cw : Z) (y : num) (evs : list event) :
  nonneg_counts doc = true ->
  forallb (fun ev => negb (is_media_change ev)) evs = true ->
  let w := run evs (script_load doc cvs cw y) in
  globalImagesRemaining w = Z.of_nat (pending w) /\
  totalImagesCount w = Z.of_nat (image_count w) /\
  filter is_timer (log w) =
    (if (pending w =? 0)%nat && (0 <? image_count w)%nat
     then [SetTimeout LenisResize 500] else []) /\
  (forall ev, is_media_change ev = false ->
     globalImagesRemaining (step w ev) <= globalImagesRemaining w).
Proof.
  intros Hdoc Hevs w.
  assert (Hc : counted w) by (apply counted_run, counted_script_load; assumption).
  destruct Hc as (H1 & H2 & H3). repeat split; try assumption.
  intros ev Hev.
  destruct (@counted_step w ev Hev (conj H1 (conj H2 H3))) as [(H1' & _) Hle].
  rewrite H1', H1. lia.
Qed.

(** The example of the specification: two sections of 6 and 4 frames.
    After the ten loads and errors the remaining counter is 0 and the resize
    has been scheduled once, 500 ms ahead. *)
Lemma resize_notified_once_example :
  let s1 := Wrapper (Some "/a/"%string) (Some ".jpg"%string) (Some (Int 6)) (Some 0%nat) [] in
  let s2 := Wrapper (Some "/b/"%string) (Some ".jpg"%string) (Some (Int 4)) (Some 1%nat) [] in
  let cvs := [Canvas 0 0 800 600 [] []; Canvas 0 0 400 300 [] []] in
  let evs := [Load 0 0 400 300; Load 1 0 400 300; Error 0 1; Load 0 2 400 300;
              Load 1 3 400 300; Error 1 1; Load 0 5 400 300; Load 0 4 400 300;
              Load 1 2 400 300; Load 0 3 400 300] in
  let w := run evs (script_load [s1; s2] cvs 1024 zero) in
  totalImagesCount w = 10 /\
  globalImagesRemaining w = 0 /\
  filter is_timer (log w) = [SetTimeout LenisResize 500].
Proof.
  intros s1 s2 cvs evs w.
  destruct (@resize_notified_once [s1; s2] cvs 1024 zero evs eq_refl eq_refl)
    as (H1 & H2 & H3 & _).
  split; [exact H2|]. split; [exact H1 | exact H3].
Defined.

(** ** The ready signal of a section *)

Lemma nth_error_set_nth_eq (A : Type) (xs : list A) (n : nat) (x y : A) :
  nth_error xs n = Some y -> nth_error (set_nth n x xs) n = Some x.
Proof.
  revert n. induction xs as [|a xs IH]; intros [|n] H; simpl in *;
    try discriminate; [reflexivity | now apply IH].
Qed.

Lemma nth_error_set_nth_neq (A : Type) (xs : list A) (n m : nat) (x : A) :
  n <> m -> nth_error (set_nth n x xs) m = nth_error xs m.
Proof.
  revert n m. induction xs as [|a xs IH]; intros [|n] [|m] H; simpl;
    try reflexivity; try congruence.
  apply IH. congruence.
Qed.

Lemma obs_ready_ignores (lid : nat) (e : effect) :
  is_call_of lid e = false -> ignores (obs_ready lid) e.
Proof.
  intros He w. unfold obs_ready, ready. cbn [log with_log loaders].
  rewrite filter_app. simpl. rewrite He, app_nil_r. reflexivity.
Qed.

Lemma obs_ready_canvas_free (lid : nat) : canvas_free (obs_ready lid).
Proof. intros cs w. reflexivity. Qed.

Lemma obs_ready_heap_free (lid : nat) : heap_free (obs_ready lid).
Proof. intros h w. reflexivity. Qed.

Lemma obs_ready_client_free (lid : nat) (cw : Z) :
  modify_free (obs_ready lid) (with_clientWidth cw).
Proof. intros w. reflexivity. Qed.

Lemma obs_ready_scroll_free (lid : nat) (y : num) :
  modify_free (obs_ready lid) (with_scrollY y).
Proof. intros w. reflexivity. Qed.

Lemma obs_ready_animate (lid : nat) (tw : tween) : ignores (obs_ready lid) (Animate tw).
Proof. now apply obs_ready_ignores. Qed.

Lemma obs_ready_listener (lid l d : nat) :
  ignores (obs_ready lid) (AddResizeListener l d).
Proof. now apply obs_ready_ignores. Qed.

Lemma obs_ready_uncaught (lid : nat) (e : exn) : ignores (obs_ready lid) (Uncaught e).
Proof. now apply obs_ready_ignores. Qed.

Lemma obs_ready_other_call (lid other : nat) :
  other <> lid -> ignores (obs_ready lid) (Call_initCanvasAnimations other).
Proof. intros H. apply obs_ready_ignores. simpl. now apply Nat.eqb_neq. Qed.

#[local] Hint Resolve obs_ready_canvas_free obs_ready_heap_free
  obs_ready_client_free obs_ready_scroll_free obs_ready_animate
  obs_ready_listener obs_ready_uncaught obs_ready_other_call : obs.

Lemma settled_pending (imgs : list image) :
  (settled imgs + list_sum (map pending_img imgs) = List.length imgs)%nat.
Proof.
  unfold settled. induction imgs as [|img imgs IH]; simpl; [reflexivity|].
  unfold settled_img at 1, pending_img at 1. destruct (status img); lia.
Qed.

(** When the closure [lid] checks whether all its images are in, it enters
    [initCanvasAnimations] if and only if its count equals its frame
    count. *)
Lemma ready_when_all_loaded (lid : nat) (w : world) (l : loader) :
  nth_error (loaders w) lid = Some l ->
  obs_ready lid (snd (when_all_loaded lid w)) =
  (loaders w,
   ready lid w ++ if l_imagesLoaded l =? l_frameCount l
                  then [Call_initCanvasAnimations lid] else []).
Proof.
  intros Hl. rewrite (when_all_loaded_run lid w Hl).
  destruct (l_imagesLoaded l =? l_frameCount l).
  - rewrite initCanvasAnimations_run, unchanged_bindings by auto with obs.
    unfold obs_ready, ready. cbn [loaders log with_log].
    rewrite filter_app. simpl. now rewrite Nat.eqb_refl.
  - simpl. unfold obs_ready. now rewrite app_nil_r.
Qed.

Lemma ready_onload_tail (lid i : nat) (w : world) (l : loader) :
  nth_error (loaders w) lid = Some l -> l_images l <> [] ->
  obs_ready lid (snd (onload_tail lid i w)) =
  (loaders w,
   ready lid w ++ if l_imagesLoaded l =? l_frameCount l
                  then [Call_initCanvasAnimations lid] else []).
Proof.
  intros Hl Hi. unfold onload_tail. destruct (Nat.eqb i 0).
  - rewrite (bind_normal _ _ _ (render_with_first lid w Hl Hi)).
    pose proof (unchanged_render_with (obs_ready_canvas_free lid) lid
                  (Sequence (Int 0)) w) as Hr.
    unfold obs_ready in Hr. injection Hr as Hr1 Hr2.
    rewrite (ready_when_all_loaded lid _ (l:=l)) by now rewrite Hr1.
    now rewrite Hr1, Hr2.
  - unfold bind, ret. now apply ready_when_all_loaded.
Qed.

Lemma set_nth_set_nth (A : Type) (xs : list A) (n : nat) (x y : A) :
  set_nth n x (set_nth n y xs) = set_nth n x xs.
Proof.
  revert n. induction xs as [|a xs IH]; intros [|n]; simpl; try reflexivity.
  now rewrite IH.
Qed.

Lemma ready_after_count (lid : nat) (w : world) :
  ready lid (after_count w) = ready lid w.
Proof.
  unfold after_count, ready. destruct (_ =? 0); [|reflexivity].
  cbn [log with_log with_counters]. rewrite filter_app. simpl.
  now rewrite app_nil_r.
Qed.

Lemma loaders_after_count (w : world) : loaders (after_count w) = loaders w.
Proof. unfold after_count. destruct (_ =? 0); reflexivity. Qed.

Lemma loaders_after_settle (w : world) (lid i : nat) (st : img_state)
      (l : loader) (img : image) :
  nth_error (loaders w) lid = Some l -> nth_error (l_images l) i = Some img ->
  loaders (after_incr lid (settle lid i st w)) =
  set_nth lid
          (with_imagesLoaded (l_imagesLoaded l + 1)
             (with_images (set_nth i (Image (src img) st) (l_images l)) l))
          (loaders w).
Proof.
  intros Hl Hi. unfold settle. rewrite Hl, Hi. unfold after_incr.
  cbn [loaders with_loaders].
  rewrite (@nth_error_set_nth_eq _ _ _ _ _ Hl). cbn [loaders with_loaders].
  now rewrite set_nth_set_nth.
Qed.

Lemma settled_set_nth (imgs : list image) (i : nat) (img : image) (st : img_state) :
  nth_error imgs i = Some img -> status img = Pending -> st <> Pending ->
  settled (set_nth i (Image (src img) st) imgs) = (settled imgs + 1)%nat.
Proof.
  intros Hi Hs Hst. unfold settled. rewrite map_set_nth.
  assert (Hi' : nth_error (map settled_img imgs) i = Some (settled_img img))
    by now rewrite nth_error_map, Hi.
  pose proof (@list_sum_set_nth (map settled_img imgs) i
                (settled_img (Image (src img) st)) _ Hi') as H.
  assert (Hold : settled_img img = 0%nat) by (unfold settled_img; now rewrite Hs).
  assert (Hnew : settled_img (Image (src img) st) = 1%nat)
    by (unfold settled_img; destruct st; simpl; congruence).
  rewrite Hold, Hnew in H. rewrite Hnew. lia.
Qed.

(** A handler that, after the two counter updates, only checks whether all
    the images are in keeps the invariant. *)
Lemma ready_inv_settled (w w' : world) (lid i : nat) (st : img_state) :
  is_pending w lid i = true -> st <> Pending -> ready_inv w ->
  let w3 := after_count (after_incr lid (settle lid i st w)) in
  (forall l2, nth_error (loaders w3) lid = Some l2 -> l_images l2 <> [] ->
     obs_ready lid w' =
     (loaders w3,
      ready lid w3 ++ if l_imagesLoaded l2 =? l_frameCount l2
                      then [Call_initCanvasAnimations lid] else [])) ->
  (forall lid0, lid0 <> lid -> obs_ready lid0 w' = obs_ready lid0 w3) ->
  ready_inv w'.
Proof.
  intros Hp Hst Hinv w3 Hsame Hother.
  destruct (is_pending_inv w lid i Hp) as (l & img & Hl & Hi & Hs).
  set (imgs' := set_nth i (Image (src img) st) (l_images l)).
  set (l2 := with_imagesLoaded (l_imagesLoaded l + 1) (with_images imgs' l)).
  assert (Hls : loaders w3 = set_nth lid l2 (loaders w)).
  { unfold w3. rewrite loaders_after_count. apply (@loaders_after_settle w lid i st l img Hl Hi). }
  assert (Hrd : forall lid0, ready lid0 w3 = ready lid0 w).
  { intros lid0. unfold w3. rewrite ready_after_count. unfold ready.
    destruct (after_incr_frame lid (settle lid i st w)) as (_ & _ & ->).
    destruct (settle_frame lid i st w) as (_ & _ & ->). reflexivity. }
  assert (Hlen : List.length imgs' = List.length (l_images l))
    by apply length_set_nth.
  assert (Hpos : (0 < List.length (l_images l))%nat).
  { destruct (l_images l); [destruct i; discriminate | simpl; lia]. }
  intros lid0. destruct (Nat.eq_dec lid0 lid) as [->|Hne].
  - assert (Hl2 : nth_error (loaders w3) lid = Some l2)
      by (rewrite Hls; apply (@nth_error_set_nth_eq _ _ _ _ _ Hl)).
    rewrite (Hsame l2 Hl2).
    2:{ cbn [l2 l_images with_imagesLoaded with_images]. intros E.
        rewrite E in Hlen. simpl in Hlen. lia. }
    unfold ready_inv_at. cbn [fst snd]. rewrite Hl2, Hrd.
    specialize (Hinv lid). unfold ready_inv_at, obs_ready in Hinv.
    cbn [fst snd] in Hinv. rewrite Hl in Hinv.
    destruct Hinv as (Hcount & Hlength & Hnz & Hready).
    pose proof (settled_pending (l_images l)) as Hsp.
    assert (Hpend : (1 <= list_sum (map pending_img (l_images l)))%nat).
    { assert (Hi' : nth_error (map pending_img (l_images l)) i = Some 1%nat).
      { rewrite nth_error_map, Hi. simpl. unfold pending_img. now rewrite Hs. }
      clear - Hi'. revert i Hi'.
      induction (map pending_img (l_images l)) as [|a xs IH]; intros [|i] H;
        simpl in *; try discriminate.
      - injection H as ->. lia.
      - specialize (IH i H). lia. }
    assert (Hnot : (l_imagesLoaded l =? l_frameCount l) = false).
    { apply Z.eqb_neq. lia. }
    rewrite Hnot in Hready. rewrite Hready. cbn [app].
    unfold loader_ok.
    cbn [l2 l_images l_imagesLoaded l_frameCount with_imagesLoaded with_images].
    unfold imgs'. rewrite (@settled_set_nth _ _ _ st Hi Hs Hst), length_set_nth.
    repeat split; try assumption. lia.
  - rewrite (Hother lid0 Hne). unfold ready_inv_at, obs_ready. cbn [fst snd].
    rewrite Hls, (@nth_error_set_nth_neq _ _ _ _ _ (not_eq_sym Hne)), Hrd.
    exact (Hinv lid0).
Qed.

Lemma filter_call_requests_of (lid : nat) (ls : list loader) :
  filter (is_call_of lid) (requests_of ls) = [].
Proof.
  unfold requests_of. induction ls as [|l ls IH]; [reflexivity|].
  cbn [flat_map]. rewrite filter_app, IH, app_nil_r.
  induction (l_images l) as [|img imgs IHi]; [reflexivity | exact IHi].
Qed.

(** A closure as [initSection] creates it: nothing counted, nothing
    settled, as many images as its frame count says, which is not 0. *)
Lemma new_loader_fresh (device : string) (doc : list section) (l : loader) :
  In l (flat_map (section_loader device) doc) ->
  l_imagesLoaded l = 0 /\ settled (l_images l) = 0%nat /\
  List.length (l_images l) = Z.to_nat (l_frameCount l) /\ l_frameCount l <> 0.
Proof.
  intros H. apply in_flat_map in H. destruct H as (sec & _ & H).
  unfold section_loader in H. destruct (skipped sec) eqn:Hs; [destruct H|].
  destruct (not_skipped_parts sec Hs) as (cv & p & s & n & Hc & Hp & Hx & Hf & Hn).
  rewrite Hc, Hp, Hx, Hf in H. destruct H as [<-|[]].
  cbn [l_imagesLoaded l_images l_frameCount].
  destruct (load_frames_pending p device s (Z.to_nat n) 0) as [Hpend Hlen].
  pose proof (settled_pending (load_frames p device s (Z.to_nat n) 0)) as Hsp.
  repeat split; try assumption. lia.
Qed.

Lemma ready_inv_initSections (w : world) :
  ready_inv w -> ready_inv (run_callback initSections w).
Proof.
  intros Hinv lid.
  destruct (initSections_adds w) as (_ & _ & Hl & Hlog & _).
  specialize (Hinv lid). unfold ready_inv_at, obs_ready, ready in *.
  cbn [fst snd] in *. rewrite Hl, Hlog, filter_app, filter_call_requests_of, app_nil_r.
  destruct (nth_error (loaders w) lid) as [l|] eqn:Hold.
  - rewrite nth_error_app1 by (apply nth_error_Some; congruence).
    now rewrite Hold.
  - apply nth_error_None in Hold. rewrite nth_error_app2 by exact Hold.
    destruct (nth_error _ (lid - List.length (loaders w))) as [l|] eqn:Hnew;
      [|exact Hinv].
    apply nth_error_In, new_loader_fresh in Hnew.
    destruct Hnew as (H0 & Hs & Hlen & Hnz).
    unfold loader_ok. rewrite H0, Hs.
    assert (Hne : (0 =? l_frameCount l) = false) by (apply Z.eqb_neq; lia).
    rewrite Hne. repeat split; assumption.
Qed.

Lemma ready_inv_step (w : world) (ev : event) :
  ready_inv w -> ready_inv (step w ev).
Proof.
  intros Hinv.
  assert (Hsame : (forall lid, obs_ready lid (step w ev) = obs_ready lid w) ->
                  ready_inv (step w ev)).
  { intros H lid. rewrite H. apply Hinv. }
  destruct ev as [|lid i nw nh|lid i|k p|cw|y|cv pw ph];
    try (apply Hsame; intros lid0; apply step_passive; auto with obs; fail);
    cbn [step].
  - now apply ready_inv_initSections.
  - destruct (is_pending w lid i) eqn:Hp; [|exact Hinv].
    apply (@ready_inv_settled w _ lid i (Available nw nh) Hp); try assumption;
      [discriminate| |].
    + intros l2 Hl2 Hne.
      rewrite run_callback_obs by auto with obs.
      rewrite onload_run. now apply ready_onload_tail.
    + intros lid0 Hne. apply step_loaded; auto with obs.
  - destruct (is_pending w lid i) eqn:Hp; [|exact Hinv].
    apply (@ready_inv_settled w _ lid i Broken Hp); try assumption;
      [discriminate| |].
    + intros l2 Hl2 Hne.
      rewrite run_callback_obs by auto with obs.
      rewrite onerror_run. now apply ready_when_all_loaded.
    + intros lid0 Hne. apply step_errored; auto with obs.
Qed.

Lemma ready_inv_run (evs : list event) (w : world) :
  ready_inv w -> ready_inv (run evs w).
Proof.
  revert w. induction evs as [|ev evs IH]; intros w H; [exact H|].
  apply IH, ready_inv_step, H.
Qed.

(** C4: a section with a positive frame count [N].  At every point of
    every execution, whatever the order in which the loads and errors of its
    images arrive, the closure of the section holds [N] images, its count is
    the number of requests that have settled, a failed one counting like a
    successful one, and [initCanvasAnimations] has been entered for it
    exactly once if all [N] have settled and not at all before that. *)
Theorem ready_fires_once
  (doc : list section) (cvs : list canvas) (cw : Z) (y : num)
  (evs : list event) (lid : nat) (l : loader) :
  let w := run evs (script_load doc cvs cw y) in
  nth_error (loaders w) lid = Some l ->
  0 < l_frameCount l ->
  List.length (l_images l) = Z.to_nat (l_frameCount l) /\
  l_imagesLoaded l = Z.of_nat (settled (l_images l)) /\
  ready lid w =
    if (settled (l_images l) =? List.length (l_images l))%nat
    then [Call_initCanvasAnimations lid] else [].
Proof.
  intros w Hl Hpos.
  assert (Hinv : ready_inv w).
  { apply ready_inv_run, ready_inv_initSections. intros k.
    unfold ready_inv_at. simpl. destruct k; reflexivity. }
  specialize (Hinv lid). unfold ready_inv_at, obs_ready in Hinv.
  cbn [fst snd] in Hinv. rewrite Hl in Hinv.
  destruct Hinv as (Hcount & Hlen & _ & Hready).
  repeat split; try assumption.
  rewrite Hready, Hcount, Hlen.
  destruct (Z.of_nat (settled (l_images l)) =? l_frameCount l) eqn:E.
  - apply Z.eqb_eq in E.
    replace (settled (l_images l) =? Z.to_nat (l_frameCount l))%nat with true
      by (symmetry; apply Nat.eqb_eq; lia).
    reflexivity.
  - apply Z.eqb_neq in E.
    replace (settled (l_images l) =? Z.to_nat (l_frameCount l))%nat with false
      by (symmetry; apply Nat.eqb_neq; lia).
    reflexivity.
Qed.

(** The example of the specification: five frames, three loads and two
    errors.  Nothing is signalled after four completions; the signal has
    been given once after the fifth. *)
Lemma ready_fires_once_example :
  let sec := Wrapper (Some "/img/"%string) (Some ".jpg"%string) (Some (Int 5)) (Some 0%nat) [] in
  let w0 := script_load [sec] [Canvas 0 0 800 600 [] []] 1024 zero in
  let four := [Load 0 3 400 300; Error 0 1; Load 0 0 400 300; Error 0 4] in
  ready 0 (run four w0) = [] /\
  ready 0 (run (four ++ [Load 0 2 400 300]) w0) = [Call_initCanvasAnimations 0].
Proof.
  intros sec w0 four. split.
  - exact (proj2 (proj2 (@ready_fires_once [sec] [Canvas 0 0 800 600 [] []] 1024 zero
                           four 0 _ eq_refl eq_refl))).
  - exact (proj2 (proj2 (@ready_fires_once [sec] [Canvas 0 0 800 600 [] []] 1024 zero
                           (four ++ [Load 0 2 400 300]) 0 _ eq_refl eq_refl))).
Defined.

(** * Further properties of the script *)

(** ** The guard of [initSections] *)

Lemma falsy_str_iff (s : option string) :
  falsy_str s = true <-> s = None \/ s = Some EmptyString.
Proof.
  destruct s as [[|c s]|]; simpl; split; intros H;
    try discriminate; auto;
    destruct H as [H|H]; discriminate.
Qed.

Lemma falsy_int_iff (a : int) :
  falsy_int a = true <-> a = NaN \/ a = Int 0.
Proof.
  destruct a as [|z]; simpl; split; intros H; auto.
  - apply Z.eqb_eq in H. subst. auto.
  - destruct H as [H|H]; [discriminate|]. injection H as ->. reflexivity.
Qed.

(** X1: the guard of [initSections] skips a section exactly when it has no
    canvas, when its prefix or its suffix is missing or empty, or when its
    frame count is missing, not a number, or 0.  A skipped section leaves the
    page as it was; any other section gets one more closure, and both
    counters move by its frame count. *)
Theorem guard_skips_exactly (sec : section) :
  (skipped sec = true <->
   s_canvas sec = None \/
   (s_prefix sec = None \/ s_prefix sec = Some EmptyString) \/
   (s_suffix sec = None \/ s_suffix sec = Some EmptyString) \/
   (Number (s_framecount sec) = NaN \/ Number (s_framecount sec) = Int 0)) /\
  (skipped sec = true -> forall w, initSection sec w = (Normal tt, w)) /\
  (skipped sec = false ->
   forall w, exists l frames,
     loaders (snd (initSection sec w)) = loaders w ++ [l] /\
     l_section l = sec /\ l_frameCount l = frames /\ frames <> 0 /\
     globalImagesRemaining (snd (initSection sec w)) = globalImagesRemaining w + frames /\
     totalImagesCount (snd (initSection sec w)) = totalImagesCount w + frames).
Proof.
  split; [|split].
  - unfold skipped. rewrite !orb_true_iff, !falsy_str_iff, falsy_int_iff.
    destruct (s_canvas sec); split; intros H.
    + destruct H as [[[H|H]|H]|H]; [discriminate|auto..].
    + destruct H as [H|[H|[H|H]]]; [discriminate|auto..].
    + auto.
    + auto.
  - intros H w. now apply initSection_skipped.
  - intros Hs w.
    destruct (not_skipped_parts sec Hs) as (cv & p & s & n & Hc & Hp & Hx & Hf & Hn).
    destruct (initSection_adds sec w) as (_ & _ & _ & Hl & _ & Hr & Ht).
    unfold section_loader in *. rewrite Hs, Hc, Hp, Hx, Hf in *.
    cbn [Number frames_of fold_right l_frameCount] in *.
    eexists. exists n. split; [exact Hl|].
    repeat split; try assumption; lia.
Qed.

Lemma guard_skips_exactly_witness :
  let empty_prefix := Wrapper (Some EmptyString) (Some ".jpg"%string) (Some (Int 6)) (Some 0%nat) [] in
  let zero_frames := Wrapper (Some "/img/"%string) (Some ".jpg"%string) (Some (Int 0)) (Some 0%nat) [] in
  let w := World 1024 0 0 1024 zero [empty_prefix; zero_frames]
                 [Canvas 0 0 800 600 [] []] [] [] [] in
  initSection empty_prefix w = (Normal tt, w) /\
  initSection zero_frames w = (Normal tt, w).
Proof.
  intros empty_prefix zero_frames w. split.
  - apply (proj1 (proj2 (guard_skips_exactly empty_prefix)) eq_refl).
  - apply (proj1 (proj2 (guard_skips_exactly zero_frames)) eq_refl).
Defined.

(** ** A completion that is not the last one *)

Lemma is_pending_intro (w : world) (lid i : nat) (l : loader) (img : image) :
  nth_error (loaders w) lid = Some l -> nth_error (l_images l) i = Some img ->
  status img = Pending -> is_pending w lid i = true.
Proof. intros Hl Hi Hs. unfold is_pending. now rewrite Hl, Hi, Hs. Qed.

Lemma settle_rest (lid i : nat) (st : img_state) (w : world) :
  heap (settle lid i st w) = heap w /\ canvases (settle lid i st w) = canvases w.
Proof.
  unfold settle. destruct (nth_error (loaders w) lid) as [l|];
    [destruct (nth_error (l_images l) i)|]; split; reflexivity.
Qed.

Lemma after_incr_rest (lid : nat) (w : world) :
  heap (after_incr lid w) = heap w /\ canvases (after_incr lid w) = canvases w.
Proof.
  unfold after_incr. destruct (nth_error (loaders w) lid); split; reflexivity.
Qed.

Lemma after_count_rest (w : world) :
  heap (after_count w) = heap w /\ canvases (after_count w) = canvases w /\
  log (after_count w) =
    log w ++ (if globalImagesRemaining w - 1 =? 0
              then [SetTimeout LenisResize 500] else []).
Proof.
  unfold after_count. destruct (_ =? 0); cbn [heap canvases log with_log with_counters];
    rewrite ?app_nil_r; repeat split; reflexivity.
Qed.

(** The page after a pending request has settled and its handler has
    updated the two counters. *)
Lemma settled_page (w : world) (lid i : nat) (st : img_state) (l : loader) (img : image) :
  nth_error (loaders w) lid = Some l -> nth_error (l_images l) i = Some img ->
  let w3 := after_count (after_incr lid (settle lid i st w)) in
  loaders w3 =
    set_nth lid
            (with_imagesLoaded (l_imagesLoaded l + 1)
               (with_images (set_nth i (Image (src img) st) (l_images l)) l))
            (loaders w) /\
  heap w3 = heap w /\ canvases w3 = canvases w /\
  log w3 = log w ++ (if globalImagesRemaining w - 1 =? 0
                     then [SetTimeout LenisResize 500] else []).
Proof.
  intros Hl Hi w3. unfold w3.
  destruct (after_count_rest (after_incr lid (settle lid i st w))) as (-> & -> & ->).
  destruct (after_incr_rest lid (settle lid i st w)) as (-> & ->).
  destruct (settle_rest lid i st w) as (-> & ->).
  destruct (after_incr_frame lid (settle lid i st w)) as (-> & _ & ->).
  destruct (settle_frame lid i st w) as (-> & _ & ->).
  rewrite loaders_after_count, (@loaders_after_settle w lid i st l img Hl Hi).
  repeat split; reflexivity.
Qed.

(** X2: a load or an error that is not the last completion of its closure
    (the count it reaches is not the frame count).  Nothing is animated,
    no exception is reported and no sequence object is created: the log grows
    by the resize timer at most, when the global counter reaches 0.  An error
    leaves every canvas as it was, and so does the load of any frame but the
    first; the load of the first frame renders frame 0 at once. *)
Theorem completion_before_the_last
  (w : world) (lid i : nat) (l : loader) (img : image) (c : canvas) (nw nh : N) :
  nth_error (loaders w) lid = Some l ->
  nth_error (l_images l) i = Some img -> status img = Pending ->
  nth_error (canvases w) (l_canvas l) = Some c ->
  l_imagesLoaded l + 1 <> l_frameCount l ->
  let images' := set_nth i (Image (src img) (Available nw nh)) (l_images l) in
  let timer := if globalImagesRemaining w - 1 =? 0
               then [SetTimeout LenisResize 500] else [] in
  let loaded := step w (Load lid i nw nh) in
  let failed := step w (Error lid i) in
  (heap loaded = heap w /\ log loaded = log w ++ timer /\
   canvases loaded =
     if Nat.eqb i 0
     then set_nth (l_canvas l) (snd (render images' (Sequence (Int 0)) c)) (canvases w)
     else canvases w) /\
  (heap failed = heap w /\ log failed = log w ++ timer /\
   canvases failed = canvases w).
Proof.
  intros Hl Hi Hs Hc Hnot images' timer loaded failed.
  pose proof (is_pending_intro w lid i Hl Hi Hs) as Hp.
  assert (Hne : (l_imagesLoaded l + 1 =? l_frameCount l) = false)
    by now apply Z.eqb_neq.
  split.
  - destruct (@settled_page w lid i (Available nw nh) l img Hl Hi)
      as (Hls & Hh & Hcs & Hlog).
    set (w3 := after_count (after_incr lid (settle lid i (Available nw nh) w))) in *.
    set (l2 := with_imagesLoaded (l_imagesLoaded l + 1) (with_images images' l)).
    assert (Hl2 : nth_error (loaders w3) lid = Some l2)
      by (rewrite Hls; apply (@nth_error_set_nth_eq _ _ _ _ _ Hl)).
    assert (E : onload lid i (settle lid i (Available nw nh) w) =
                (Normal tt,
                 if Nat.eqb i 0
                 then with_canvases
                        (set_nth (l_canvas l)
                                 (snd (render images' (Sequence (Int 0)) c))
                                 (canvases w3)) w3
                 else w3)).
    { rewrite onload_run. fold w3. unfold onload_tail.
      destruct (Nat.eqb i 0) eqn:Hi0.
      - apply Nat.eqb_eq in Hi0. subst i.
        assert (Hfirst : array_get images' (Int 0) =
                         Some (Image (src img) (Available nw nh))).
        { unfold array_get. simpl. apply (@nth_error_set_nth_eq _ _ _ _ _ Hi). }
        unfold bind, render_with. rewrite Hl2, Hcs.
        change (l_canvas l2) with (l_canvas l). change (l_images l2) with images'.
        rewrite Hc, (render_found images' (Sequence (Int 0)) c Hfirst).
        cbn [snd].
        rewrite (when_all_loaded_run lid _ (l:=l2)) by exact Hl2.
        change (l_imagesLoaded l2) with (l_imagesLoaded l + 1).
        change (l_frameCount l2) with (l_frameCount l).
        rewrite Hne. reflexivity.
      - unfold bind, ret.
        rewrite (when_all_loaded_run lid _ (l:=l2)) by exact Hl2.
        change (l_imagesLoaded l2) with (l_imagesLoaded l + 1).
        change (l_frameCount l2) with (l_frameCount l).
        rewrite Hne. reflexivity. }
    subst loaded. cbn [step]. rewrite Hp. unfold run_callback. rewrite E.
    destruct (Nat.eqb i 0); cbn [heap log canvases with_canvases];
      rewrite ?Hh, ?Hlog, ?Hcs; repeat split; reflexivity.
  - destruct (@settled_page w lid i Broken l img Hl Hi) as (Hls & Hh & Hcs & Hlog).
    set (w3 := after_count (after_incr lid (settle lid i Broken w))) in *.
    set (l2 := with_imagesLoaded (l_imagesLoaded l + 1)
                 (with_images (set_nth i (Image (src img) Broken) (l_images l)) l)).
    assert (Hl2 : nth_error (loaders w3) lid = Some l2)
      by (rewrite Hls; apply (@nth_error_set_nth_eq _ _ _ _ _ Hl)).
    assert (E : onerror lid i (settle lid i Broken w) = (Normal tt, w3)).
    { rewrite onerror_run. fold w3.
      rewrite (when_all_loaded_run lid _ (l:=l2)) by exact Hl2.
      change (l_imagesLoaded l2) with (l_imagesLoaded l + 1).
      change (l_frameCount l2) with (l_frameCount l).
      rewrite Hne. reflexivity. }
    subst failed. cbn [step]. rewrite Hp. unfold run_callback. rewrite E.
    repeat split; assumption.
Qed.

Lemma completion_before_the_last_witness :
  let sec := Wrapper (Some "/img/"%string) (Some ".jpg"%string) (Some (Int 3)) (Some 0%nat) [] in
  let w := script_load [sec] [Canvas 0 0 800 600 [] []] 1024 zero in
  (heap (step w (Load 0 0 400 300)) = [] /\
   log (step w (Load 0 0 400 300)) = log w ++ [] /\
   List.length (c_shown (nth 0 (canvases (step w (Load 0 0 400 300)))
                             (Canvas 0 0 0 0 [] []))) = 1%nat) /\
  canvases (step w (Error 0 0)) = canvases w.
Proof.
  intros sec w.
  destruct (@completion_before_the_last w 0 0 _ _ _ 400 300
              eq_refl eq_refl eq_refl eq_refl ltac:(discriminate))
    as [(H1 & H2 & H3) (_ & _ & H4)].
  split; [|exact H4].
  split; [exact H1|]. split; [exact H2|].
  rewrite H3. reflexivity.
Defined.

(** ** The balance of the counters *)

Lemma obs_balance_ignores (e : effect) : ignores obs_balance e.
Proof. intros w. reflexivity. Qed.

Lemma obs_balance_canvas_free : canvas_free obs_balance.
Proof. intros cs w. reflexivity. Qed.

Lemma obs_balance_heap_free : heap_free obs_balance.
Proof. intros h w. reflexivity. Qed.

Lemma obs_balance_client_free (cw : Z) : modify_free obs_balance (with_clientWidth cw).
Proof. intros w. reflexivity. Qed.

Lemma obs_balance_scroll_free (y : num) : modify_free obs_balance (with_scrollY y).
Proof. intros w. reflexivity. Qed.

#[local] Hint Resolve obs_balance_ignores obs_balance_canvas_free
  obs_balance_heap_free obs_balance_client_free obs_balance_scroll_free : obs.

Lemma balanced_obs (w w' : world) :
  obs_balance w' = obs_balance w -> balanced w -> balanced w'.
Proof. unfold obs_balance, balanced. intros H. injection H as -> -> ->. trivial. Qed.

Lemma settled_total_app (xs ys : list loader) :
  settled_total (xs ++ ys) = (settled_total xs + settled_total ys)%nat.
Proof. unfold settled_total. now rewrite map_app, list_sum_app. Qed.

Lemma new_loaders_unsettled (device : string) (doc : list section) :
  settled_total (flat_map (section_loader device) doc) = 0%nat.
Proof.
  assert (H : forall ls, (forall l, In l ls -> settled (l_images l) = 0%nat) ->
                         settled_total ls = 0%nat).
  { unfold settled_total. induction ls as [|l ls IH]; intros Hall; [reflexivity|].
    simpl. rewrite (Hall l (or_introl eq_refl)), IH; [reflexivity|].
    intros l' Hl'. apply Hall. now right. }
  apply H. intros l Hl. now apply new_loader_fresh in Hl.
Qed.

Lemma frames_of_set_nth (ls : list loader) (n : nat) (l l' : loader) :
  nth_error ls n = Some l -> l_frameCount l' = l_frameCount l ->
  frames_of (set_nth n l' ls) = frames_of ls.
Proof.
  revert n. induction ls as [|a ls IH]; intros [|n] H Hf; simpl in *;
    try discriminate.
  - injection H as ->. lia.
  - now rewrite (IH n).
Qed.

Lemma balanced_initSections (w : world) :
  balanced w -> balanced (run_callback initSections w).
Proof.
  intros [Ht Hr].
  destruct (initSections_adds w) as (_ & _ & Hl & _ & Hrem & Htot).
  unfold balanced.
  rewrite Hl, Hrem, Htot, frames_of_app, settled_total_app, new_loaders_unsettled.
  split; lia.
Qed.

Lemma balanced_settled (w : world) (lid i : nat) (st : img_state) :
  is_pending w lid i = true -> st <> Pending -> balanced w ->
  balanced (after_count (after_incr lid (settle lid i st w))).
Proof.
  intros Hp Hst [Ht Hr].
  destruct (is_pending_inv w lid i Hp) as (l & img & Hl & Hi & Hs).
  destruct (@settled_page w lid i st l img Hl Hi) as (Hls & _).
  unfold balanced. rewrite Hls.
  assert (Hc : globalImagesRemaining (after_count (after_incr lid (settle lid i st w))) =
               globalImagesRemaining w - 1 /\
               totalImagesCount (after_count (after_incr lid (settle lid i st w))) =
               totalImagesCount w).
  { destruct (after_incr_frame lid (settle lid i st w)) as (H1 & H2 & _).
    destruct (settle_frame lid i st w) as (H3 & H4 & _).
    unfold after_count.
    destruct (_ =? 0); cbn [globalImagesRemaining totalImagesCount with_log with_counters];
      rewrite H1, H2, H3, H4; split; reflexivity. }
  destruct Hc as [-> ->].
  rewrite (@frames_of_set_nth _ _ l _ Hl) by reflexivity.
  unfold settled_total in *. rewrite map_set_nth.
  cbn [l_images with_imagesLoaded with_images].
  assert (Hl' : nth_error (map (fun x => settled (l_images x)) (loaders w)) lid =
                Some (settled (l_images l))) by now rewrite nth_error_map, Hl.
  pose proof (@list_sum_set_nth _ lid
                (settled (set_nth i (Image (src img) st) (l_images l))) _ Hl') as Hsum.
  rewrite (@settled_set_nth _ _ _ st Hi Hs Hst) in Hsum |- *.
  split; lia.
Qed.

Lemma balanced_step (w : world) (ev : event) : balanced w -> balanced (step w ev).
Proof.
  intros Hb.
  destruct ev as [|lid i nw nh|lid i|k p|cw|y|cv pw ph];
    try (apply (@balanced_obs w); [apply step_passive; auto with obs; fail | exact Hb]);
    cbn [step].
  - now apply balanced_initSections.
  - destruct (is_pending w lid i) eqn:Hp; [|exact Hb].
    apply (@balanced_obs (after_count (after_incr lid (settle lid i (Available nw nh) w)))).
    + apply step_loaded; auto with obs.
    + apply balanced_settled; [assumption | discriminate | assumption].
  - destruct (is_pending w lid i) eqn:Hp; [|exact Hb].
    apply (@balanced_obs (after_count (after_incr lid (settle lid i Broken w)))).
    + apply step_errored; auto with obs.
    + apply balanced_settled; [assumption | discriminate | assumption].
Qed.

Lemma balanced_run (evs : list event) (w : world) :
  balanced w -> balanced (run evs w).
Proof.
  revert w. induction evs as [|ev evs IH]; intros w H; [exact H|].
  apply IH, balanced_step, H.
Qed.

(** X3: at every point of every execution, whatever the frame counts of the
    document and however often the sections have been initialised, the total
    counter is the sum of the frame counts of all closures and the remaining
    counter is the total less the number of requests that have settled:
    every load and every error takes exactly one off, and nothing else changes
    the counters. *)
Theorem counters_balance
  (doc : list section) (cvs : list canvas) (cw : Z) (y : num) (evs : list event) :
  let w := run evs (script_load doc cvs cw y) in
  totalImagesCount w = frames_of (loaders w) /\
  globalImagesRemaining w = totalImagesCount w - Z.of_nat (settled_total (loaders w)).
Proof.
  intros w.
  assert (H : balanced w).
  { apply balanced_run, balanced_initSections. split; reflexivity. }
  destruct H as [Ht Hr]. split; [exact Ht | now rewrite Ht].
Qed.

(** ** Repeated initialisation *)

Lemma obs_page_ignores (e : effect) : ignores obs_page e.
Proof. intros w. reflexivity. Qed.

Lemma obs_page_canvas_free : canvas_free obs_page.
Proof. intros cs w. reflexivity. Qed.

Lemma obs_page_heap_free : heap_free obs_page.
Proof. intros h w. reflexivity. Qed.

Lemma obs_page_client_free (cw : Z) : modify_free obs_page (with_clientWidth cw).
Proof. intros w. reflexivity. Qed.

Lemma obs_page_scroll_free (y : num) : modify_free obs_page (with_scrollY y).
Proof. intros w. reflexivity. Qed.

#[local] Hint Resolve obs_page_ignores obs_page_canvas_free
  obs_page_heap_free obs_page_client_free obs_page_scroll_free : obs.

Lemma obs_page_initSection (sec : section) : unchanged obs_page (initSection sec).
Proof.
  intros w. destruct (skipped sec) eqn:Hs.
  - now rewrite initSection_skipped.
  - destruct (not_skipped_parts sec Hs) as (cv & p & s & n & Hc & Hp & Hx & Hf & _).
    rewrite (initSection_not_skipped sec w Hs Hc Hp Hx Hf).
    destruct (initCanvas_effect sec cv p s n (device_of (viewportWidth w))
                (with_counters (globalImagesRemaining w + n) (totalImagesCount w + n) w))
      as (_ & H2 & _ & _ & _ & H5 & _).
    unfold obs_page. now rewrite H2, H5.
Qed.

Lemma obs_page_settle (lid i : nat) (st : img_state) (w : world) :
  obs_page (after_count (after_incr lid (settle lid i st w))) = obs_page w.
Proof.
  unfold after_count, after_incr, settle.
  destruct (nth_error (loaders w) lid) as [l|] eqn:Hl.
  - destruct (nth_error (l_images l) i) as [img|]; cbn [loaders with_loaders];
      [rewrite (@nth_error_set_nth_eq _ _ _ _ _ Hl) | rewrite Hl];
      destruct (_ =? 0); reflexivity.
  - rewrite Hl. destruct (_ =? 0); reflexivity.
Qed.

(** No event changes the document or the captured width. *)
Lemma obs_page_step (w : world) (ev : event) : obs_page (step w ev) = obs_page w.
Proof.
  destruct ev as [|lid i nw nh|lid i|k p|cw|y|cv pw ph];
    try (apply step_passive; auto with obs; fail); cbn [step].
  - rewrite run_callback_obs by auto with obs.
    unfold initSections. apply unchanged_bind; [apply unchanged_get|].
    intros doc. apply unchanged_forEach, obs_page_initSection.
  - destruct (is_pending w lid i); [|reflexivity].
    rewrite step_loaded by auto with obs. apply obs_page_settle.
  - destruct (is_pending w lid i); [|reflexivity].
    rewrite step_errored by auto with obs. apply obs_page_settle.
Qed.

Lemma concat_repeat_snoc (A : Type) (xs : list A) (k : nat) :
  List.concat (repeat xs k) ++ xs = List.concat (repeat xs (S k)).
Proof.
  induction k as [|k IH]; simpl; [now rewrite app_nil_r|].
  simpl in IH. now rewrite <- app_assoc, IH.
Qed.

Lemma static_frames_app (xs ys : list (string * string * string * Z * list string)) :
  static_frames (xs ++ ys) = static_frames xs + static_frames ys.
Proof. induction xs as [|x xs IH]; simpl; lia. Qed.

Lemma static_frames_repeat (xs : list (string * string * string * Z * list string)) (k : nat) :
  static_frames (List.concat (repeat xs k)) = Z.of_nat k * static_frames xs.
Proof.
  induction k as [|k IH]; [reflexivity|].
  cbn [repeat List.concat]. rewrite static_frames_app, IH. lia.
Qed.

Lemma frames_of_static (ls : list loader) :
  frames_of ls = static_frames (map loader_static ls).
Proof. induction ls as [|l ls IH]; simpl; [reflexivity | now rewrite IH]. Qed.

(** What [k] initialisations of the document [doc] at the width [cw] leave
    behind. *)
Lemma initialised_run (doc : list section) (cw : Z) (evs : list event) (w : world) (k : nat) :
  let new := flat_map (section_loader (device_of cw)) doc in
  obs_page w = (doc, cw) ->
  map loader_static (loaders w) = List.concat (repeat (map loader_static new) k) ->
  filter is_request (log w) = List.concat (repeat (requests_of new) k) ->
  let w' := run evs w in
  map loader_static (loaders w') =
    List.concat (repeat (map loader_static new) (k + media_changes evs)) /\
  filter is_request (log w') =
    List.concat (repeat (requests_of new) (k + media_changes evs)).
Proof.
  intros new. revert w k. induction evs as [|ev evs IH]; intros w k Hpage Hst Hreq.
  - simpl. unfold media_changes. simpl. rewrite Nat.add_0_r. split; assumption.
  - cbn [run fold_left]. fold (run evs (step w ev)).
    destruct (event_eq_MediaChange ev) as [->|Hev].
    + replace (k + media_changes (MediaChange :: evs))%nat
        with (S k + media_changes evs)%nat by (unfold media_changes; simpl; lia).
      apply IH.
      * now rewrite obs_page_step.
      * cbn [step]. destruct (initSections_adds w) as (_ & _ & Hl & _).
        unfold obs_page in Hpage. injection Hpage as Hd Hv.
        rewrite Hl, Hd, Hv, map_app, Hst. apply concat_repeat_snoc.
      * cbn [step]. destruct (initSections_adds w) as (_ & _ & _ & Hlog & _).
        unfold obs_page in Hpage. injection Hpage as Hd Hv.
        rewrite Hlog, Hd, Hv, filter_app, Hreq, filter_requests_of.
        apply concat_repeat_snoc.
    + replace (k + media_changes (ev :: evs))%nat with (k + media_changes evs)%nat.
      2:{ unfold media_changes. simpl. destruct ev; simpl; congruence. }
      pose proof (obs_static_step w Hev) as Hs. unfold obs_static in Hs.
      injection Hs as _ Hs1 Hs2.
      apply IH; [now rewrite obs_page_step | now rewrite Hs1 | now rewrite Hs2].
Qed.

(** X4: the section initialisation is not idempotent.  Every breakpoint
    change runs it again on the same document with the same captured width:
    after [n] of them, every complete section has [n + 1] closures, each of
    its images has been requested [n + 1] times, and the total counter is
    [n + 1] times the sum of the frame counts. *)
Theorem initialisation_repeats
  (doc : list section) (cvs : list canvas) (cw : Z) (y : num) (evs : list event) :
  let once := flat_map (section_loader (device_of cw)) doc in
  let n := media_changes evs in
  let w := run evs (script_load doc cvs cw y) in
  map loader_static (loaders w) = List.concat (repeat (map loader_static once) (S n)) /\
  filter is_request (log w) = List.concat (repeat (requests_of once) (S n)) /\
  totalImagesCount w = Z.of_nat (S n) * frames_of once.
Proof.
  intros once n w.
  set (w0 := World cw 0 0 cw y doc cvs [] [] []).
  assert (H : map loader_static (loaders w) =
              List.concat (repeat (map loader_static once) (1 + n)) /\
              filter is_request (log w) = List.concat (repeat (requests_of once) (1 + n))).
  { apply (@initialised_run doc cw evs (script_load doc cvs cw y) 1).
    - unfold script_load. fold w0. exact (obs_page_step w0 MediaChange).
    - unfold script_load. fold w0.
      destruct (initSections_adds w0) as (_ & _ & Hl & _).
      rewrite Hl. simpl. now rewrite app_nil_r.
    - unfold script_load. fold w0.
      destruct (initSections_adds w0) as (_ & _ & _ & Hlog & _).
      rewrite Hlog. simpl. rewrite app_nil_r. apply filter_requests_of. }
  destruct H as [H1 H2]. repeat split; try assumption.
  assert (Hb : balanced w).
  { apply balanced_run, balanced_initSections. split; reflexivity. }
  destruct Hb as [Ht _].
  rewrite Ht, frames_of_static, H1, static_frames_repeat, <- frames_of_static.
  reflexivity.
Qed.

(** ** Degenerate frame counts *)

(** X5: a negative frame count passes the guard of [initSections], but the
    closure it gives never gets an image: its loop does not run, no request
    of it can settle, its count stays 0 and never equals the frame count, so
    [initCanvasAnimations] is never entered for it. *)
Theorem negative_count_never_ready
  (doc : list section) (cvs : list canvas) (cw : Z) (y : num)
  (evs : list event) (lid : nat) (l : loader) :
  let w := run evs (script_load doc cvs cw y) in
  nth_error (loaders w) lid = Some l ->
  l_frameCount l < 0 ->
  l_images l = [] /\ l_imagesLoaded l = 0 /\ ready lid w = [].
Proof.
  intros w Hl Hneg.
  assert (Hinv : ready_inv w).
  { apply ready_inv_run, ready_inv_initSections. intros k.
    unfold ready_inv_at. simpl. destruct k; reflexivity. }
  specialize (Hinv lid). unfold ready_inv_at, obs_ready in Hinv.
  cbn [fst snd] in Hinv. rewrite Hl in Hinv.
  destruct Hinv as (Hcount & Hlen & _ & Hready).
  assert (Himgs : l_images l = []).
  { apply length_zero_iff_nil. rewrite Hlen. lia. }
  rewrite Himgs in Hcount. simpl in Hcount.
  repeat split; try assumption.
  rewrite Hready, Hcount.
  replace (0 =? l_frameCount l) with false by (symmetry; apply Z.eqb_neq; lia).
  reflexivity.
Qed.

Lemma negative_count_never_ready_witness :
  let sec := Wrapper (Some "/img/"%string) (Some ".jpg"%string) (Some (Int (-2))) (Some 0%nat) [] in
  let w := run [MediaChange; Resize 500]
               (script_load [sec] [Canvas 0 0 800 600 [] []] 1024 zero) in
  filter is_request (log w) = [] /\ ready 0 w = [] /\ ready 1 w = [] /\
  totalImagesCount w = -4.
Proof.
  intros sec w.
  split; [reflexivity|]. split; [|split; [|reflexivity]].
  - exact (proj2 (proj2 (@negative_count_never_ready [sec] [Canvas 0 0 800 600 [] []]
                           1024 zero [MediaChange; Resize 500] 0 _ eq_refl eq_refl))).
  - exact (proj2 (proj2 (@negative_count_never_ready [sec] [Canvas 0 0 800 600 [] []]
                           1024 zero [MediaChange; Resize 500] 1 _ eq_refl eq_refl))).
Defined.

Lemma timers_after_settle (w : world) (lid i : nat) (st : img_state) :
  filter is_timer (log (after_count (after_incr lid (settle lid i st w)))) =
  filter is_timer (log w) ++
  (if globalImagesRemaining w - 1 =? 0 then [SetTimeout LenisResize 500] else []).
Proof.
  destruct (after_count_rest (after_incr lid (settle lid i st w))) as (_ & _ & ->).
  destruct (after_incr_frame lid (settle lid i st w)) as (-> & _ & ->).
  destruct (settle_frame lid i st w) as (-> & _ & ->).
  rewrite filter_app. f_equal. destruct (_ =? 0); reflexivity.
Qed.

Lemma obs_count_timers (w w' : world) :
  obs_count w' = obs_count w ->
  totalImagesCount w' = totalImagesCount w /\
  filter is_timer (log w') = filter is_timer (log w).
Proof. unfold obs_count. intros H. injection H as _ -> -> _. split; reflexivity. Qed.

(** A page whose total counter is not positive and that has set no timer
    keeps both properties. *)
Lemma frameless_step (doc : list section) (cw : Z) (w : world) (ev : event) :
  frames_of (flat_map (section_loader (device_of cw)) doc) <= 0 ->
  obs_page w = (doc, cw) -> balanced w ->
  totalImagesCount w <= 0 -> filter is_timer (log w) = [] ->
  totalImagesCount (step w ev) <= 0 /\ filter is_timer (log (step w ev)) = [].
Proof.
  intros Hdoc Hpage [Ht Hr] Hle Htim.
  assert (Hsame : obs_count (step w ev) = obs_count w ->
                  totalImagesCount (step w ev) <= 0 /\
                  filter is_timer (log (step w ev)) = []).
  { intros H. destruct (obs_count_timers H) as [-> ->]. split; assumption. }
  assert (Hsettled : forall lid i st,
             filter is_timer (log (after_count (after_incr lid (settle lid i st w)))) = []).
  { intros lid i st. rewrite timers_after_settle, Htim.
    replace (globalImagesRemaining w - 1 =? 0) with false; [reflexivity|].
    symmetry. apply Z.eqb_neq. lia. }
  assert (Htotal : forall lid i st,
             totalImagesCount (after_count (after_incr lid (settle lid i st w))) =
             totalImagesCount w).
  { intros lid i st. unfold after_count.
    destruct (after_incr_frame lid (settle lid i st w)) as (_ & H2 & _).
    destruct (settle_frame lid i st w) as (_ & H4 & _).
    destruct (_ =? 0); cbn [totalImagesCount with_log with_counters];
      now rewrite H2, H4. }
  destruct ev as [|lid i nw nh|lid i|k p|cw'|y|cv pw ph];
    try (apply Hsame, step_passive; auto with obs; fail); cbn [step].
  - destruct (initSections_adds w) as (_ & _ & _ & Hlog & _ & Htot).
    unfold obs_page in Hpage. injection Hpage as Hd Hv.
    rewrite Htot, Hlog, Hd, Hv, filter_app, Htim, filter_timer_requests_of.
    split; [lia | reflexivity].
  - destruct (is_pending w lid i); [|split; assumption].
    assert (Ho : obs_count (run_callback (onload lid i) (settle lid i (Available nw nh) w)) =
                 obs_count (after_count (after_incr lid (settle lid i (Available nw nh) w))))
      by (apply step_loaded; auto with obs).
    destruct (obs_count_timers Ho) as [-> ->].
    rewrite Htotal, Hsettled. split; [assumption | reflexivity].
  - destruct (is_pending w lid i); [|split; assumption].
    assert (Ho : obs_count (run_callback (onerror lid i) (settle lid i Broken w)) =
                 obs_count (after_count (after_incr lid (settle lid i Broken w))))
      by (apply step_errored; auto with obs).
    destruct (obs_count_timers Ho) as [-> ->].
    rewrite Htotal, Hsettled. split; [assumption | reflexivity].
Qed.

Lemma frameless_run (doc : list section) (cw : Z) (evs : list event) (w : world) :
  frames_of (flat_map (section_loader (device_of cw)) doc) <= 0 ->
  obs_page w = (doc, cw) -> balanced w ->
  totalImagesCount w <= 0 -> filter is_timer (log w) = [] ->
  filter is_timer (log (run evs w)) = [].
Proof.
  intros Hdoc. revert w. induction evs as [|ev evs IH]; intros w Hpage Hb Hle Htim;
    [exact Htim|].
  destruct (frameless_step ev Hdoc Hpage Hb Hle Htim) as [Hle' Htim'].
  apply IH; try assumption.
  - now rewrite obs_page_step.
  - now apply balanced_step.
Qed.

(** X6: a page without frames never asks the scroll smoother to resize.  When
    the frame counts of the complete sections add up to 0 or less (no complete
    section at all, or negative counts), the remaining counter is never 0
    right after a decrement, so no resize timer is ever set, however many
    requests settle and however often the sections are initialised. *)
Theorem no_resize_without_frames
  (doc : list section) (cvs : list canvas) (cw : Z) (y : num) (evs : list event) :
  frames_of (flat_map (section_loader (device_of cw)) doc) <= 0 ->
  filter is_timer (log (run evs (script_load doc cvs cw y))) = [].
Proof.
  intros Hdoc.
  set (w0 := World cw 0 0 cw y doc cvs [] [] []).
  assert (Hb0 : balanced w0) by (split; reflexivity).
  destruct (@frameless_step doc cw w0 MediaChange Hdoc eq_refl Hb0 (Z.le_refl 0) eq_refl)
    as [Hle Htim].
  apply (@frameless_run doc cw); try assumption.
  - exact (obs_page_step w0 MediaChange).
  - now apply balanced_initSections.
Qed.

Lemma no_resize_without_frames_witness :
  let gone := Wrapper (Some "/a/"%string) (Some ".jpg"%string) (Some (Int (-1))) (Some 0%nat) [] in
  let one := Wrapper (Some "/b/"%string) (Some ".jpg"%string) (Some (Int 1)) (Some 0%nat) [] in
  let w := run [Load 1 0 400 300]
               (script_load [gone; one] [Canvas 0 0 800 600 [] []] 1024 zero) in
  globalImagesRemaining w = -1 /\ ready 1 w = [Call_initCanvasAnimations 1] /\
  filter is_timer (log w) = [].
Proof.
  intros gone one w. split; [reflexivity|]. split; [reflexivity|].
  apply (@no_resize_without_frames [gone; one] [Canvas 0 0 800 600 [] []] 1024 zero
           [Load 1 0 400 300]).
  vm_compute. discriminate.
Defined.

(** ** Statements and the canvases *)

Section SteppingRules.

Variable R : world -> world -> Prop.
Hypothesis R_refl : forall w, R w w.
Hypothesis R_trans : forall a b c, R a b -> R b c -> R a c.

Lemma steps_ret (A : Type) (a : A) : steps_in R (ret a).
Proof. intros w. apply R_refl. Qed.

Lemma steps_get (A : Type) (g : world -> A) : steps_in R (get g).
Proof. intros w. apply R_refl. Qed.

Lemma steps_bind (A C : Type) (m : M A) (k : A -> M C) :
  steps_in R m -> (forall a, steps_in R (k a)) -> steps_in R (bind m k).
Proof.
  intros Hm Hk w. unfold bind. specialize (Hm w).
  destruct (m w) as [[a|e] w1]; simpl in *.
  - eapply R_trans; [exact Hm | apply Hk].
  - exact Hm.
Qed.

Lemma steps_forEach (A : Type) (g : A -> M unit) (xs : list A) :
  (forall x, steps_in R (g x)) -> steps_in R (forEach g xs).
Proof.
  intros H. induction xs as [|x xs IH]; simpl.
  - apply steps_ret.
  - apply steps_bind; auto.
Qed.

Lemma steps_if (A : Type) (b : bool) (m1 m2 : M A) :
  steps_in R m1 -> steps_in R m2 -> steps_in R (if b then m1 else m2).
Proof. destruct b; auto. Qed.

Hypothesis R_canvas : canvas_only R.
Hypothesis R_render : across_render R.

Lemma steps_modify (g : world -> world) :
  (forall w, canvases (g w) = canvases w) -> steps_in R (modify g).
Proof. intros H w. apply R_canvas, H. Qed.

Lemma steps_emit (e : effect) : steps_in R (emit e).
Proof. apply steps_modify. reflexivity. Qed.

Lemma steps_new_sequence (v : int) : steps_in R (new_sequence v).
Proof. intros w. apply R_canvas. reflexivity. Qed.

Lemma steps_set_frame (addr : nat) (v : int) : steps_in R (set_frame addr v).
Proof. apply steps_modify. reflexivity. Qed.

Lemma steps_render_with (lid : nat) (sq : sequence) : steps_in R (render_with lid sq).
Proof.
  intros w. unfold render_with.
  destruct (nth_error (loaders w) lid) as [l|]; [|apply R_refl].
  destruct (nth_error (canvases w) (l_canvas l)) as [c|] eqn:Hc; [|apply R_refl].
  pose proof (R_render w (l_canvas l) (l_images l) sq Hc) as H.
  destruct (render (l_images l) sq c). exact H.
Qed.

Lemma steps_render_at (lid addr : nat) : steps_in R (render_at lid addr).
Proof.
  intros w. unfold render_at.
  destruct (nth_error (heap w) addr); [apply steps_render_with | apply R_refl].
Qed.

Lemma steps_gsap_to (tw : tween) : steps_in R (gsap_to tw).
Proof.
  unfold gsap_to.
  apply steps_bind; [apply steps_emit|]. intros _.
  apply steps_if; [|apply steps_ret].
  apply steps_bind; [apply steps_set_frame|]. intros _. apply steps_render_at.
Qed.

Lemma steps_bind_block (lid : nat) (b : block) : steps_in R (bind_block lid b).
Proof.
  unfold bind_block.
  apply steps_bind; [apply steps_new_sequence|]. intros addr.
  apply steps_if.
  - apply steps_bind; [apply steps_get|]. intros y.
    apply steps_if.
    + apply steps_bind; [apply steps_get|]. intros cur. apply steps_gsap_to.
    + apply steps_bind; [apply steps_set_frame|]. intros _. apply steps_render_at.
  - apply steps_emit.
Qed.

Lemma steps_initCanvasAnimations (lid : nat) (sec : section) :
  steps_in R (initCanvasAnimations lid sec).
Proof.
  unfold initCanvasAnimations.
  apply steps_bind; [apply steps_emit|]. intros _.
  apply steps_bind; [apply steps_new_sequence|]. intros d.
  apply steps_bind; [apply steps_forEach; intros; apply steps_bind_block|]. intros _.
  apply steps_bind; [apply steps_render_at|]. intros _. apply steps_emit.
Qed.

Lemma steps_when_all_loaded (lid : nat) : steps_in R (when_all_loaded lid).
Proof.
  unfold when_all_loaded. apply steps_bind; [apply steps_get|]. intros [l|].
  - apply steps_if; [apply steps_initCanvasAnimations | apply steps_ret].
  - apply steps_ret.
Qed.

Lemma steps_updateGlobalImageCount : steps_in R updateGlobalImageCount.
Proof.
  unfold updateGlobalImageCount.
  apply steps_bind; [apply steps_modify; reflexivity|]. intros _.
  apply steps_bind; [apply steps_get|]. intros r.
  apply steps_if; [apply steps_emit | apply steps_ret].
Qed.

Lemma steps_incr_imagesLoaded (lid : nat) : steps_in R (incr_imagesLoaded lid).
Proof.
  apply steps_modify. intros w.
  destruct (nth_error (loaders w) lid); reflexivity.
Qed.

Lemma steps_onload (lid i : nat) : steps_in R (onload lid i).
Proof.
  unfold onload.
  apply steps_bind; [apply steps_incr_imagesLoaded|]. intros _.
  apply steps_bind; [apply steps_updateGlobalImageCount|]. intros _.
  apply steps_bind.
  - apply steps_if; [apply steps_render_with | apply steps_ret].
  - intros _. apply steps_when_all_loaded.
Qed.

Lemma steps_onerror (lid i : nat) : steps_in R (onerror lid i).
Proof.
  unfold onerror.
  apply steps_bind; [apply steps_incr_imagesLoaded|]. intros _.
  apply steps_bind; [apply steps_updateGlobalImageCount|]. intros _.
  apply steps_when_all_loaded.
Qed.

(** A callback, with the report of the exception that left it. *)
Lemma steps_run_callback (m : M unit) (w : world) :
  steps_in R m -> R w (run_callback m w).
Proof.
  intros Hm. unfold run_callback. specialize (Hm w).
  destruct (m w) as [[[]|e] w1]; simpl in *; [exact Hm|].
  eapply R_trans; [exact Hm|]. apply R_canvas. reflexivity.
Qed.

(** The events whose callbacks neither resize a canvas nor change a parent
    box: loads, errors, ticks and scrolling. *)
Lemma step_rendering (w : world) (ev : event) :
  match ev with
  | Load _ _ _ _ | Error _ _ | Tick _ _ | Scroll _ => R w (step w ev)
  | _ => True
  end.
Proof.
  destruct ev as [|lid i nw nh|lid i|k p|cw|y|cv pw ph]; trivial; cbn [step].
  - destruct (is_pending w lid i); [|apply R_refl].
    eapply R_trans; [|apply steps_run_callback, steps_onload].
    apply R_canvas. apply settle_rest.
  - destruct (is_pending w lid i); [|apply R_refl].
    eapply R_trans; [|apply steps_run_callback, steps_onerror].
    apply R_canvas. apply settle_rest.
  - destruct (nth_error (log w) k) as [[]|]; try apply R_refl.
    destruct (in_unit_interval p); [|apply R_refl].
    apply steps_run_callback.
    apply steps_bind; [apply steps_set_frame|]. intros _. apply steps_render_at.
  - apply R_canvas. reflexivity.
Qed.

End SteppingRules.

(** ** What the canvases show *)

Lemma Forall_set_nth (A : Type) (P : A -> Prop) (xs : list A) (n : nat) (x : A) :
  Forall P xs -> P x -> Forall P (set_nth n x xs).
Proof.
  intros H Hx. revert n. induction H as [|a xs Ha Hxs IH]; intros [|n]; simpl;
    constructor; auto.
Qed.

Lemma render_tidy (images : list image) (sq : sequence) (c : canvas) :
  tidy (snd (render images sq c)).
Proof.
  unfold tidy. destruct (array_get images (frame sq)) as [img|] eqn:Hget.
  - rewrite (render_found _ _ _ Hget). simpl.
    destruct (paints img _ _ _ _) eqn:Hp; [exact Hp | exact I].
  - rewrite (render_missing _ _ _ Hget). exact I.
Qed.

Lemma keeps_tidy_refl (w : world) : keeps_tidy w w.
Proof. intros H. exact H. Qed.

Lemma keeps_tidy_trans (a b c : world) :
  keeps_tidy a b -> keeps_tidy b c -> keeps_tidy a c.
Proof. unfold keeps_tidy. auto. Qed.

Lemma keeps_tidy_canvas : canvas_only keeps_tidy.
Proof. intros w w' H. unfold keeps_tidy, canvases_tidy. now rewrite H. Qed.

Lemma keeps_tidy_render : across_render keeps_tidy.
Proof.
  intros w cv c images sq _ H. unfold canvases_tidy in *. cbn [canvases with_canvases].
  apply Forall_set_nth; [exact H | apply render_tidy].
Qed.

Lemma keeps_tidy_set_size (w : world) (cv : nat) (c : canvas) (a b : N) :
  keeps_tidy w (with_canvases (set_nth cv (set_size a b c) (canvases w)) w).
Proof.
  intros H. unfold canvases_tidy in *. cbn [canvases with_canvases].
  apply Forall_set_nth; [exact H | exact I].
Qed.

Lemma keeps_tidy_initSection (sec : section) : steps_in keeps_tidy (initSection sec).
Proof.
  intros w. destruct (skipped sec) eqn:Hs.
  - rewrite initSection_skipped by assumption. apply keeps_tidy_refl.
  - destruct (not_skipped_parts sec Hs) as (cv & p & s & n & Hc & Hp & Hx & Hf & _).
    rewrite (initSection_not_skipped sec w Hs Hc Hp Hx Hf).
    unfold initCanvas, bind, modify. cbn [snd canvases with_counters].
    destruct (nth_error (canvases w) cv) as [c|];
      cbn [with_canvases with_log with_loaders canvases].
    + intros H. unfold canvases_tidy in *. cbn [canvases].
      apply Forall_set_nth; [exact H | exact I].
    + intros H. exact H.
Qed.

Ltac tidy_side :=
  first [ exact keeps_tidy_refl | exact keeps_tidy_trans
        | exact keeps_tidy_canvas | exact keeps_tidy_render ].

Lemma keeps_tidy_resize_listener (lid d : nat) :
  steps_in keeps_tidy (resize_listener lid d).
Proof.
  unfold resize_listener.
  apply steps_bind; try tidy_side.
  - intros w. cbn [modify snd].
    destruct (nth_error (loaders w) lid) as [l|]; [|apply keeps_tidy_refl].
    destruct (nth_error (canvases w) (l_canvas l));
      [apply keeps_tidy_set_size | apply keeps_tidy_refl].
  - intros _. apply steps_render_at; tidy_side.
Qed.

Lemma keeps_tidy_callback (m : M unit) (w : world) :
  steps_in keeps_tidy m -> keeps_tidy w (run_callback m w).
Proof. intros H. apply steps_run_callback; try tidy_side. exact H. Qed.

Lemma keeps_tidy_step (w : world) (ev : event) : keeps_tidy w (step w ev).
Proof.
  assert (Hr : match ev with
               | Load _ _ _ _ | Error _ _ | Tick _ _ | Scroll _ => keeps_tidy w (step w ev)
               | _ => True
               end) by (apply step_rendering; tidy_side).
  destruct ev as [|lid i nw nh|lid i|k p|cw|y|cv pw ph]; try exact Hr; cbn [step].
  - apply keeps_tidy_callback. unfold initSections.
    apply steps_bind; try tidy_side.
    intros doc. apply steps_forEach; try tidy_side.
    apply keeps_tidy_initSection.
  - assert (H : forall ms w0,
               Forall (steps_in keeps_tidy (A:=unit)) ms ->
               keeps_tidy w0 (fold_left (fun w' m => run_callback m w') ms w0)).
    { induction ms as [|m ms IH]; intros w0 Hms; simpl; [apply keeps_tidy_refl|].
      inversion Hms as [|? ? Hm Hms']; subst.
      eapply keeps_tidy_trans; [|apply IH, Hms'].
      apply keeps_tidy_callback, Hm. }
    eapply keeps_tidy_trans; [|apply H].
    + apply keeps_tidy_canvas. reflexivity.
    + cbn [log with_clientWidth]. unfold resize_listeners.
      induction (log w) as [|e lg IH]; simpl; [constructor|].
      destruct e; simpl; try exact IH.
      constructor; [apply keeps_tidy_resize_listener | exact IH].
  - destruct (nth_error (canvases w) cv) as [c|] eqn:Hc; [|apply keeps_tidy_refl].
    intros H. unfold canvases_tidy in *. cbn [canvases with_canvases].
    apply Forall_set_nth; [exact H|].
    assert (Hin : tidy c).
    { rewrite Forall_forall in H. apply H. eapply nth_error_In, Hc. }
    exact Hin.
Qed.

(** X7: frames never pile up on a canvas and a broken image is never
    shown.  On a page whose canvases start blank, at every point of every
    execution every canvas shows nothing or exactly one image, and that image
    is one the draw primitive really painted: available, of a non-empty size,
    at finite coordinates. *)
Theorem canvas_shows_one_frame
  (doc : list section) (cvs : list canvas) (cw : Z) (y : num) (evs : list event) :
  Forall (fun c => c_shown c = []) cvs ->
  forall c, In c (canvases (run evs (script_load doc cvs cw y))) ->
    c_shown c = [] \/
    exists img x y' w h,
      c_shown c = [DrawImage img x y' w h] /\ drawable img = true /\
      is_finite x && is_finite y' && is_finite w && is_finite h = true.
Proof.
  intros Hblank.
  assert (Hrun : forall evs w, canvases_tidy w -> canvases_tidy (run evs w)).
  { clear. induction evs as [|ev evs IH]; intros w H; [exact H|].
    apply IH, keeps_tidy_step, H. }
  assert (H0 : canvases_tidy (script_load doc cvs cw y)).
  { unfold script_load. apply (@keeps_tidy_step (World cw 0 0 cw y doc cvs [] [] []) MediaChange).
    unfold canvases_tidy. cbn [canvases].
    eapply Forall_impl; [|exact Hblank]. intros c Hc. unfold tidy. now rewrite Hc. }
  intros c Hin. pose proof (Hrun evs _ H0) as Ht.
  unfold canvases_tidy in Ht. rewrite Forall_forall in Ht. specialize (Ht c Hin).
  unfold tidy in Ht. destruct (c_shown c) as [|[|img x y' w h] [|]]; try contradiction.
  - now left.
  - right. exists img, x, y', w, h. split; [reflexivity|].
    unfold paints in Ht. rewrite !andb_true_iff in Ht.
    destruct Ht as [[[[Hd Hx] Hy] Hw] Hh]. split; [exact Hd|].
    now rewrite Hx, Hy, Hw, Hh.
Qed.

Lemma canvas_shows_one_frame_witness :
  let b := Block (Some (Int 1)) (Some (Int 2)) false None None None in
  let sec := Wrapper (Some "/img/"%string) (Some ".jpg"%string) (Some (Int 2)) (Some 0%nat) [b] in
  let evs := [Load 0 0 400 300; Error 0 1; Tick 4 1; Tick 4 0; Resize 600] in
  let w := run evs (script_load [sec] [Canvas 0 0 800 600 [] []] 1024 zero) in
  let c := nth 0 (canvases w) (Canvas 0 0 0 0 [] []) in
  In c (canvases w) /\
  (c_shown c = [] \/
   exists img x y' w h,
     c_shown c = [DrawImage img x y' w h] /\ drawable img = true /\
     is_finite x && is_finite y' && is_finite w && is_finite h = true).
Proof.
  intros b sec evs w c.
  assert (Hin : In c (canvases w)) by (left; reflexivity).
  split; [exact Hin|].
  apply (@canvas_shows_one_frame [sec] [Canvas 0 0 800 600 [] []] 1024 zero evs);
    [repeat constructor | exact Hin].
Defined.

(** ** The heap of sequence objects *)

Lemma bound_refl (w : world) : bound w w.
Proof.
  exists [], []. rewrite !app_nil_r. repeat split; constructor.
Qed.

Lemma bound_trans (a b c : world) : bound a b -> bound b c -> bound a c.
Proof.
  intros (e1 & t1 & Hh1 & Hl1 & Hn1 & Hr1) (e2 & t2 & Hh2 & Hl2 & Hn2 & Hr2).
  exists (e1 ++ e2), (t1 ++ t2).
  rewrite Hh2, Hl2, Hh1, Hl1, !map_app, <- !app_assoc.
  repeat split.
  - rewrite Forall_forall in Hr1, Hr2. apply NoDup_app; try assumption.
    intros x Hx1 Hx2.
    apply in_map_iff in Hx1. destruct Hx1 as (tw1 & <- & Hin1).
    apply in_map_iff in Hx2. destruct Hx2 as (tw2 & Heq & Hin2).
    specialize (Hr1 tw1 Hin1). specialize (Hr2 tw2 Hin2).
    rewrite Hh1, length_app in Hr2. lia.
  - apply Forall_app. split.
    + eapply Forall_impl; [|exact Hr1]. intros tw H. rewrite length_app. cbv beta in H. lia.
    + eapply Forall_impl; [|exact Hr2]. intros tw H.
      rewrite Hh1, length_app in H. rewrite length_app. lia.
Qed.

Lemma obs_heap_log_canvas_free : canvas_free obs_heap_log.
Proof. intros cs w. reflexivity. Qed.

Lemma render_with_heap_log (lid : nat) (sq : sequence) (w : world) :
  heap (snd (render_with lid sq w)) = heap w /\
  log (snd (render_with lid sq w)) = log w.
Proof.
  pose proof (unchanged_render_with obs_heap_log_canvas_free lid sq w) as H.
  unfold obs_heap_log in H. injection H as -> ->. split; reflexivity.
Qed.

Lemma render_at_heap_log (lid addr : nat) (w : world) :
  heap (snd (render_at lid addr w)) = heap w /\
  log (snd (render_at lid addr w)) = log w.
Proof.
  unfold render_at. destruct (nth_error (heap w) addr);
    [apply render_with_heap_log | split; reflexivity].
Qed.

Lemma bound_same (w w' : world) : heap w' = heap w -> log w' = log w -> bound w w'.
Proof.
  intros Hh Hl. exists [], []. rewrite Hh, Hl, !app_nil_r.
  repeat split; constructor.
Qed.

Lemma bound_one (w w' : world) (s : sequence) (tw : tween) :
  heap w' = heap w ++ [s] -> log w' = log w ++ [Animate tw] ->
  t_target tw = List.length (heap w) -> bound w w'.
Proof.
  intros Hh Hl Ht. exists [s], [tw]. rewrite Hh, Hl. simpl.
  repeat split; [constructor; [intros []|constructor]|].
  constructor; [lia | constructor].
Qed.

Lemma bind_block_bound (lid : nat) (b : block) : steps_in bound (bind_block lid b).
Proof.
  intros w. destruct (b_autoplaySequence b) eqn:Ha.
  - destruct (leb (scrollY w) (of_Z 1)) eqn:Hy.
    + destruct (renders_at_once (autoplay_tween lid (List.length (heap w)) b)) eqn:Hnow.
      * rewrite (bind_block_autoplay_now lid b w Ha Hy Hnow).
        destruct (render_with_heap_log lid (Sequence (isub (Number (b_end b)) (Int 1)))
                    (with_log (log w ++ [Animate (autoplay_tween lid (List.length (heap w)) b)])
                       (with_heap (heap w ++ [Sequence (isub (Number (b_end b)) (Int 1))]) w)))
          as [Hh Hl].
        eapply bound_one; [exact Hh | exact Hl | reflexivity].
      * rewrite (bind_block_autoplay_top lid b w Ha Hy Hnow).
        eapply bound_one; reflexivity.
    + rewrite (bind_block_autoplay_scrolled lid b w Ha Hy).
      destruct (render_with_heap_log lid (Sequence (isub (Number (b_end b)) (Int 1)))
                  (with_heap (heap w ++ [Sequence (isub (Number (b_end b)) (Int 1))]) w))
        as [Hh Hl].
      exists [Sequence (isub (Number (b_end b)) (Int 1))], [].
      rewrite Hh, Hl. simpl. rewrite app_nil_r. repeat split; constructor.
  - rewrite (bind_block_scroll lid b w Ha). eapply bound_one; reflexivity.
Qed.

Lemma forEach_bind_block_bound (lid : nat) (bs : list block) :
  steps_in bound (forEach (bind_block lid) bs).
Proof.
  apply steps_forEach; [exact bound_refl | exact bound_trans |].
  intros b. apply bind_block_bound.
Qed.

(** The heap and the log after [initCanvasAnimations]: a default sequence at
    the old end of the heap, sequence objects of the blocks behind it, the
    entry, animations of objects of their own, and the resize listener if and
    only if the call returned. *)
Lemma initCanvasAnimations_heap (lid : nat) (sec : section) (w : world) :
  let r := initCanvasAnimations lid sec w in
  let d := List.length (heap w) in
  exists extra tws,
    heap (snd r) = heap w ++ Sequence (Int 0) :: extra /\
    NoDup (map t_target tws) /\
    Forall (fun tw => (d < t_target tw < S d + List.length extra)%nat) tws /\
    log (snd r) =
      log w ++ Call_initCanvasAnimations lid :: map Animate tws ++
      match fst r with
      | Normal _ => [AddResizeListener lid d]
      | Throw _ => []
      end.
Proof.
  intros r d.
  set (w1 := with_heap (heap w ++ [Sequence (Int 0)])
                       (with_log (log w ++ [Call_initCanvasAnimations lid]) w)).
  destruct (forEach_bind_block_bound lid (s_blocks sec) w1)
    as (extra & tws & Hh & Hl & Hn & Hr).
  assert (Hlen : List.length (heap w1) = S d)
    by (cbn [w1 heap with_heap with_log]; rewrite length_app; simpl; lia).
  assert (Hr' : Forall (fun tw => (d < t_target tw < S d + List.length extra)%nat) tws).
  { eapply Forall_impl; [|exact Hr]. intros tw H. cbv beta in H. lia. }
  exists extra, tws.
  assert (Er : r = (bs <- forEach (bind_block lid) (s_blocks sec) ;;
                    render_at lid d ;;; emit (AddResizeListener lid d)) w1)
    by reflexivity.
  unfold bind in Er.
  destruct (forEach (bind_block lid) (s_blocks sec) w1) as [[[]|e] w2];
    cbn [fst snd] in *.
  - destruct (render_at_heap_log lid d w2) as [Hh3 Hl3].
    destruct (render_at lid d w2) as [[[]|e] w3]; cbn [fst snd] in *; rewrite Er.
    + cbn [emit modify fst snd heap log with_log].
      rewrite Hh3, Hl3, Hh, Hl. cbn [w1 heap log with_heap with_log].
      rewrite <- !app_assoc. repeat split; assumption.
    + cbn [fst snd]. rewrite Hh3, Hl3, Hh, Hl. cbn [w1 heap log with_heap with_log].
      rewrite <- !app_assoc, app_nil_r. repeat split; assumption.
  - rewrite Er. cbn [fst snd]. rewrite Hh, Hl. cbn [w1 heap log with_heap with_log].
    rewrite <- !app_assoc, app_nil_r. repeat split; assumption.
Qed.

Lemma addresses_app (xs ys : list effect) :
  addresses (xs ++ ys) = addresses xs ++ addresses ys.
Proof. apply flat_map_app. Qed.

Lemma defaults_app (xs ys : list effect) :
  defaults (xs ++ ys) = defaults xs ++ defaults ys.
Proof. apply flat_map_app. Qed.

Lemma addresses_animations (tws : list tween) :
  addresses (map Animate tws) = map t_target tws /\ defaults (map Animate tws) = [].
Proof.
  induction tws as [|tw tws [IH1 IH2]]; [split; reflexivity|].
  simpl. unfold addresses, defaults in *. simpl. rewrite IH1, IH2. split; reflexivity.
Qed.

Lemma addresses_requests_of (ls : list loader) :
  addresses (requests_of ls) = [] /\ defaults (requests_of ls) = [].
Proof.
  unfold requests_of. induction ls as [|l ls [IH1 IH2]]; [split; reflexivity|].
  cbn [flat_map]. rewrite addresses_app, defaults_app, IH1, IH2, !app_nil_r.
  induction (l_images l) as [|img imgs [IHa IHb]]; [split; reflexivity|].
  split; assumption.
Qed.

(** The invariant only looks at the heap and at the addresses in the log. *)
Lemma keeps_heap_same (w w' : world) :
  heap w' = heap w -> addresses (log w') = addresses (log w) ->
  defaults (log w') = defaults (log w) -> keeps_heap w w'.
Proof. unfold keeps_heap, heap_inv. intros -> -> ->. trivial. Qed.

Lemma keeps_heap_refl (w : world) : keeps_heap w w.
Proof. intros H. exact H. Qed.

Lemma keeps_heap_trans (a b c : world) :
  keeps_heap a b -> keeps_heap b c -> keeps_heap a c.
Proof. unfold keeps_heap. auto. Qed.

Lemma keeps_heap_emit (e : effect) : address_of e = [] -> steps_in keeps_heap (emit e).
Proof.
  intros He w. apply keeps_heap_same; cbn [emit modify snd heap log with_log].
  - reflexivity.
  - rewrite addresses_app. unfold addresses at 2. simpl. now rewrite He, !app_nil_r.
  - rewrite defaults_app. unfold defaults at 2. simpl.
    destruct e; try discriminate; now rewrite !app_nil_r.
Qed.

Lemma keeps_heap_render_with (lid : nat) (sq : sequence) :
  steps_in keeps_heap (render_with lid sq).
Proof.
  intros w. destruct (render_with_heap_log lid sq w) as [Hh Hl].
  apply keeps_heap_same; now rewrite ?Hh, ?Hl.
Qed.

Lemma keeps_heap_render_at (lid addr : nat) : steps_in keeps_heap (render_at lid addr).
Proof.
  intros w. destruct (render_at_heap_log lid addr w) as [Hh Hl].
  apply keeps_heap_same; now rewrite ?Hh, ?Hl.
Qed.

Lemma nth_error_app_some (A : Type) (xs ys : list A) (n : nat) (x : A) :
  nth_error xs n = Some x -> nth_error (xs ++ ys) n = Some x.
Proof.
  intros H. rewrite nth_error_app1; [exact H|].
  apply nth_error_Some. congruence.
Qed.

Lemma keeps_heap_initCanvasAnimations (lid : nat) (sec : section) :
  steps_in keeps_heap (initCanvasAnimations lid sec).
Proof.
  intros w (Hnd & Halloc & Hdef).
  destruct (initCanvasAnimations_heap lid sec w) as (extra & tws & Hh & Hn & Hr & Hl).
  cbv zeta in *.
  set (d := List.length (heap w)) in *.
  set (tail := match fst (initCanvasAnimations lid sec w) with
               | Normal _ => [AddResizeListener lid d]
               | Throw _ => []
               end) in *.
  assert (Htail : (addresses tail = [] /\ defaults tail = []) \/
                  (addresses tail = [d] /\ defaults tail = [d])).
  { unfold tail. destruct (fst (initCanvasAnimations lid sec w)); [right|left];
      split; reflexivity. }
  destruct (addresses_animations tws) as [Ha Hd].
  assert (Haddr : addresses (log (snd (initCanvasAnimations lid sec w))) =
                  addresses (log w) ++ map t_target tws ++ addresses tail).
  { rewrite Hl, addresses_app.
    change (Call_initCanvasAnimations lid :: map Animate tws ++ tail)
      with ([Call_initCanvasAnimations lid] ++ map Animate tws ++ tail).
    now rewrite !addresses_app, Ha. }
  assert (Hdefs : defaults (log (snd (initCanvasAnimations lid sec w))) =
                  defaults (log w) ++ defaults tail).
  { rewrite Hl, defaults_app.
    change (Call_initCanvasAnimations lid :: map Animate tws ++ tail)
      with ([Call_initCanvasAnimations lid] ++ map Animate tws ++ tail).
    now rewrite !defaults_app, Hd. }
  rewrite Forall_forall in Halloc, Hr.
  unfold heap_inv. rewrite Haddr, Hdefs, Hh. repeat split.
  - apply NoDup_app; [exact Hnd | |].
    + apply NoDup_app; [exact Hn | |].
      * destruct Htail as [[-> _]|[-> _]]; constructor; [intros []|constructor].
      * intros x Hx Hx'. apply in_map_iff in Hx. destruct Hx as (tw & <- & Hin).
        specialize (Hr tw Hin). cbv beta in Hr.
        destruct Htail as [[E _]|[E _]]; rewrite E in Hx'; [destruct Hx'|].
        destruct Hx' as [Hx'|[]]. lia.
    + intros x Hx Hx'. specialize (Halloc x Hx). cbv beta in Halloc. fold d in Halloc.
      apply in_app_or in Hx'. destruct Hx' as [Hx'|Hx'].
      * apply in_map_iff in Hx'. destruct Hx' as (tw & <- & Hin).
        specialize (Hr tw Hin). cbv beta in Hr. lia.
      * destruct Htail as [[E _]|[E _]]; rewrite E in Hx'; [destruct Hx'|].
        destruct Hx' as [Hx'|[]]. lia.
  - apply Forall_forall. intros x Hx. rewrite length_app. cbn [List.length]. fold d.
    apply in_app_or in Hx. destruct Hx as [Hx|Hx].
    + specialize (Halloc x Hx). cbv beta in Halloc. fold d in Halloc. lia.
    + apply in_app_or in Hx. destruct Hx as [Hx|Hx].
      * apply in_map_iff in Hx. destruct Hx as (tw & <- & Hin).
        specialize (Hr tw Hin). cbv beta in Hr. lia.
      * destruct Htail as [[E _]|[E _]]; rewrite E in Hx; [destruct Hx|].
        destruct Hx as [<-|[]]. lia.
  - apply Forall_app. split.
    + eapply Forall_impl; [|exact Hdef]. intros a Ha'. cbv beta in Ha'.
      now apply nth_error_app_some.
    + destruct Htail as [[_ ->]|[_ ->]]; constructor; [|constructor].
      unfold d. now rewrite nth_error_app2, Nat.sub_diag by lia.
Qed.

Lemma keeps_heap_when_all_loaded (lid : nat) : steps_in keeps_heap (when_all_loaded lid).
Proof.
  unfold when_all_loaded.
  apply steps_bind; [exact keeps_heap_trans | intros w; apply keeps_heap_refl |].
  intros [l|]; [|intros w; apply keeps_heap_refl].
  apply steps_if; [apply keeps_heap_initCanvasAnimations | intros w; apply keeps_heap_refl].
Qed.

Lemma keeps_heap_counted (lid : nat) (w : world) :
  keeps_heap w (after_count (after_incr lid w)).
Proof.
  destruct (after_count_rest (after_incr lid w)) as (Hh & _ & Hl).
  destruct (after_incr_rest lid w) as (Hh' & _).
  destruct (after_incr_frame lid w) as (_ & _ & Hl').
  apply keeps_heap_same; rewrite ?Hh, ?Hh', ?Hl, ?Hl'; try reflexivity.
  - rewrite addresses_app. destruct (_ =? 0); simpl; now rewrite app_nil_r.
  - rewrite defaults_app. destruct (_ =? 0); simpl; now rewrite app_nil_r.
Qed.

Lemma keeps_heap_onload (lid i : nat) : steps_in keeps_heap (onload lid i).
Proof.
  intros w. rewrite onload_run.
  eapply keeps_heap_trans; [apply keeps_heap_counted|].
  unfold onload_tail.
  apply steps_bind; [exact keeps_heap_trans | |].
  - apply steps_if; [apply keeps_heap_render_with | intros w'; apply keeps_heap_refl].
  - intros _. apply keeps_heap_when_all_loaded.
Qed.

Lemma keeps_heap_onerror (lid i : nat) : steps_in keeps_heap (onerror lid i).
Proof.
  intros w. rewrite onerror_run.
  eapply keeps_heap_trans; [apply keeps_heap_counted|].
  apply keeps_heap_when_all_loaded.
Qed.

Lemma keeps_heap_callback (m : M unit) (w : world) :
  steps_in keeps_heap m -> keeps_heap w (run_callback m w).
Proof.
  intros Hm. unfold run_callback. specialize (Hm w).
  destruct (m w) as [[[]|e] w1]; simpl in *; [exact Hm|].
  eapply keeps_heap_trans; [exact Hm|].
  exact (@keeps_heap_emit (Uncaught e) eq_refl w1).
Qed.

Lemma keeps_heap_settle (lid i : nat) (st : img_state) (w : world) :
  keeps_heap w (settle lid i st w).
Proof.
  destruct (settle_rest lid i st w) as (Hh & _).
  destruct (settle_frame lid i st w) as (_ & _ & Hl).
  apply keeps_heap_same; now rewrite ?Hh, ?Hl.
Qed.

Lemma keeps_heap_resize_listener (lid d : nat) :
  steps_in keeps_heap (resize_listener lid d).
Proof.
  unfold resize_listener.
  apply steps_bind; [exact keeps_heap_trans | |].
  - intros w. cbn [modify snd]. apply keeps_heap_same;
      destruct (nth_error (loaders w) lid) as [l|]; try reflexivity;
      destruct (nth_error (canvases w) (l_canvas l)); reflexivity.
  - intros _. apply keeps_heap_render_at.
Qed.

(** An animation and a resize listener of the same log never share their
    sequence object. *)
Lemma target_not_default (lg : list effect) (tw : tween) (d : nat) :
  NoDup (addresses lg) -> In (Animate tw) lg -> In d (defaults lg) ->
  t_target tw <> d.
Proof.
  induction lg as [|e lg IH]; intros Hnd Htw Hd; [destruct Htw|].
  unfold addresses, defaults in *. cbn [flat_map] in *.
  apply NoDup_app_remove_l in Hnd as Hnd'.
  destruct Htw as [->|Htw].
  - cbn [address_of default_of app] in *.
    apply NoDup_cons_iff in Hnd. destruct Hnd as [Hnot _].
    intros E. apply Hnot. rewrite E. clear - Hd.
    induction lg as [|e lg IH]; [destruct Hd|].
    cbn [flat_map] in *. apply in_or_app. apply in_app_or in Hd.
    destruct Hd as [Hd|Hd]; [left | right; now apply IH].
    destruct e; simpl in *; try contradiction; assumption.
  - apply in_app_or in Hd. destruct Hd as [Hd|Hd]; [|now apply IH].
    destruct e; simpl in Hd; try contradiction.
    destruct Hd as [<-|[]]. cbn [address_of app] in Hnd.
    apply NoDup_cons_iff in Hnd. destruct Hnd as [Hnot _].
    intros E. apply Hnot. rewrite <- E. clear - Htw.
    induction lg as [|e lg IH]; [destruct Htw|].
    cbn [flat_map]. apply in_or_app. destruct Htw as [->|Htw]; [left; now left|].
    right. now apply IH.
Qed.

Lemma keeps_heap_tick (w : world) (k : nat) (p : Q) : keeps_heap w (step w (Tick k p)).
Proof.
  cbn [step]. destruct (nth_error (log w) k) as [[| |tw| | |]|] eqn:Hk;
    try apply keeps_heap_refl.
  destruct (in_unit_interval p); [|apply keeps_heap_refl].
  set (w' := with_heap (set_nth (t_target tw) (Sequence (tween_value tw p)) (heap w)) w).
  assert (E : run_callback (set_frame (t_target tw) (tween_value tw p) ;;;
                            render_at (t_loader tw) (t_target tw)) w =
              run_callback (render_at (t_loader tw) (t_target tw)) w') by reflexivity.
  rewrite E. apply keeps_heap_trans with (b := w').
  - intros (Hnd & Halloc & Hdef). unfold heap_inv. cbn [w' heap log with_heap].
    rewrite length_set_nth. repeat split; try assumption.
    apply Forall_forall. intros d Hd. rewrite Forall_forall in Hdef.
    rewrite <- (Hdef d Hd). apply nth_error_set_nth_neq.
    apply (@target_not_default (log w) tw d Hnd); [|exact Hd].
    eapply nth_error_In, Hk.
  - apply keeps_heap_callback, keeps_heap_render_at.
Qed.

Lemma keeps_heap_step (w : world) (ev : event) : keeps_heap w (step w ev).
Proof.
  destruct ev as [|lid i nw nh|lid i|k p|cw|y|cv pw ph]; cbn [step].
  - destruct (initSections_adds w) as (_ & Hh & _ & Hl & _).
    destruct (addresses_requests_of
                (flat_map (section_loader (device_of (viewportWidth w))) (document w)))
      as [Ha Hd].
    apply keeps_heap_same; rewrite ?Hh, ?Hl, ?addresses_app, ?defaults_app, ?Ha, ?Hd;
      now rewrite ?app_nil_r.
  - destruct (is_pending w lid i); [|apply keeps_heap_refl].
    eapply keeps_heap_trans; [apply keeps_heap_settle|].
    apply keeps_heap_callback, keeps_heap_onload.
  - destruct (is_pending w lid i); [|apply keeps_heap_refl].
    eapply keeps_heap_trans; [apply keeps_heap_settle|].
    apply keeps_heap_callback, keeps_heap_onerror.
  - apply keeps_heap_tick.
  - assert (H : forall ms w0,
               Forall (steps_in keeps_heap (A:=unit)) ms ->
               keeps_heap w0 (fold_left (fun w' m => run_callback m w') ms w0)).
    { induction ms as [|m ms IH]; intros w0 Hms; simpl; [apply keeps_heap_refl|].
      inversion Hms as [|? ? Hm Hms']; subst.
      eapply keeps_heap_trans; [|apply IH, Hms'].
      apply keeps_heap_callback, Hm. }
    eapply keeps_heap_trans; [|apply H].
    + apply keeps_heap_same; reflexivity.
    + cbn [log with_clientWidth]. unfold resize_listeners.
      induction (log w) as [|e lg IH]; simpl; [constructor|].
      destruct e; simpl; try exact IH.
      constructor; [apply keeps_heap_resize_listener | exact IH].
  - apply keeps_heap_same; reflexivity.
  - destruct (nth_error (canvases w) cv); apply keeps_heap_same; reflexivity.
Qed.

(** Every animation has a sequence object of its own: at every point of
    every execution the objects that the animations drive and the default
    sequences that the resize listeners render are pairwise different and all
    allocated, and every default sequence holds frame 0. *)
Lemma heap_inv_reachable
  (doc : list section) (cvs : list canvas) (cw : Z) (y : num) (evs : list event) :
  heap_inv (run evs (script_load doc cvs cw y)).
Proof.
  assert (Hrun : forall evs w, heap_inv w -> heap_inv (run evs w)).
  { clear. induction evs as [|ev evs IH]; intros w H; [exact H|].
    apply IH, keeps_heap_step, H. }
  apply Hrun. unfold script_load.
  apply (@keeps_heap_step (World cw 0 0 cw y doc cvs [] [] []) MediaChange).
  repeat split; constructor.
Qed.

(** ** Window resizes *)

Lemma render_geometry (images : list image) (sq : sequence) (c : canvas) :
  geometry (snd (render images sq c)) = geometry c.
Proof.
  destruct (array_get images (frame sq)) as [img|] eqn:Hget.
  - now rewrite (render_found _ _ _ Hget).
  - now rewrite (render_missing _ _ _ Hget).
Qed.

Lemma render_shown (images : list image) (sq : sequence) (c : canvas) :
  c_shown (snd (render images sq c)) = frame_shown images sq (c_width c) (c_height c).
Proof.
  unfold frame_shown. destruct (array_get images (frame sq)) as [img|] eqn:Hget.
  - now rewrite !(render_found _ _ _ Hget).
  - now rewrite !(render_missing _ _ _ Hget).
Qed.

Lemma resize_listeners_ids (lg : list effect) :
  resize_listeners lg =
  map (fun p => resize_listener (fst p) (snd p)) (listener_ids lg).
Proof.
  unfold resize_listeners, listener_ids.
  induction lg as [|e lg IH]; [reflexivity|].
  cbn [flat_map]. rewrite map_app, IH. f_equal. destruct e; reflexivity.
Qed.

(** One resize listener, run as a callback. *)
Lemma resize_listener_run (lid d : nat) (w : world) :
  nth_error (heap w) d = Some (Sequence (Int 0)) ->
  let w' := run_callback (resize_listener lid d) w in
  loaders w' = loaders w /\ heap w' = heap w /\
  canvases w' = resize_canvas (loaders w) (canvases w) lid.
Proof.
  intros Hd. unfold resize_canvas, run_callback, resize_listener, bind, modify.
  destruct (nth_error (loaders w) lid) as [l|] eqn:Hl.
  - destruct (nth_error (canvases w) (l_canvas l)) as [c|] eqn:Hc.
    + unfold render_at. cbn [heap with_canvases]. rewrite Hd.
      unfold render_with. cbn [loaders canvases with_canvases]. rewrite Hl.
      rewrite (@nth_error_set_nth_eq _ _ _ _ _ Hc).
      destruct (render (l_images l) (Sequence (Int 0)) _) as [[[]|e] c'];
        cbn [snd loaders heap canvases with_canvases with_log];
        rewrite set_nth_set_nth; repeat split; reflexivity.
    + unfold render_at. rewrite Hd. unfold render_with. rewrite Hl, Hc.
      repeat split; reflexivity.
  - unfold render_at. rewrite Hd. unfold render_with. rewrite Hl.
    repeat split; reflexivity.
Qed.

Lemma resize_listeners_run (ls : list loader) (ids : list (nat * nat)) (w : world) :
  loaders w = ls ->
  Forall (fun p => nth_error (heap w) (snd p) = Some (Sequence (Int 0))) ids ->
  canvases (fold_left (fun w' m => run_callback m w')
                      (map (fun p => resize_listener (fst p) (snd p)) ids) w) =
  fold_left (resize_canvas ls) (map fst ids) (canvases w).
Proof.
  revert w. induction ids as [|[lid d] ids IH]; intros w Hls Hd; [reflexivity|].
  inversion Hd as [|? ? Hd1 Hd2]; subst. cbn [map fold_left fst snd] in *.
  destruct (@resize_listener_run lid d w Hd1) as (Hl & Hh & Hc).
  rewrite IH.
  - now rewrite Hc.
  - exact Hl.
  - eapply Forall_impl; [|exact Hd2]. intros p Hp. now rewrite Hh.
Qed.

Lemma resize_canvas_parents (ls : list loader) (cs : list canvas) (lid : nat) :
  map parent_box (resize_canvas ls cs lid) = map parent_box cs.
Proof.
  unfold resize_canvas. destruct (nth_error ls lid) as [l|]; [|reflexivity].
  destruct (nth_error cs (l_canvas l)) as [c|] eqn:Hc; [|reflexivity].
  apply (@map_set_nth_same _ _ parent_box _ _ _ _ Hc).
  pose proof (render_geometry (l_images l) (Sequence (Int 0))
                (set_size (parent_clientWidth c) (parent_clientHeight c) c)) as Hg.
  unfold geometry in Hg. unfold parent_box. now injection Hg as _ _ -> ->.
Qed.

Lemma resize_canvas_fits (ls : list loader) (lids : list nat) (cs : list canvas)
      (lid : nat) (l : loader) (c : canvas) :
  In lid lids -> nth_error ls lid = Some l -> nth_error cs (l_canvas l) = Some c ->
  fitted ls lids (l_canvas l) (resize_canvas ls cs lid).
Proof.
  intros Hin Hl Hc. unfold resize_canvas. rewrite Hl, Hc.
  set (c1 := set_size (parent_clientWidth c) (parent_clientHeight c) c).
  pose proof (render_geometry (l_images l) (Sequence (Int 0)) c1) as Hg.
  unfold geometry in Hg. injection Hg as Hw Hh Hpw Hph.
  eexists. split; [apply (@nth_error_set_nth_eq _ _ _ _ _ Hc)|].
  rewrite Hw, Hh, Hpw, Hph. cbn [c1 set_size c_width c_height parent_clientWidth
                                  parent_clientHeight].
  repeat split.
  exists lid, l. repeat split; try assumption.
  now rewrite render_shown.
Qed.

Lemma resize_canvas_other (ls : list loader) (cs : list canvas) (lid cv : nat) :
  (forall l, nth_error ls lid = Some l -> l_canvas l <> cv) ->
  nth_error (resize_canvas ls cs lid) cv = nth_error cs cv.
Proof.
  intros H. unfold resize_canvas. destruct (nth_error ls lid) as [l|]; [|reflexivity].
  destruct (nth_error cs (l_canvas l)); [|reflexivity].
  apply nth_error_set_nth_neq. now apply H.
Qed.

Lemma set_nth_exists (A : Type) (xs : list A) (n m : nat) (x y : A) :
  nth_error xs m = Some y -> exists z, nth_error (set_nth n x xs) m = Some z.
Proof.
  intros H. destruct (Nat.eq_dec n m) as [->|Hne].
  - exists x. now apply (@nth_error_set_nth_eq _ _ _ _ y).
  - exists y. now rewrite nth_error_set_nth_neq.
Qed.

Lemma resize_canvas_exists (ls : list loader) (cs : list canvas) (lid cv : nat) (c : canvas) :
  nth_error cs cv = Some c -> exists c', nth_error (resize_canvas ls cs lid) cv = Some c'.
Proof.
  intros H. unfold resize_canvas. destruct (nth_error ls lid) as [l|]; [|eauto].
  destruct (nth_error cs (l_canvas l)); [|eauto].
  eapply set_nth_exists, H.
Qed.

(** After the listeners [ids] have run, a canvas that one of them draws
    into, or that was fitted before, is fitted. *)
Lemma resize_fold_fits (ls : list loader) (lids : list nat) (cv : nat)
      (ids : list nat) (cs : list canvas) :
  incl ids lids ->
  (exists c, nth_error cs cv = Some c) ->
  fitted ls lids cv cs \/
  (exists lid l, In lid ids /\ nth_error ls lid = Some l /\ l_canvas l = cv) ->
  fitted ls lids cv (fold_left (resize_canvas ls) ids cs).
Proof.
  revert cs. induction ids as [|lid ids IH]; intros cs Hincl [c Hc] H.
  - destruct H as [H|(lid & l & [] & _)]. exact H.
  - cbn [fold_left].
    assert (Hincl' : incl ids lids) by (intros x Hx; apply Hincl; now right).
    destruct (@resize_canvas_exists ls cs lid cv c Hc) as [c' Hc'].
    apply IH; [exact Hincl' | eauto |].
    destruct (nth_error ls lid) as [l|] eqn:Hl.
    + destruct (Nat.eq_dec (l_canvas l) cv) as [E|Hne].
      * left. subst cv. apply (@resize_canvas_fits ls lids cs lid l c);
          [apply Hincl; now left | exact Hl | exact Hc].
      * assert (Hsame : nth_error (resize_canvas ls cs lid) cv = nth_error cs cv).
        { apply resize_canvas_other. intros l' Hl'. congruence. }
        destruct H as [(c0 & H0 & Hrest)|(lid' & l' & [<-|Hin] & Hl' & Hcv)].
        -- left. exists c0. rewrite Hsame. split; assumption.
        -- congruence.
        -- right. exists lid', l'. repeat split; assumption.
    + assert (Hsame : resize_canvas ls cs lid = cs)
        by (unfold resize_canvas; now rewrite Hl).
      rewrite Hsame.
      destruct H as [H|(lid' & l' & [<-|Hin] & Hl' & Hcv)].
      * now left.
      * congruence.
      * right. exists lid', l'. repeat split; assumption.
Qed.

Lemma fold_resize_parents (ls : list loader) (ids : list nat) (cs : list canvas) :
  map parent_box (fold_left (resize_canvas ls) ids cs) = map parent_box cs.
Proof.
  revert cs. induction ids as [|lid ids IH]; intros cs; [reflexivity|].
  cbn [fold_left]. now rewrite IH, resize_canvas_parents.
Qed.


Lemma listener_ids_in (lg : list effect) (lid d : nat) :
  In (lid, d) (listener_ids lg) <-> In (AddResizeListener lid d) lg.
Proof.
  unfold listener_ids. rewrite in_flat_map. split.
  - intros (e & He & Hin). destruct e; simpl in Hin; try tauto.
    destruct Hin as [E|[]]. now inversion E; subst.
  - intros H. exists (AddResizeListener lid d). split; [exact H | now left].
Qed.

Lemma defaults_listener_ids (lg : list effect) :
  defaults lg = map snd (listener_ids lg).
Proof.
  unfold defaults, listener_ids. induction lg as [|e lg IH]; [reflexivity|].
  cbn [flat_map]. rewrite map_app, IH. f_equal. destruct e; reflexivity.
Qed.

Lemma resize_step_fits (w : world) (cw' : Z) (lid d : nat) (l : loader) (c : canvas) :
  heap_inv w ->
  In (AddResizeListener lid d) (log w) ->
  nth_error (loaders w) lid = Some l ->
  nth_error (canvases w) (l_canvas l) = Some c ->
  exists c',
    nth_error (canvases (step w (Resize cw'))) (l_canvas l) = Some c' /\
    parent_box c' = parent_box c /\
    c_width c' = parent_clientWidth c /\ c_height c' = parent_clientHeight c /\
    exists lid' d' l',
      In (AddResizeListener lid' d') (log w) /\
      nth_error (loaders w) lid' = Some l' /\ l_canvas l' = l_canvas l /\
      c_shown c' = frame_shown (l_images l') (Sequence (Int 0))
                               (parent_clientWidth c) (parent_clientHeight c).
Proof.
  intros (_ & _ & Hdef) Hin Hl Hc.
  assert (Hcs : canvases (step w (Resize cw')) =
                fold_left (resize_canvas (loaders w)) (map fst (listener_ids (log w)))
                          (canvases w)).
  { unfold step. rewrite resize_listeners_ids.
    rewrite (@resize_listeners_run (loaders w)); [reflexivity | reflexivity |].
    rewrite defaults_listener_ids in Hdef. rewrite Forall_map in Hdef. exact Hdef. }
  rewrite Hcs.
  assert (Hlid : In lid (map fst (listener_ids (log w)))).
  { apply in_map_iff. exists (lid, d). split; [reflexivity|]. now apply listener_ids_in. }
  destruct (@resize_fold_fits (loaders w) (map fst (listener_ids (log w))) (l_canvas l)
              (map fst (listener_ids (log w))) (canvases w))
    as (c' & Hc' & Hw & Hh & lid' & l' & Hin' & Hl' & Hcv & Hshown).
  { apply incl_refl. }
  { eauto. }
  { right. exists lid, l. repeat split; assumption. }
  assert (Hp : parent_box c' = parent_box c).
  { pose proof (fold_resize_parents (loaders w) (map fst (listener_ids (log w)))
                                    (canvases w)) as Hm.
    pose proof (map_nth_error parent_box _ _ Hc') as H1.
    pose proof (map_nth_error parent_box _ _ Hc) as H2.
    rewrite Hm, H2 in H1. congruence. }
  exists c'. split; [exact Hc'|]. split; [exact Hp|].
  unfold parent_box in Hp. injection Hp as Hpw Hph.
  rewrite Hw, Hh, Hpw, Hph in *. repeat split.
  apply in_map_iff in Hin'. destruct Hin' as ([lid'' d'] & E & Hin').
  cbn [fst] in E. subst lid''.
  exists lid', d', l'. repeat split; try assumption.
  now apply listener_ids_in.
Qed.

(** X8: a window resize refits the canvas and redraws the FIRST frame,
    whatever the animations had reached.  At every point of every execution,
    for every closure whose resize listener is registered and whose canvas
    exists, after a resize event the canvas has the width and the height of
    its parent box (which is unchanged) and shows what [render] draws of
    frame 0 of a closure that has a listener for this canvas, at that size:
    the listener renders the default sequence, which no animation drives. *)
Theorem resize_redraws_first_frame
  (doc : list section) (cvs : list canvas) (cw : Z) (y : num) (evs : list event)
  (cw' : Z) (lid d : nat) (l : loader) (c : canvas) :
  let w := run evs (script_load doc cvs cw y) in
  In (AddResizeListener lid d) (log w) ->
  nth_error (loaders w) lid = Some l ->
  nth_error (canvases w) (l_canvas l) = Some c ->
  exists c',
    nth_error (canvases (step w (Resize cw'))) (l_canvas l) = Some c' /\
    parent_box c' = parent_box c /\
    c_width c' = parent_clientWidth c /\ c_height c' = parent_clientHeight c /\
    exists lid' d' l',
      In (AddResizeListener lid' d') (log w) /\
      nth_error (loaders w) lid' = Some l' /\ l_canvas l' = l_canvas l /\
      c_shown c' = frame_shown (l_images l') (Sequence (Int 0))
                               (parent_clientWidth c) (parent_clientHeight c).
Proof.
  intros w. apply resize_step_fits, heap_inv_reachable.
Qed.

(** One section of two frames on a canvas in a box of 800 by 600: an
    animation has scrubbed to frame 1, then the window is resized. *)
Lemma resize_redraws_first_frame_witness :
  let s := Wrapper (Some "/a/"%string) (Some ".jpg"%string) (Some (Int 2)) (Some 0%nat)
                   [Block (Some (Int 1)) (Some (Int 2)) false None None None] in
  let evs := [Load 0 0 400 300; Load 0 1 400 300; Tick 4 1%Q] in
  let w := run evs (script_load [s] [Canvas 0 0 800 600 [] []] 1024 zero) in
  let l := nth 0 (loaders w) (Loader s 0 EmptyString EmptyString EmptyString 0 [] 0) in
  let c := nth 0 (canvases w) (Canvas 0 0 0 0 [] []) in
  exists c',
    nth_error (canvases (step w (Resize 500))) 0 = Some c' /\
    c_width c' = 800%N /\ c_height c' = 600%N.
Proof.
  intros s evs w l c.
  destruct (@resize_redraws_first_frame [s] [Canvas 0 0 800 600 [] []] 1024 zero evs
              500 0%nat 0%nat l c)
    as (c' & Hc' & _ & Hw & Hh & _).
  - vm_compute. repeat (try (left; reflexivity); right).
  - vm_compute. reflexivity.
  - vm_compute. reflexivity.
  - exists c'. split; [exact Hc'|]. split; [exact Hw | exact Hh].
Defined.


(** ** The outcome of initCanvasAnimations *)

Lemma animations_app (lg lg' : list effect) :
  animations (lg ++ lg') = (animations lg + animations lg')%nat.
Proof. unfold animations. now rewrite filter_app, length_app. Qed.

Ltac outcome_step Hf :=
  unfold blocks_outcome, animated;
  cbn [existsb reached fst snd loaders scrollY heap log canvases
       with_log with_heap with_canvases];
  rewrite Hf; cbn [orb filter].

Lemma bind_block_outcome (lid : nat) (l : loader) (c : canvas) (b : block) (w : world) :
  nth_error (loaders w) lid = Some l ->
  nth_error (canvases w) (l_canvas l) = Some c ->
  blocks_outcome l c [b] w (bind_block lid b w).
Proof.
  intros Hl Hc.
  assert (Hrender : forall w0,
            nth_error (loaders w0) lid = Some l ->
            nth_error (canvases w0) (l_canvas l) = Some c ->
            let r := render_with lid (Sequence (last_frame b)) w0 in
            loaders (snd r) = loaders w0 /\ scrollY (snd r) = scrollY w0 /\
            heap (snd r) = heap w0 /\ log (snd r) = log w0 /\
            exists c',
              nth_error (canvases (snd r)) (l_canvas l) = Some c' /\
              geometry c' = geometry c /\
              match array_get (l_images l) (last_frame b) with
              | Some _ => fst r = Normal tt
              | None => fst r = Throw TypeError /\ c_shown c' = []
              end).
  { intros w0 Hl0 Hc0. unfold render_with. rewrite Hl0, Hc0.
    destruct (array_get (l_images l) (last_frame b)) as [img|] eqn:Hget.
    - rewrite (@render_found (l_images l) (Sequence (last_frame b)) c img Hget).
      cbn [fst snd loaders scrollY heap log canvases with_canvases].
      repeat split. eexists.
      split; [apply (@nth_error_set_nth_eq _ _ _ _ _ Hc0)|].
      split; reflexivity.
    - rewrite (@render_missing (l_images l) (Sequence (last_frame b)) c Hget).
      cbn [fst snd loaders scrollY heap log canvases with_canvases].
      repeat split. eexists.
      split; [apply (@nth_error_set_nth_eq _ _ _ _ _ Hc0)|].
      repeat split. }
  destruct (b_autoplaySequence b) eqn:Ha; [destruct (leb (scrollY w) (of_Z 1)) eqn:Hy|].
  - assert (Han : block_animates (scrollY w) b = true)
      by (unfold block_animates; now rewrite Ha, Hy).
    destruct (renders_at_once (autoplay_tween lid (List.length (heap w)) b)) eqn:Hnow.
    + assert (Hd : block_draws (scrollY w) b = true)
        by (unfold block_draws; rewrite Ha, Hy; exact Hnow).
      rewrite (bind_block_autoplay_now lid b w Ha Hy Hnow). fold (last_frame b).
      set (w0 := with_log _ _).
      destruct (Hrender w0 Hl Hc) as (H1 & H2 & H3 & H4 & c' & H5 & H6 & H7).
      unfold blocks_outcome, animated. cbn [existsb reached orb].
      unfold block_fails. rewrite Hd. cbn [andb].
      rewrite H1, H2, H3, H4. subst w0.
      cbn [loaders scrollY heap log with_log with_heap].
      rewrite filter_app, animations_app.
      cbn [filter is_listener is_animate animations List.length]. rewrite app_nil_r.
      destruct (array_get (l_images l) (last_frame b)); cbn [orb filter];
        rewrite Han; cbn [List.length];
        (split; [first [exact H7 | exact (proj1 H7)]|]);
        repeat split; eauto;
        exists c'; repeat split;
        [exact H5 | exact H6 | discriminate
        |exact H5 | exact H6 | intros _; exact (proj2 H7)].
    + assert (Hd : block_draws (scrollY w) b = false)
        by (unfold block_draws; rewrite Ha, Hy; exact Hnow).
      assert (Hf : block_fails (l_images l) (scrollY w) b = false)
        by (unfold block_fails; now rewrite Hd).
      rewrite (bind_block_autoplay_top lid b w Ha Hy Hnow).
      outcome_step Hf. rewrite Han. cbn [List.length].
      rewrite filter_app, animations_app.
      cbn [filter is_listener is_animate animations List.length]. rewrite app_nil_r.
      repeat split; eauto. exists c. repeat split; [exact Hc | discriminate].
  - assert (Han : block_animates (scrollY w) b = false)
      by (unfold block_animates; now rewrite Ha, Hy).
    assert (Hd : block_draws (scrollY w) b = true)
      by (unfold block_draws; now rewrite Ha, Hy).
    rewrite (bind_block_autoplay_scrolled lid b w Ha Hy). fold (last_frame b).
    set (w0 := with_heap _ _).
    destruct (Hrender w0 Hl Hc) as (H1 & H2 & H3 & H4 & c' & H5 & H6 & H7).
    unfold blocks_outcome, animated. cbn [existsb reached orb].
    unfold block_fails. rewrite Hd. cbn [andb].
    rewrite H1, H2, H3, H4. subst w0.
    cbn [loaders scrollY heap log with_log with_heap].
    destruct (array_get (l_images l) (last_frame b)); cbn [orb filter];
      rewrite Han; cbn [List.length]; rewrite Nat.add_0_r;
      (split; [first [exact H7 | exact (proj1 H7)]|]);
      repeat split; eauto;
      exists c'; repeat split;
      [exact H5 | exact H6 | discriminate
      |exact H5 | exact H6 | intros _; exact (proj2 H7)].
  - assert (Han : block_animates (scrollY w) b = true)
      by (unfold block_animates; now rewrite Ha).
    assert (Hd : block_draws (scrollY w) b = false)
      by (unfold block_draws; now rewrite Ha).
    assert (Hf : block_fails (l_images l) (scrollY w) b = false)
      by (unfold block_fails; now rewrite Hd).
    rewrite (bind_block_scroll lid b w Ha).
    outcome_step Hf. rewrite Han. cbn [List.length].
    rewrite filter_app, animations_app.
    cbn [filter is_listener is_animate animations List.length]. rewrite app_nil_r.
    repeat split; eauto. exists c. repeat split; [exact Hc | discriminate].
Qed.

Lemma forEach_bind_block_outcome (lid : nat) (l : loader) (bs : list block) :
  forall (w : world) (c : canvas),
    nth_error (loaders w) lid = Some l ->
    nth_error (canvases w) (l_canvas l) = Some c ->
    blocks_outcome l c bs w (forEach (bind_block lid) bs w).
Proof.
  induction bs as [|b bs IH]; intros w c Hl Hc.
  - unfold blocks_outcome, animated. cbn. rewrite Nat.add_0_r.
    repeat split; try reflexivity.
    + exists []. now rewrite app_nil_r.
    + exists c. repeat split; [exact Hc | discriminate].
  - pose proof (bind_block_outcome lid b w Hl Hc) as H1.
    cbn [forEach]. unfold bind.
    unfold blocks_outcome, animated in *. cbn [existsb reached] in *.
    destruct (block_fails (l_images l) (scrollY w) b) eqn:Hf; cbn [orb] in *;
      destruct (bind_block lid b w) as [[[]|e] w1]; cbn [fst snd] in *;
      destruct H1 as (Hr & Hl1 & Hy1 & (extra & Hh1) & Hli1 & Han1 & c1 & Hc1 & Hg1 & Hs1);
      try discriminate.
    + repeat split; eauto.
    + rewrite <- Hl1 in Hl.
      specialize (IH w1 c1 Hl Hc1).
      destruct IH as (Hr2 & Hl2 & Hy2 & (extra2 & Hh2) & Hli2 & Han2 & c2 & Hc2 & Hg2 & Hs2).
      rewrite Hy1 in *.
      split; [exact Hr2|]. split; [congruence|]. split; [congruence|].
      split; [exists (extra ++ extra2); rewrite Hh2, Hh1; now rewrite app_assoc|].
      split; [congruence|].
      split.
      * rewrite Han2, Han1. cbn [filter].
        destruct (block_animates (scrollY w) b); cbn [filter List.length]; lia.
      * exists c2. repeat split; [exact Hc2 | congruence | exact Hs2].
Qed.

Lemma fails_iff (images : list image) (y : num) (bs : list block) :
  existsb (block_fails images y) bs = true <->
  exists b,
    In b bs /\ b_autoplaySequence b = true /\
    (leb y (of_Z 1) = false \/
     falsy_num (div (to_num (isub (Number (b_end b)) (Number (b_start b)))) (of_Z 30)) = true /\
     falsy_num (match b_autoplayDelay b with Some d => d | None => zero end) = true) /\
    array_get images (isub (Number (b_end b)) (Int 1)) = None.
Proof.
  rewrite existsb_exists. split; intros (b & Hin & H); exists b; (split; [exact Hin|]).
  - unfold block_fails, block_draws, renders_at_once, last_frame in H.
    cbn [t_duration t_delay autoplay_tween] in H.
    apply andb_true_iff in H. destruct H as [H Hget].
    apply andb_true_iff in H. destruct H as [Ha H].
    apply orb_true_iff in H.
    split; [exact Ha|]. split.
    + destruct H as [H|H]; [left; now apply negb_true_iff in H|].
      right. now apply andb_true_iff in H.
    + now destruct (array_get images _).
  - destruct H as (Ha & H & Hget).
    unfold block_fails, block_draws, renders_at_once, last_frame.
    cbn [t_duration t_delay autoplay_tween]. rewrite Ha, Hget. cbn [andb].
    rewrite andb_true_r. apply orb_true_iff.
    destruct H as [H|[H1 H2]]; [left; now rewrite H | right; now rewrite H1, H2].
Qed.

(** X9: what setting up the animations of a section comes to.  In a
    closure that has images and a canvas, [initCanvasAnimations] throws a
    TypeError exactly when some autoplay block that draws its last frame
    inside the call ends on a frame that the image array does not have; the
    block draws inside the call when the page is scrolled by more than one
    pixel, and also when its tween has no duration and no delay, which the
    engine renders at once.  Then the blocks behind that one are never
    bound, no resize listener is registered and the canvas is left blank.
    Otherwise it returns normally, exactly one resize listener has been
    registered, for the default sequence, and the canvas shows frame 0: the
    last frame that an autoplay block has drawn is painted over in the same
    call.  In both cases every block that the loop has reached has handed
    one animation to the engine, except the autoplay blocks of a scrolled
    page, and the canvas keeps its size. *)
Theorem animations_setup_outcome
  (lid : nat) (sec : section) (w : world) (l : loader) (c : canvas) :
  nth_error (loaders w) lid = Some l ->
  nth_error (canvases w) (l_canvas l) = Some c ->
  l_images l <> [] ->
  let fails := existsb (block_fails (l_images l) (scrollY w)) (s_blocks sec) in
  let r := initCanvasAnimations lid sec w in
  (fails = true <->
   exists b,
     In b (s_blocks sec) /\ b_autoplaySequence b = true /\
     (leb (scrollY w) (of_Z 1) = false \/
      falsy_num (div (to_num (isub (Number (b_end b)) (Number (b_start b)))) (of_Z 30))
        = true /\
      falsy_num (match b_autoplayDelay b with Some d => d | None => zero end) = true) /\
     array_get (l_images l) (isub (Number (b_end b)) (Int 1)) = None) /\
  fst r = (if fails then Throw TypeError else Normal tt) /\
  filter is_listener (log (snd r)) =
    filter is_listener (log w) ++
    (if fails then [] else [AddResizeListener lid (List.length (heap w))]) /\
  animations (log (snd r)) =
    (animations (log w) + animated (l_images l) (scrollY w) (s_blocks sec))%nat /\
  exists c',
    nth_error (canvases (snd r)) (l_canvas l) = Some c' /\
    geometry c' = geometry c /\
    c_shown c' = if fails then []
                 else frame_shown (l_images l) (Sequence (Int 0)) (c_width c) (c_height c).
Proof.
  intros Hl Hc Hi fails r. split; [apply fails_iff|]. subst r.
  set (w0 := with_heap (heap w ++ [Sequence (Int 0)])
                       (with_log (log w ++ [Call_initCanvasAnimations lid]) w)).
  assert (Hrun : initCanvasAnimations lid sec w =
                 let (r1, w1) := forEach (bind_block lid) (s_blocks sec) w0 in
                 match r1 with
                 | Normal _ => (render_at lid (List.length (heap w)) ;;;
                                emit (AddResizeListener lid (List.length (heap w)))) w1
                 | Throw e => (Throw e, w1)
                 end) by reflexivity.
  rewrite Hrun. clear Hrun.
  assert (Hl0 : nth_error (loaders w0) lid = Some l) by exact Hl.
  assert (Hc0 : nth_error (canvases w0) (l_canvas l) = Some c) by exact Hc.
  pose proof (forEach_bind_block_outcome lid (s_blocks sec) w0 Hl0 Hc0) as H1.
  unfold blocks_outcome in H1. change (scrollY w0) with (scrollY w) in H1.
  fold fails in H1.
  destruct (forEach (bind_block lid) (s_blocks sec) w0) as [[[]|e] w1]; cbn [fst snd] in *;
    destruct H1 as (Hr & Hl1 & Hy1 & (extra & Hh1) & Hli1 & Han1 & c1 & Hc1 & Hg1 & Hs1).
  - destruct fails; [discriminate|].
    assert (Hd : nth_error (heap w1) (List.length (heap w)) = Some (Sequence (Int 0))).
    { rewrite Hh1. subst w0. cbn [heap with_heap with_log].
      rewrite nth_error_app1 by (rewrite length_app; simpl; lia).
      apply nth_error_last. }
    unfold bind, render_at. rewrite Hd. unfold render_with. rewrite Hl1, Hl0, Hc1.
    destruct (l_images l) as [|img imgs] eqn:Ei; [congruence|].
    rewrite (@render_found (img :: imgs) (Sequence (Int 0)) c1 img eq_refl).
    unfold emit, modify.
    cbn [fst snd log canvases with_log with_canvases].
    rewrite filter_app, animations_app, Hli1, Han1.
    subst w0. cbn [log with_heap with_log].
    rewrite filter_app, animations_app. cbn [filter is_listener is_animate animations
                                              List.length].
    rewrite app_nil_r, !Nat.add_0_r.
    repeat split.
    eexists. split; [apply (@nth_error_set_nth_eq _ _ _ _ _ Hc1)|].
    split; [exact Hg1|].
    unfold geometry in Hg1. injection Hg1 as Hw Hh _ _.
    unfold frame_shown.
    rewrite (@render_found (img :: imgs) (Sequence (Int 0)) (Canvas _ _ 0 0 [] []) img eq_refl).
    cbn [c_shown]. unfold draw_x, draw_y, newWidth, newHeight, scaleFactor.
    cbn [c_width c_height]. rewrite Hw, Hh. reflexivity.
  - destruct fails; [|discriminate].
    cbn [fst snd]. rewrite Hli1, Han1. subst w0. cbn [log with_heap with_log].
    rewrite filter_app, animations_app. cbn [filter is_listener is_animate animations
                                              List.length].
    rewrite !app_nil_r, Nat.add_0_r.
    repeat split; [exact Hr|].
    exists c1. repeat split; [exact Hc1 | exact Hg1 | now apply Hs1].
Qed.


(** ** Frame numbers in URLs *)

Lemma uint_of_zeros (k : nat) (s : string) :
  NilEmpty.uint_of_string (string_of_list_ascii (repeat "0"%char k) ++ s) =
  option_map (Nat.iter k Decimal.D0) (NilEmpty.uint_of_string s).
Proof.
  induction k as [|k IH]; cbn [repeat string_of_list_ascii String.append Nat.iter].
  - now destruct (NilEmpty.uint_of_string s).
  - cbn [NilEmpty.uint_of_string]. rewrite IH.
    now destruct (NilEmpty.uint_of_string s).
Qed.

Lemma of_uint_zeros (k : nat) (u : Decimal.uint) :
  Z.of_uint (Nat.iter k Decimal.D0 u) = Z.of_uint u.
Proof. induction k as [|k IH]; [reflexivity | exact IH]. Qed.

(** Padding does not change the number: the numeral of [n], padded to any
    width, reads back as [n]. *)
Lemma frame_number_zero_pad (n : Z) (width : nat) :
  0 <= n -> frame_number (zero_pad n width) = n.
Proof.
  intros Hn. unfold frame_number, zero_pad. rewrite uint_of_zeros.
  assert (H : exists u, Z.to_int n = Decimal.Pos u)
    by (destruct n as [|p|p]; [eexists; reflexivity .. | lia]).
  destruct H as [u Hu]. rewrite Hu. cbn [NilZero.string_of_int].
  assert (Hz : Z.of_uint u = n).
  { change (Z.of_int (Decimal.Pos u) = n). rewrite <- Hu. apply DecimalZ.of_to. }
  assert (E : exists u', NilEmpty.uint_of_string (NilZero.string_of_uint u) = Some u' /\
                         Z.of_uint u' = Z.of_uint u).
  { destruct u;
      [exists (Decimal.D0 Decimal.Nil); split; reflexivity
      | eexists; split; [exact (NilEmpty.usu _) | reflexivity] ..]. }
  destruct E as (u' & E & Hu'). rewrite E. cbn [option_map].
  now rewrite of_uint_zeros, Hu'.
Qed.

Lemma append_inv_head (a x y : string) : (a ++ x = a ++ y)%string -> x = y.
Proof.
  induction a as [|c a IH]; cbn [String.append]; intros H; [exact H|].
  apply IH. now injection H.
Qed.

Lemma list_ascii_of_append (a b : string) :
  list_ascii_of_string (a ++ b) = (list_ascii_of_string a ++ list_ascii_of_string b)%list.
Proof. induction a as [|c a IH]; cbn; [reflexivity | now rewrite IH]. Qed.

Lemma append_inv_tail (x y s : string) : (x ++ s = y ++ s)%string -> x = y.
Proof.
  intros H. apply (f_equal list_ascii_of_string) in H.
  rewrite !list_ascii_of_append in H. apply app_inv_tail in H.
  rewrite <- (string_of_list_ascii_of_string x), <- (string_of_list_ascii_of_string y).
  now rewrite H.
Qed.

Lemma currentFrame_inj (prefix device suffix : string) (i j : Z) :
  0 <= i -> 0 <= j ->
  currentFrame prefix device suffix i = currentFrame prefix device suffix j -> i = j.
Proof.
  intros Hi Hj H. rewrite !currentFrame_zero_pad in H.
  do 3 apply append_inv_head in H. apply append_inv_tail in H.
  apply (f_equal frame_number) in H.
  rewrite !frame_number_zero_pad in H by lia. lia.
Qed.

(** X10: no two frames of a section share a file.  In every execution,
    the URLs of the images of every closure are pairwise different, however
    many frames the section has: beyond frame 999 the numeral grows to four
    digits and more, and the numeral of every frame [i], padded or not,
    reads back as [i + 1]. *)
Theorem frame_urls_distinct
  (doc : list section) (cvs : list canvas) (cw : Z) (y : num) (evs : list event)
  (l : loader) :
  let w := run evs (script_load doc cvs cw y) in
  In l (loaders w) ->
  NoDup (map src (l_images l)) /\
  (forall i, 0 <= i ->
     frame_number (padStart (toString (Int (i + 1))) 3 "0") = i + 1).
Proof.
  intros w Hin. split.
  - assert (H : device_fixed cw w).
    { apply device_fixed_run, device_fixed_initSections.
      repeat split; constructor. }
    destruct H as (_ & Hok & _). rewrite Forall_forall in Hok.
    destruct (Hok (loader_static l) (in_map loader_static _ _ Hin)) as (_ & Hurls).
    cbn [loader_static] in Hurls. rewrite Hurls.
    apply NoDup_map_NoDup_ForallPairs; [|apply seq_NoDup].
    intros a b _ _ E. apply currentFrame_inj in E; lia.
  - intros i Hi. rewrite padStart_zero_pad. apply frame_number_zero_pad. lia.
Qed.

(** A section of 1200 frames: numerals of three and of four digits. *)
Lemma frame_urls_distinct_witness :
  let s := Wrapper (Some "/a/"%string) (Some ".jpg"%string) (Some (Int 1200)) (Some 0%nat) [] in
  let w := run [Load 0 0 400 300] (script_load [s] [Canvas 0 0 800 600 [] []] 1024 zero) in
  let l := nth 0 (loaders w) (Loader s 0 EmptyString EmptyString EmptyString 0 [] 0) in
  In l (loaders w) /\ NoDup (map src (l_images l)).
Proof.
  intros s w l.
  assert (Hin : In l (loaders w)) by (left; reflexivity).
  split; [exact Hin|].
  apply (@frame_urls_distinct [s] [Canvas 0 0 800 600 [] []] 1024 zero
           [Load 0 0 400 300] l Hin).
Defined.

(** A page at the top, and a section of two frames whose second block is
    an autoplay block with start 9 and end 9: its tween has no duration and
    no delay, frame 8 is rendered inside the call, and the call throws.  The
    two blocks that the loop reached have their animations, the third block
    has none, and no resize listener is registered.  The same on a page
    scrolled by 500 pixels, where the autoplay block gets no animation. *)
Lemma animations_setup_outcome_witness :
  let b1 := Block (Some (Int 1)) (Some (Int 2)) false None None None in
  let b2 := Block (Some (Int 9)) (Some (Int 9)) true None None None in
  let s := Wrapper (Some "/a/"%string) (Some ".jpg"%string) (Some (Int 2)) (Some 0%nat)
                   [b1; b2; b1] in
  let w := run [Load 0 0 400 300]
               (script_load [s] [Canvas 0 0 800 600 [] []] 1024 zero) in
  let w' := step w (Scroll (of_Z 500)) in
  let r := initCanvasAnimations 0 s w in
  let r' := initCanvasAnimations 0 s w' in
  (fst r = Throw TypeError /\
   filter is_listener (log (snd r)) = [] /\
   animations (log (snd r)) = 2%nat) /\
  (fst r' = Throw TypeError /\
   filter is_listener (log (snd r')) = [] /\
   animations (log (snd r')) = 1%nat).
Proof.
  intros b1 b2 s w w' r r'.
  pose (l := nth 0 (loaders w) (Loader s 0 EmptyString EmptyString EmptyString 0 [] 0)).
  pose (c := nth 0 (canvases w) (Canvas 0 0 0 0 [] [])).
  assert (Hi : l_images l <> []) by (vm_compute; discriminate).
  destruct (@animations_setup_outcome 0 s w l c eq_refl eq_refl Hi)
    as (_ & H1 & H2 & H3 & _).
  destruct (@animations_setup_outcome 0 s w' l c eq_refl eq_refl Hi)
    as (_ & H1' & H2' & H3' & _).
  split; (split; [|split]); assumption.
Defined.


(** ** The size of the bitmaps *)

Lemma same_size_refl (w : world) : same_size w w.
Proof. reflexivity. Qed.

Lemma same_size_trans (a b c : world) : same_size a b -> same_size b c -> same_size a c.
Proof. unfold same_size. congruence. Qed.

Lemma same_size_canvas : canvas_only same_size.
Proof. intros w w' H. unfold same_size. now rewrite H. Qed.

Lemma same_size_render : across_render same_size.
Proof.
  intros w cv c images sq Hc. unfold same_size. cbn [canvases with_canvases].
  apply (@map_set_nth_same _ _ bitmap_size _ _ _ _ Hc).
  pose proof (render_geometry images sq c) as Hg. unfold geometry in Hg.
  unfold bitmap_size. now injection Hg as -> -> _ _.
Qed.

Lemma same_size_step (w : world) (ev : event) :
  keeps_size ev = true -> same_size w (step w ev).
Proof.
  intros Hev.
  assert (Hr : match ev with
               | Load _ _ _ _ | Error _ _ | Tick _ _ | Scroll _ => same_size w (step w ev)
               | _ => True
               end).
  { apply step_rendering;
      [exact same_size_refl | exact same_size_trans
       | exact same_size_canvas | exact same_size_render]. }
  destruct ev as [|lid i nw nh|lid i|k p|cw|y|cv pw ph]; try exact Hr; try discriminate.
  cbn [step]. destruct (nth_error (canvases w) cv) as [c|] eqn:Hc; [|reflexivity].
  unfold same_size. cbn [canvases with_canvases].
  apply (@map_set_nth_same _ _ bitmap_size _ _ _ _ Hc). reflexivity.
Qed.

(** X11: a canvas does not follow its parent box by itself.  The width
    and the height of every canvas bitmap stay what they are through loads,
    errors, animation updates, scrolling and changes of the layout of the
    parent boxes: only the initialisation of the sections and the resize
    listeners assign them. *)
Theorem bitmap_size_is_kept (w : world) (evs : list event) :
  forallb keeps_size evs = true ->
  map bitmap_size (canvases (run evs w)) = map bitmap_size (canvases w).
Proof.
  revert w. induction evs as [|ev evs IH]; intros w H; [reflexivity|].
  cbn [forallb] in H. apply andb_true_iff in H. destruct H as [Hev Hevs].
  cbn [run fold_left]. fold (run evs (step w ev)).
  rewrite (IH _ Hevs). exact (@same_size_step w ev Hev).
Qed.


(** The parent box of a canvas of 800 by 600 grows to 1000 by 700; the
    bitmap is still 800 by 600 after the next animation update. *)
Lemma bitmap_size_is_kept_witness :
  let s := Wrapper (Some "/a/"%string) (Some ".jpg"%string) (Some (Int 1)) (Some 0%nat)
                   [Block (Some (Int 1)) (Some (Int 1)) false None None None] in
  let w := script_load [s] [Canvas 0 0 800 600 [] []] 1024 zero in
  let evs := [Load 0 0 400 300; Layout 0 1000 700; Scroll (of_Z 40); Tick 3 1%Q] in
  forallb keeps_size evs = true /\
  map bitmap_size (canvases (run evs w)) = [(800%N, 600%N)] /\
  map parent_box (canvases (run evs w)) = [(1000%N, 700%N)].
Proof.
  intros s w evs. split; [reflexivity|]. split.
  - exact (@bitmap_size_is_kept w evs eq_refl).
  - vm_compute. reflexivity.
Defined.
